(** * CNN-SLAM: the photometric camera-pose estimator

    A shallow embedding of the pose estimation of the tracking thread
    (declared in [Tracking/PoseEstimation.h]): the residual model
    [CostFunctor::operator()] and the driver [EstimateCameraPose].

    Conventions of the embedding.
    - A point array (an N x 3, N x 2 or N x 1 [cv::Mat]) is a list with one
      entry per row; a 1 x 3 or 3 x 3 matrix is a tuple.  Matrix expressions
      are transcribed operator by operator.
    - The floating-point scalars, and the numeric primitives of OpenCV and
      libm that the code calls ([cv::Rodrigues], [cv::sqrt], [std::acos], the
      rounding of [convertTo(CV_32S)]), are an interface, [Numeric]: whatever
      is proved for every instance holds for every arithmetic.  Conversions
      between [CV_32F] and [CV_64F] are the identity of that one scalar type.
    - 8-bit matrices ([CV_8U]: pixel buffers and comparison masks) and 32-bit
      integer matrices hold [Z].
    - Console output ([cout]) is not part of the state.
    - The two functions are modelled twice.  First on values, each
      [cv::Mat] being the matrix it holds: what the functions compute.
      Then in memory, each [cv::Mat] being a header onto a buffer that
      other headers may share, with the allocations, the in-place
      operations and the writes through pointers of the source: what the
      functions write.  The second model is shown to store the results of
      the first. *)

From Stdlib Require Import ZArith QArith Qround Reals Lia Lra.
From stdpp Require Import base list.

Local Open Scope Z_scope.

(** ** Shapes *)

Definition Vec3 (A : Type) : Type := (A * A * A)%type.
Definition Mat33 (A : Type) : Type := Vec3 (Vec3 A).
Definition Vec4 (A : Type) : Type := (A * A * A * A)%type.
Definition Mat44 (A : Type) : Type := Vec4 (Vec4 A).

(** A [Vec3b] pixel: three [uchar] channels. *)
Definition Vec3b : Type := Vec3 Z.

(** ** The numeric interface *)

Class Numeric (F : Type) : Type := {
  f_zero : F;
  f_one : F;
  f_add : F -> F -> F;
  f_sub : F -> F -> F;
  f_mul : F -> F -> F;
  f_div : F -> F -> F;
  f_sqrt : F -> F;
  f_acos : F -> F;
  (** an integer ([int], [uchar]) converted to a scalar *)
  f_of_Z : Z -> F;
  (** [saturate_cast<int>], the rounding of [convertTo(CV_32S)] *)
  cvRound : F -> Z;
  (** [cv::Rodrigues] from a rotation vector to a rotation matrix *)
  Rodrigues : Vec3 F -> Mat33 F
}.

Declare Scope num_scope.
Delimit Scope num_scope with num.
Notation "x + y" := (f_add x y) : num_scope.
Notation "x - y" := (f_sub x y) : num_scope.
Notation "x * y" := (f_mul x y) : num_scope.
Notation "x / y" := (f_div x y) : num_scope.

(** ** Images *)

Record Image : Type := {
  rows : Z;
  cols : Z;
  data : list (list Vec3b)
}.

(** [im.at<Vec3b>(row, col)]: [None] is a read outside [rows x cols]. *)
Definition Image_at (im : Image) (row col : Z) : option Vec3b :=
  if (0 <=? row) && (row <? rows im) && (0 <=? col) && (col <? cols im)
  then Some (default (0, 0, 0)
               (data im !! Z.to_nat row ≫= fun line => line !! Z.to_nat col))
  else None.

(** ** 8-bit arithmetic and masks *)

Definition saturate_cast_uchar (z : Z) : Z := Z.max 0 (Z.min 255 z).

(** [m >= c] and [m < c] on an integer column: 255 where true, 0 where not. *)
Definition cmp_ge (m : list Z) (c : Z) : list Z :=
  map (fun x => if c <=? x then 255 else 0) m.

Definition cmp_lt (m : list Z) (c : Z) : list Z :=
  map (fun x => if x <? c then 255 else 0) m.

(** [bitwise_and(src1, src2, dst, mask)]: where the mask is set the entry of
    [dst] becomes [src1 & src2], elsewhere it keeps its value. *)
Fixpoint bitwise_and (src1 src2 dst mask : list Z) : list Z :=
  match src1, src2, dst, mask with
  | a :: src1, b :: src2, d :: dst, m :: mask =>
      (if m =? 0 then d else Z.land a b) :: bitwise_and src1 src2 dst mask
  | _, _, _, _ => []
  end.

(** [sum(m)[0]] of an 8-bit column. *)
Definition cv_sum_8U (m : list Z) : Z := foldl Z.add 0 m.

(** [A - B] on [CV_8U] matrices is [cv::subtract], which saturates.  The
    buffer [pixels] is [CV_8U] and the operator takes operands of one element
    type only, so [mHighGradPtPixels] is [CV_8U] too and so is the
    difference, which the code converts to [CV_32F] afterwards. *)
Definition vec3b_sub (a b : Vec3b) : Vec3b :=
  let '(a0, a1, a2) := a in
  let '(b0, b1, b2) := b in
  (saturate_cast_uchar (a0 - b0), saturate_cast_uchar (a1 - b1),
   saturate_cast_uchar (a2 - b2)).

Definition mat_sub_8U (A B : list Vec3b) : list Vec3b := zip_with vec3b_sub A B.

(** Column and point projections of an N x 2 integer matrix. *)
Definition col_0 (P : list (Z * Z)) : list Z := map fst P.
Definition col_1 (P : list (Z * Z)) : list Z := map snd P.

Inductive scalar_type : Type := T_double | T_float | T_other.

Inductive cv_depth : Type := CV_64F | CV_32F.

Section Model.

Context {F : Type} `{Numeric F}.

Local Open Scope num_scope.

(** ** Small matrices *)

Definition mat_t (M : Mat33 F) : Mat33 F :=
  let '((a, b, c), (d, e, f), (g, h, i)) := M in
  ((a, d, g), (b, e, h), (c, f, i)).

(** A row vector times a 3 x 3 matrix. *)
Definition vec_mul_mat (v : Vec3 F) (M : Mat33 F) : Vec3 F :=
  let '(x, y, z) := v in
  let '((a, b, c), (d, e, f), (g, h, i)) := M in
  (x * a + y * d + z * g, x * b + y * e + z * h, x * c + y * f + z * i).

Definition vec3_zip (op : F -> F -> F) (u v : Vec3 F) : Vec3 F :=
  let '(a, b, c) := u in
  let '(d, e, f) := v in
  (op a d, op b e, op c f).

Definition trace (M : Mat33 F) : F :=
  let '((a, _, _), (_, e, _), (_, _, i)) := M in a + e + i.

(** ** Point arrays *)

(** [repeat(m, 1, 3)] and [repeat(m, 1, 2)] of an N x 1 matrix. *)
Definition repeat_cols3 (m : list F) : list (Vec3 F) :=
  map (fun d => (d, d, d)) m.

Definition repeat_cols2 (m : list F) : list (F * F) :=
  map (fun d => (d, d)) m.

(** [repeat(v, n, 1)] of a 1 x 3 matrix. *)
Definition repeat_rows (v : Vec3 F) (n : nat) : list (Vec3 F) := replicate n v.

(** [A.mul(B)], [A + B] and [A * M]. *)
Definition mat_emul (A B : list (Vec3 F)) : list (Vec3 F) :=
  zip_with (vec3_zip f_mul) A B.

Definition mat_add (A B : list (Vec3 F)) : list (Vec3 F) :=
  zip_with (vec3_zip f_add) A B.

Definition mat_mul (A : list (Vec3 F)) (M : Mat33 F) : list (Vec3 F) :=
  map (fun v => vec_mul_mat v M) A.

Definition col_add (a b : list F) : list F := zip_with f_add a b.
Definition col_sub (a b : list F) : list F := zip_with f_sub a b.
Definition col_div (a b : list F) : list F := zip_with f_div a b.

(** [A.colRange(0, 2)], [A.col(2)] and the element-wise [A / B]. *)
Definition colRange_0_2 (A : list (Vec3 F)) : list (F * F) :=
  map (fun v : Vec3 F => let '(x, y, _) := v in (x, y)) A.

Definition col_2 (A : list (Vec3 F)) : list F :=
  map (fun v : Vec3 F => let '(_, _, z) := v in z) A.

Definition mat_ediv2 (A B : list (F * F)) : list (F * F) :=
  zip_with (fun a b => (fst a / fst b, snd a / snd b)) A B.

Definition convertTo_32S (A : list (F * F)) : list (Z * Z) :=
  map (fun a => (cvRound (fst a), cvRound (snd a))) A.

Definition convertTo_32F (A : list Vec3b) : list (Vec3 F) :=
  map (fun p : Vec3b => let '(b, g, r) := p in (f_of_Z b, f_of_Z g, f_of_Z r)) A.

(** [cv::pow(A, 2, A)], [reduce(A, A, 1, CV_REDUCE_SUM)] and [cv::sqrt]. *)
Definition pow2 (x : F) : F := x * x.

Definition mat_pow2 (A : list (Vec3 F)) : list (Vec3 F) :=
  map (fun v : Vec3 F => let '(a, b, c) := v in (pow2 a, pow2 b, pow2 c)) A.

Definition reduce_sum (A : list (Vec3 F)) : list F :=
  map (fun v : Vec3 F => let '(a, b, c) := v in a + b + c) A.

Definition col_sqrt (a : list F) : list F := map f_sqrt a.
Definition col_pow2 (a : list F) : list F := map pow2 a.
Definition col_add_scalar (a : list F) (s : F) : list F := map (fun x => x + s) a.

(** [sum(m)[0]] of a scalar column; the functor prints it of the squared
    residuals. *)
Definition cv_sum (m : list F) : F := foldl f_add f_zero m.

(** [mean(m, mask)[0]]: the sum of the entries under the mask times the
    inverse of their number, and zero under an empty mask. *)
Definition cv_mean_acc (acc : F * Z) (xm : F * Z) : F * Z :=
  if snd xm =? 0 then acc else (fst acc + fst xm, (snd acc + 1)%Z).

Definition cv_mean (m : list F) (mask : list Z) : F :=
  let '(s, nz) := foldl cv_mean_acc (f_zero, 0%Z) (zip m mask) in
  if nz =? 0 then f_zero else s / f_of_Z nz.

(** ** The reference keyframe and the functor *)

Record KeyFrame : Type := {
  mHighGradPtPixels : list Vec3b;
  mHighGradPtHomo2dCoord : list (Vec3 F);
  mHighGradPtDepth : list F;
  mHighGradPtSqrtUncertainty : list F;
  mInvK : Mat33 F;
  GetPose : Mat44 F
}.

Record CostFunctor : Type := {
  imColor : Image;
  pReferenceKF : KeyFrame;
  Kt : Mat33 F;
  invKt : Mat33 F;
  cameraPixelNoise2 : F
}.

Definition mkCostFunctor (im : Image) (kf : KeyFrame) (K invK : Mat33 F)
    (noise : F) : CostFunctor :=
  {| imColor := im; pReferenceKF := kf; Kt := mat_t K; invKt := mat_t invK;
     cameraPixelNoise2 := noise |}.

(** ** The residual model, [CostFunctor::operator()] *)

(** The template parameter selects the matrix depth; any other type is
    unsupported. *)
Definition cv_type_of (T : scalar_type) : option cv_depth :=
  match T with
  | T_double => Some CV_64F
  | T_float => Some CV_32F
  | T_other => None
  end.

Definition convertTo (type : cv_depth) (m : list F) : list F := m.

(** The projected integer pixel of every point for the depth column [depth]:
    [(repeat(depth, 1, 3).mul(homo) * invKt * Rt + tt) * Kt], divided by its
    third column and converted to [CV_32S]. *)
Definition project (cf : CostFunctor) (Rt : Mat33 F) (tt : list (Vec3 F))
    (depth : list F) : list (Z * Z) :=
  let proj3d :=
    mat_mul
      (mat_add
         (mat_mul
            (mat_mul
               (mat_emul (repeat_cols3 depth)
                  (mHighGradPtHomo2dCoord (pReferenceKF cf)))
               (invKt cf))
            Rt)
         tt)
      (Kt cf) in
  let proj2d := mat_ediv2 (colRange_0_2 proj3d) (repeat_cols2 (col_2 proj3d)) in
  convertTo_32S proj2d.

(** The validity mask: eight comparisons, accumulated in place. *)
Definition valid_mask (im : Image) (proj2d proj2dRight : list (Z * Z)) : list Z :=
  let valid := cmp_ge (col_0 proj2d) 0 in
  let valid := bitwise_and valid (cmp_lt (col_0 proj2d) (cols im)) valid valid in
  let valid := bitwise_and valid (cmp_ge (col_1 proj2d) 0) valid valid in
  let valid := bitwise_and valid (cmp_lt (col_1 proj2d) (rows im)) valid valid in
  let valid := bitwise_and valid (cmp_ge (col_0 proj2dRight) 0) valid valid in
  let valid := bitwise_and valid (cmp_lt (col_0 proj2dRight) (cols im)) valid valid in
  let valid := bitwise_and valid (cmp_ge (col_1 proj2dRight) 0) valid valid in
  let valid := bitwise_and valid (cmp_lt (col_1 proj2dRight) (rows im)) valid valid in
  valid.

(** [Mat pixels(n, 3, CV_8U)]: a fresh buffer holds whatever the allocator
    left there, here [junk]. *)
Definition alloc (junk : nat -> Vec3b) (n : nat) : list Vec3b :=
  map junk (seq 0 n).

(** One iteration of the sampling loop.  [None] is a read outside a matrix
    or outside the image.  The buffers have one row per mask entry, so the
    writes at [i] are in range. *)
Definition extract_step (im : Image) (proj2d proj2dRight : list (Z * Z))
    (valid : list Z) (st : option (list Vec3b * list Vec3b)) (i : nat)
    : option (list Vec3b * list Vec3b) :=
  bufs ← st;
  m ← valid !! i;
  if m =? 0 then Some bufs
  else
    p ← proj2d !! i;
    pixel ← Image_at im (snd p) (fst p);
    let pixels := <[i := pixel]> (fst bufs) in
    q ← proj2dRight !! i;
    pixel ← Image_at im (snd q) (fst q);
    let pixelsRight := <[i := pixel]> (snd bufs) in
    Some (pixels, pixelsRight).

Definition extract_pixels (im : Image) (proj2d proj2dRight : list (Z * Z))
    (valid : list Z) (pixels pixelsRight : list Vec3b)
    : option (list Vec3b * list Vec3b) :=
  foldl (extract_step im proj2d proj2dRight valid)
    (Some (pixels, pixelsRight)) (seq 0 (length valid)).

(** The photometric residual of every row: the reference colours minus the
    sampled ones, converted, squared, summed over the channels, rooted. *)
Definition photometric (ref pixels : list Vec3b) : list F :=
  col_sqrt (reduce_sum (mat_pow2 (convertTo_32F (mat_sub_8U ref pixels)))).

(** The loop that sets the invalid points to the mean residual; [regRes] has
    one row per mask entry, so the write at [i] is in range. *)
Definition fill_step (valid : list Z) (meanRes : F) (regRes : list F)
    (i : nat) : list F :=
  match valid !! i with
  | Some m => if m =? 0 then <[i := meanRes]> regRes else regRes
  | None => regRes
  end.

Definition fill_invalid (valid : list Z) (meanRes : F) (regRes : list F)
    : list F :=
  foldl (fill_step valid meanRes) regRes (seq 0 (length valid)).

Inductive eval_result : Type :=
  | OutOfBounds
  | ReturnFalse
  | ReturnTrue (residual : list F).

Definition CostFunctor_operator (cf : CostFunctor) (T : scalar_type)
    (junk junkRight : nat -> Vec3b) (r t : Vec3 F) : eval_result :=
  match cv_type_of T with
  | None => ReturnFalse
  | Some type =>
    let kf := pReferenceKF cf in
    let Rt := mat_t (Rodrigues r) in
    let tt := repeat_rows t (length (mHighGradPtDepth kf)) in
    let proj2d := project cf Rt tt (mHighGradPtDepth kf) in
    let proj2dRight :=
      project cf Rt tt
        (col_add (mHighGradPtDepth kf) (mHighGradPtSqrtUncertainty kf)) in
    let valid := valid_mask (imColor cf) proj2d proj2dRight in
    match extract_pixels (imColor cf) proj2d proj2dRight valid
            (alloc junk (length valid)) (alloc junkRight (length valid)) with
    | None => OutOfBounds
    | Some (pixels, pixelsRight) =>
      let res := photometric (mHighGradPtPixels kf) pixels in
      let resRight := photometric (mHighGradPtPixels kf) pixelsRight in
      let diff := col_pow2 (col_sub resRight res) in
      let var :=
        col_sqrt (col_add_scalar diff (f_of_Z 2 * cameraPixelNoise2 cf)) in
      let regRes := col_div res var in
      let meanRes := cv_mean regRes valid in
      let regRes := fill_invalid valid meanRes regRes in
      ReturnTrue (convertTo type regRes)
    end
  end.

(** ** The driver, [EstimateCameraPose] *)

Definition RotationAngle (R : Mat33 F) : F :=
  f_acos ((trace R - f_one) / f_of_Z 2).

(** [cv::norm] of a 3-vector. *)
Definition TranslationDist (t : Vec3 F) : F :=
  let '(x, y, z) := t in f_sqrt (x * x + y * y + z * z).

Definition zeros44 : Mat44 F :=
  ((f_zero, f_zero, f_zero, f_zero), (f_zero, f_zero, f_zero, f_zero),
   (f_zero, f_zero, f_zero, f_zero), (f_zero, f_zero, f_zero, f_zero)).

Definition vec4_set (v : Vec4 F) (j : nat) (x : F) : Vec4 F :=
  let '(a, b, c, d) := v in
  match j with
  | 0%nat => (x, b, c, d)
  | 1%nat => (a, x, c, d)
  | 2%nat => (a, b, x, d)
  | 3%nat => (a, b, c, x)
  | _ => v
  end.

(** [M.at<float>(i, j) = x]. *)
Definition mat44_set (M : Mat44 F) (i j : nat) (x : F) : Mat44 F :=
  let '(r0, r1, r2, r3) := M in
  match i with
  | 0%nat => (vec4_set r0 j x, r1, r2, r3)
  | 1%nat => (r0, vec4_set r1 j x, r2, r3)
  | 2%nat => (r0, r1, vec4_set r2 j x, r3)
  | 3%nat => (r0, r1, r2, vec4_set r3 j x)
  | _ => M
  end.

(** [R.copyTo(M.rowRange(0, 3).colRange(0, 3))]. *)
Definition copyTo_block33 (R : Mat33 F) (M : Mat44 F) : Mat44 F :=
  let '((a, b, c), (d, e, f), (g, h, i)) := R in
  let '((_, _, _, m03), (_, _, _, m13), (_, _, _, m23), r3) := M in
  ((a, b, c, m03), (d, e, f, m13), (g, h, i, m23), r3).

(** [M.col(3).rowRange(0, 3)], read as a 3-vector. *)
Definition col3_rowRange_0_3 (M : Mat44 F) : Vec3 F :=
  let '((_, _, _, x), (_, _, _, y), (_, _, _, z), _) := M in (x, y, z).

Definition vec4_mul_mat (v : Vec4 F) (M : Mat44 F) : Vec4 F :=
  let '(x, y, z, w) := v in
  let '((a0, a1, a2, a3), (b0, b1, b2, b3), (c0, c1, c2, c3),
        (d0, d1, d2, d3)) := M in
  (x * a0 + y * b0 + z * c0 + w * d0, x * a1 + y * b1 + z * c1 + w * d1,
   x * a2 + y * b2 + z * c2 + w * d2, x * a3 + y * b3 + z * c3 + w * d3).

Definition mat44_mul (A B : Mat44 F) : Mat44 F :=
  let '(r0, r1, r2, r3) := A in
  (vec4_mul_mat r0 B, vec4_mul_mat r1 B, vec4_mul_mat r2 B, vec4_mul_mat r3 B).

(** The objects a call can reach: the inputs, the optimizer's residual
    block, and the cells behind the output reference and pointers. *)
Record Memory : Type := {
  mem_imColor : Image;
  mem_K : Mat33 F;
  mem_invK : Mat33 F;
  mem_pRefKF : KeyFrame;
  mem_residual : list F;
  mem_Tcw : Mat44 F;
  mem_rotAngle : F;
  mem_transDist : F;
  mem_validRatio : F
}.

Definition set_residual (m : Memory) (v : list F) : Memory :=
  {| mem_imColor := mem_imColor m; mem_K := mem_K m; mem_invK := mem_invK m;
     mem_pRefKF := mem_pRefKF m; mem_residual := v; mem_Tcw := mem_Tcw m;
     mem_rotAngle := mem_rotAngle m; mem_transDist := mem_transDist m;
     mem_validRatio := mem_validRatio m |}.

Definition set_Tcw (m : Memory) (v : Mat44 F) : Memory :=
  {| mem_imColor := mem_imColor m; mem_K := mem_K m; mem_invK := mem_invK m;
     mem_pRefKF := mem_pRefKF m; mem_residual := mem_residual m; mem_Tcw := v;
     mem_rotAngle := mem_rotAngle m; mem_transDist := mem_transDist m;
     mem_validRatio := mem_validRatio m |}.

Definition set_rotAngle (m : Memory) (v : F) : Memory :=
  {| mem_imColor := mem_imColor m; mem_K := mem_K m; mem_invK := mem_invK m;
     mem_pRefKF := mem_pRefKF m; mem_residual := mem_residual m;
     mem_Tcw := mem_Tcw m; mem_rotAngle := v; mem_transDist := mem_transDist m;
     mem_validRatio := mem_validRatio m |}.

Definition set_transDist (m : Memory) (v : F) : Memory :=
  {| mem_imColor := mem_imColor m; mem_K := mem_K m; mem_invK := mem_invK m;
     mem_pRefKF := mem_pRefKF m; mem_residual := mem_residual m;
     mem_Tcw := mem_Tcw m; mem_rotAngle := mem_rotAngle m; mem_transDist := v;
     mem_validRatio := mem_validRatio m |}.

Definition set_validRatio (m : Memory) (v : F) : Memory :=
  {| mem_imColor := mem_imColor m; mem_K := mem_K m; mem_invK := mem_invK m;
     mem_pRefKF := mem_pRefKF m; mem_residual := mem_residual m;
     mem_Tcw := mem_Tcw m; mem_rotAngle := mem_rotAngle m;
     mem_transDist := mem_transDist m; mem_validRatio := v |}.

(** [memcpy(dst, src, n * sizeof(T))]. *)
Definition memcpy (dst src : list F) (n : nat) : list F :=
  take n src ++ drop n dst.

(** One call of the functor bound to the inputs in memory, as the optimizer
    makes it: the result goes to the residual block.  [None] is the
    undefined behaviour of a read out of bounds. *)
Definition CostFunctor_invoke (m : Memory) (noise : F) (T : scalar_type)
    (junk junkRight : nat -> Vec3b) (r t : Vec3 F) : option (bool * Memory) :=
  let cf :=
    mkCostFunctor (mem_imColor m) (mem_pRefKF m) (mem_K m) (mem_invK m) noise in
  match CostFunctor_operator cf T junk junkRight r t with
  | OutOfBounds => None
  | ReturnFalse => Some (false, m)
  | ReturnTrue regRes =>
      Some (true, set_residual m (memcpy (mem_residual m) regRes (length regRes)))
  end.

(** The constants of [util/settings.h] and the optimizer: [Solve] runs
    [ceres::Solve] on the one residual block, from the cost function, the
    Huber scale, the time budget and the initial parameter blocks to the
    final parameter blocks and [summary.final_cost]. *)
Context (TRACKING_NUM_PT : Z) (TRACKING_HUBER_DELTA : F).
Context (Solve : (Vec3 F -> Vec3 F -> eval_result) -> F -> F ->
                 Vec3 F -> Vec3 F -> Vec3 F * Vec3 F * F).

Definition EstimateCameraPose (m : Memory) (cameraPixelNoise2 max_seconds : F)
    (rotAngle transDist validRatio : bool) (junk junkRight : nat -> Vec3b)
    : F * Memory :=
  let imColor := mem_imColor m in
  let K := mem_K m in
  let invK := mem_invK m in
  let pRefKF := mem_pRefKF m in
  let relRotationRodrigues := (f_of_Z 0, f_of_Z 0, f_of_Z 0) in
  let relTranslation := (f_of_Z 0, f_of_Z 0, f_of_Z 0) in
  let cost_function :=
    CostFunctor_operator (mkCostFunctor imColor pRefKF K invK cameraPixelNoise2)
      T_double junk junkRight in
  let '(relRotationRodrigues, relTranslation, final_cost) :=
    Solve cost_function TRACKING_HUBER_DELTA max_seconds
      relRotationRodrigues relTranslation in
  let Rrel := Rodrigues relRotationRodrigues in
  let Trel := zeros44 in
  let Trel := copyTo_block33 Rrel Trel in
  let Trel := mat44_set Trel 0 3 (fst (fst relTranslation)) in
  let Trel := mat44_set Trel 1 3 (snd (fst relTranslation)) in
  let Trel := mat44_set Trel 2 3 (snd relTranslation) in
  let Trel := mat44_set Trel 3 3 (f_of_Z 1) in
  let m := set_Tcw m (mat44_mul Trel (GetPose pRefKF)) in
  let m := if rotAngle then set_rotAngle m (RotationAngle Rrel) else m in
  let m :=
    if transDist
    then set_transDist m (TranslationDist (col3_rowRange_0_3 Trel))
    else m in
  let m :=
    if validRatio then
      let proj3d :=
        mat_mul
          (mat_add
             (mat_mul
                (mat_mul
                   (mat_emul (repeat_cols3 (mHighGradPtDepth pRefKF))
                      (mHighGradPtHomo2dCoord pRefKF))
                   (mat_t (mInvK pRefKF)))
                (mat_t Rrel))
             (repeat_rows (col3_rowRange_0_3 Trel)
                (length (mHighGradPtDepth pRefKF))))
          K in
      let proj2d :=
        mat_ediv2 (colRange_0_2 proj3d) (repeat_cols2 (col_2 proj3d)) in
      let proj2d := convertTo_32S proj2d in
      let valid := cmp_ge (col_0 proj2d) 0 in
      let valid :=
        bitwise_and valid (cmp_lt (col_0 proj2d) (rows imColor)) valid valid in
      let valid := bitwise_and valid (cmp_ge (col_1 proj2d) 0) valid valid in
      let valid :=
        bitwise_and valid (cmp_lt (col_1 proj2d) (cols imColor)) valid valid in
      set_validRatio m
        (f_of_Z (cv_sum_8U valid) / f_of_Z 255 / f_of_Z (Z.of_nat (length valid)))
    else m in
  (final_cost / f_of_Z TRACKING_NUM_PT, m).

End Model.

Arguments KeyFrame : clear implicits.
Arguments CostFunctor : clear implicits.
Arguments Memory : clear implicits.
Arguments eval_result : clear implicits.

(** ** The specification's vocabulary *)

(** A pixel [(u, v)] inside the image bounds [[0, width) x [0, height)]. *)
Definition in_image (im : Image) (p : Z * Z) : Prop :=
  0 <= fst p < cols im /\ 0 <= snd p < rows im.

Definition in_imageb (im : Image) (p : Z * Z) : bool :=
  (0 <=? fst p) && (fst p <? cols im) && (0 <=? snd p) && (snd p <? rows im).

(** The colour of the image at the pixel [(u, v)], row [v] and column [u]. *)
Definition sample (im : Image) (p : Z * Z) : Vec3b :=
  default (0, 0, 0) (Image_at im (snd p) (fst p)).

(** The mask entry of a point with primary pixel [p] and shifted pixel [q]. *)
Definition both_in_image (im : Image) (p q : Z * Z) : Z :=
  if in_imageb im p && in_imageb im q then 255 else 0.

(** The mask accumulation step [bitwise_and(valid, x, valid, valid)]. *)
Definition band (valid x : list Z) : list Z := bitwise_and valid x valid valid.

Section Spec.

Context {F : Type} `{Numeric F}.

Local Open Scope num_scope.

(** The pixel of point [i] under the pose [(r, t)], primary and
    uncertainty-shifted, as the functor computes them. *)
Definition proj2d_of (cf : CostFunctor F) (r t : Vec3 F) : list (Z * Z) :=
  project cf (mat_t (Rodrigues r))
    (repeat_rows t (length (mHighGradPtDepth (pReferenceKF cf))))
    (mHighGradPtDepth (pReferenceKF cf)).

Definition proj2dRight_of (cf : CostFunctor F) (r t : Vec3 F) : list (Z * Z) :=
  project cf (mat_t (Rodrigues r))
    (repeat_rows t (length (mHighGradPtDepth (pReferenceKF cf))))
    (col_add (mHighGradPtDepth (pReferenceKF cf))
       (mHighGradPtSqrtUncertainty (pReferenceKF cf))).

Definition valid_of (cf : CostFunctor F) (r t : Vec3 F) : list Z :=
  valid_mask (imColor cf) (proj2d_of cf r t) (proj2dRight_of cf r t).

(** The L2 colour error between two colours. *)
Definition L2_color_error (a b : Vec3b) : F :=
  let '(a0, a1, a2) := a in
  let '(b0, b1, b2) := b in
  f_sqrt (pow2 (f_of_Z (a0 - b0)%Z) + pow2 (f_of_Z (a1 - b1)%Z)
          + pow2 (f_of_Z (a2 - b2)%Z)).

(** What the functor computes in its place: every channel difference is
    saturated to [[0, 255]] first. *)
Definition saturated_color_error (a b : Vec3b) : F :=
  let '(a0, a1, a2) := vec3b_sub a b in
  f_sqrt (pow2 (f_of_Z a0) + pow2 (f_of_Z a1) + pow2 (f_of_Z a2)).

(** The normalized residual from the two colour errors. *)
Definition normalized (res resShift noise : F) : F :=
  res / f_sqrt (pow2 (resShift - res) + f_of_Z 2 * noise).

(** The normalized residual of a point, from a colour error [err], the
    reference colour [c] and the two pixels [p] and [q]. *)
Definition rho (err : Vec3b -> Vec3b -> F) (cf : CostFunctor F)
    (c : Vec3b) (p q : Z * Z) : F :=
  normalized (err c (sample (imColor cf) p)) (err c (sample (imColor cf) q))
    (cameraPixelNoise2 cf).

(** The normalized residuals of all points, index-aligned. *)
Definition rhos (err : Vec3b -> Vec3b -> F) (cf : CostFunctor F)
    (r t : Vec3 F) : list F :=
  zip_with (fun c pq => rho err cf c (fst pq) (snd pq))
    (mHighGradPtPixels (pReferenceKF cf))
    (zip (proj2d_of cf r t) (proj2dRight_of cf r t)).

(** The entries of [l] at the points whose mask entry is set. *)
Definition under_mask (l : list F) (mask : list Z) : list F :=
  fst <$> filter (fun xm => snd xm <> 0) (zip l mask).

Definition arithmetic_mean (l : list F) : F :=
  foldl f_add f_zero l / f_of_Z (Z.of_nat (length l)).

(** The fraction of points whose pixel lies inside the image bounds. *)
Definition fraction_in_image (im : Image) (P : list (Z * Z)) : F :=
  f_of_Z (Z.of_nat (length (filter (fun p => in_imageb im p = true) P)))
  / f_of_Z (Z.of_nat (length P)).

(** The homogeneous rigid transform of a rotation and a translation. *)
Definition rigid_transform (R : Mat33 F) (t : Vec3 F) : Mat44 F :=
  let '((a, b, c), (d, e, f), (g, h, i)) := R in
  let '(x, y, z) := t in
  ((a, b, c, x), (d, e, f, y), (g, h, i, z),
   (f_zero, f_zero, f_zero, f_of_Z 1)).

(** The arrays of a keyframe all have [N] rows. *)
Definition wf_keyframe (kf : KeyFrame F) (N : nat) : Prop :=
  length (mHighGradPtPixels kf) = N /\
  length (mHighGradPtHomo2dCoord kf) = N /\
  length (mHighGradPtDepth kf) = N /\
  length (mHighGradPtSqrtUncertainty kf) = N.

End Spec.

(** ** Exact rational arithmetic

    An instance to run the model on: the field operations are exact (and
    agree with [float] on the small integers and dyadic fractions of the
    examples below), the square root is exact on squares and rounded down
    elsewhere.  The two transcendental primitives are rational stand-ins
    that are exact at the zero rotation vector, the only place the examples
    use them: the series of the exponential map cut after its second-order
    term, and the leading term of the arc cosine at 1.  A division by zero
    gives zero, as the element-wise division of [cv::Mat] does in the
    releases of OpenCV that have [CV_REDUCE_SUM]. *)

Definition Q_sqrt (q : Q) : Q :=
  Qred (Z.sqrt (Qnum q * Zpos (Qden q)) # Qden q).

(** Round to nearest, ties to even. *)
Definition Q_round (q : Q) : Z :=
  let f := Qfloor q in
  match Qcompare (q - inject_Z f) (1 # 2) with
  | Lt => f
  | Gt => f + 1
  | Eq => if Z.even f then f else f + 1
  end.

Definition Q_Rodrigues (r : Vec3 Q) : Mat33 Q :=
  let '(x, y, z) := r in
  let h (a b : Q) : Q := (a * b / 2)%Q in
  ((Qred (1 - h y y - h z z), Qred (h x y - z), Qred (h x z + y)),
   (Qred (h x y + z), Qred (1 - h x x - h z z), Qred (h y z - x)),
   (Qred (h x z - y), Qred (h y z + x), Qred (1 - h x x - h y y)))%Q.

#[export] Instance Q_Numeric : Numeric Q := {|
  f_zero := 0%Q;
  f_one := 1%Q;
  f_add := fun a b => Qred (a + b);
  f_sub := fun a b => Qred (a - b);
  f_mul := fun a b => Qred (a * b);
  f_div := fun a b => Qred (a / b);
  f_sqrt := Q_sqrt;
  f_acos := fun x => Q_sqrt (2 * (1 - x));
  f_of_Z := inject_Z;
  cvRound := Q_round;
  Rodrigues := Q_Rodrigues
|}.

(** ** Real arithmetic

    The idealised instance: the scalars are the real numbers, the Rodrigues
    formula is OpenCV's, and the rounding to an integer pixel is to the
    nearest integer, ties to even. *)

Definition R_round (x : R) : Z :=
  let f := Int_part x in
  if Rlt_dec (frac_part x) (1 / 2) then f
  else if Rlt_dec (1 / 2) (frac_part x) then f + 1
  else if Z.even f then f else f + 1.

Definition R_Rodrigues (r : Vec3 R) : Mat33 R :=
  let '(x, y, z) := r in
  let theta := sqrt (x * x + y * y + z * z)%R in
  if Req_EM_T theta 0 then ((1, 0, 0), (0, 1, 0), (0, 0, 1))%R
  else
    let c := cos theta in
    let s := sin theta in
    let c1 := (1 - c)%R in
    let kx := (x / theta)%R in
    let ky := (y / theta)%R in
    let kz := (z / theta)%R in
    ((c + c1 * kx * kx, c1 * kx * ky - s * kz, c1 * kx * kz + s * ky),
     (c1 * kx * ky + s * kz, c + c1 * ky * ky, c1 * ky * kz - s * kx),
     (c1 * kx * kz - s * ky, c1 * ky * kz + s * kx, c + c1 * kz * kz))%R.

#[export] Instance R_Numeric : Numeric R := {|
  f_zero := 0%R;
  f_one := 1%R;
  f_add := Rplus;
  f_sub := Rminus;
  f_mul := Rmult;
  f_div := Rdiv;
  f_sqrt := sqrt;
  f_acos := acos;
  f_of_Z := IZR;
  cvRound := R_round;
  Rodrigues := R_Rodrigues
|}.

(** ** Concrete inputs

    A pinhole camera with focal length 2 and principal point (1, 1), a
    2 x 2 image whose pixel at row 1, column 1 has the colour (3, 4, 0), and
    keyframes of one or two points.  All the numbers are small integers or
    halves, on which the rational instance computes what [float] computes. *)

Definition ex_K : Mat33 Q := ((2, 0, 1), (0, 2, 1), (0, 0, 1))%Q.

Definition ex_invK : Mat33 Q :=
  ((1 # 2, 0, - (1 # 2)), (0, 1 # 2, - (1 # 2)), (0, 0, 1))%Q.

Definition ex_I33 : Mat33 Q := ((1, 0, 0), (0, 1, 0), (0, 0, 1))%Q.

Definition ex_I44 : Mat44 Q :=
  ((1, 0, 0, 0), (0, 1, 0, 0), (0, 0, 1, 0), (0, 0, 0, 1))%Q.

Definition ex_zero : Vec3 Q := (0, 0, 0)%Q.

Definition ex_junk : nat -> Vec3b := fun _ => (7, 7, 7).

Definition ex_im : Image :=
  {| rows := 2; cols := 2;
     data := [[(0, 0, 0); (0, 0, 0)]; [(0, 0, 0); (3, 4, 0)]] |}.

(** One point at the pixel (1, 1), depth 2, with a reference colour darker
    than the image there. *)
Definition ex_kf_dark : KeyFrame Q :=
  {| mHighGradPtPixels := [(0, 0, 0)];
     mHighGradPtHomo2dCoord := [(1, 1, 1)%Q];
     mHighGradPtDepth := [2%Q];
     mHighGradPtSqrtUncertainty := [1%Q];
     mInvK := ex_invK;
     GetPose := ex_I44 |}.

Definition ex_cf_dark : CostFunctor Q :=
  mkCostFunctor ex_im ex_kf_dark ex_K ex_invK 2%Q.

(** Two points, at the pixels (1, 1) and (5, 1), with a reference colour
    brighter than the image. *)
Definition ex_kf_two : KeyFrame Q :=
  {| mHighGradPtPixels := [(6, 8, 0); (6, 8, 0)];
     mHighGradPtHomo2dCoord := [(1, 1, 1)%Q; (5, 1, 1)%Q];
     mHighGradPtDepth := [2%Q; 2%Q];
     mHighGradPtSqrtUncertainty := [1%Q; 1%Q];
     mInvK := ex_invK;
     GetPose := ex_I44 |}.

Definition ex_cf_two : CostFunctor Q :=
  mkCostFunctor ex_im ex_kf_two ex_K ex_invK 2%Q.

(** An optimizer out of time at once: it returns its initial iterate, the
    identity pose. *)
Definition ex_Solve (cost_function : Vec3 Q -> Vec3 Q -> eval_result Q)
    (delta max_seconds : Q) (r t : Vec3 Q) : Vec3 Q * Vec3 Q * Q :=
  (r, t, 0%Q).

(** A wide image, 2 rows by 4 columns, seen by a camera whose [K] is the
    identity, and a point at its pixel (3, 0). *)
Definition ex_im_wide : Image :=
  {| rows := 2; cols := 4;
     data := [[(0, 0, 0); (0, 0, 0); (0, 0, 0); (0, 0, 0)];
              [(0, 0, 0); (0, 0, 0); (0, 0, 0); (0, 0, 0)]] |}.

Definition ex_kf_wide : KeyFrame Q :=
  {| mHighGradPtPixels := [(0, 0, 0)];
     mHighGradPtHomo2dCoord := [(3, 0, 1)%Q];
     mHighGradPtDepth := [1%Q];
     mHighGradPtSqrtUncertainty := [0%Q];
     mInvK := ex_I33;
     GetPose := ex_I44 |}.

Definition ex_mem_wide : Memory Q :=
  {| mem_imColor := ex_im_wide; mem_K := ex_I33; mem_invK := ex_I33;
     mem_pRefKF := ex_kf_wide; mem_residual := [];
     mem_Tcw := ex_I44; mem_rotAngle := 0%Q; mem_transDist := 0%Q;
     mem_validRatio := 0%Q |}.

(** The square image under the camera [ex_K], and a point at its pixel
    (0, 1). *)
Definition ex_kf_left : KeyFrame Q :=
  {| mHighGradPtPixels := [(0, 0, 0)];
     mHighGradPtHomo2dCoord := [(0, 1, 1)%Q];
     mHighGradPtDepth := [2%Q];
     mHighGradPtSqrtUncertainty := [0%Q];
     mInvK := ex_invK;
     GetPose := ex_I44 |}.

Definition ex_mem_left : Memory Q :=
  {| mem_imColor := ex_im; mem_K := ex_K; mem_invK := ex_invK;
     mem_pRefKF := ex_kf_left; mem_residual := [];
     mem_Tcw := ex_I44; mem_rotAngle := 0%Q; mem_transDist := 0%Q;
     mem_validRatio := 0%Q |}.

(** A keyframe of one point over the real numbers. *)
Definition ex_kf_real : KeyFrame R :=
  {| mHighGradPtPixels := [(6, 8, 0)];
     mHighGradPtHomo2dCoord := [(0, 0, 1)%R];
     mHighGradPtDepth := [1%R];
     mHighGradPtSqrtUncertainty := [0%R];
     mInvK := ((1, 0, 0), (0, 1, 0), (0, 0, 1))%R;
     GetPose := ((1, 0, 0, 0), (0, 1, 0, 0), (0, 0, 1, 0), (0, 0, 0, 1))%R |}.

(** ** The helpers of [Landmark.h] and [Cuboid.h]

    The templates are taken at the floating-point point type ([cv::Point2f],
    the type of the cuboid corners): a point is the pair of its [x] and [y].
    Comparisons and [fabs] join the numeric interface. *)

Class Ordered (F : Type) : Type := {
  (** [a < b], [a <= b] and [a == b] *)
  f_ltb : F -> F -> bool;
  f_leb : F -> F -> bool;
  f_eqb : F -> F -> bool;
  f_abs : F -> F
}.

Section Geometry.

Context {F : Type} `{Numeric F} `{Ordered F}.

Local Open Scope num_scope.

(** [std::max]. *)
Definition f_max (a b : F) : F := if f_ltb a b then b else a.

Definition FLT_MAX : F := f_of_Z 340282346638528859811704183484516925440.

Definition eye44 : Mat44 F :=
  ((f_one, f_zero, f_zero, f_zero), (f_zero, f_one, f_zero, f_zero),
   (f_zero, f_zero, f_one, f_zero), (f_zero, f_zero, f_zero, f_one)).

(** [t.copyTo(M.col(3).rowRange(0, 3))]. *)
Definition copyTo_col3 (t : Vec3 F) (M : Mat44 F) : Mat44 F :=
  let '(x, y, z) := t in
  let '((a0, a1, a2, _), (b0, b1, b2, _), (c0, c1, c2, _), r3) := M in
  ((a0, a1, a2, x), (b0, b1, b2, y), (c0, c1, c2, z), r3).

Definition TFromRt (R : Mat33 F) (t : Vec3 F) : Mat44 F :=
  let T := eye44 in
  let T := copyTo_block33 R T in
  let T := copyTo_col3 t T in
  T.

Definition DistanceSquare (pt1 pt2 : F * F) : F :=
  pow2 (fst pt1 - fst pt2) + pow2 (snd pt1 - snd pt2).

Definition Distance (pt1 pt2 : F * F) : F := f_sqrt (DistanceSquare pt1 pt2).

Definition IsParallel (A B C D : F * F) : bool :=
  f_ltb ((fst A - fst B) * (snd C - snd D) - (snd A - snd B) * (fst C - fst D))
    (f_of_Z 1 / f_of_Z 1000000).

Definition LineIntersectionX (A B : F * F) (x : F) : F * F :=
  (x, snd A + (snd B - snd A) * (x - fst A) / (fst B - fst A)).

Definition LineIntersectionY (A B : F * F) (y : F) : F * F :=
  (fst A + (fst B - fst A) * (y - snd A) / (snd B - snd A), y).

Definition LineIntersection (A B C D : F * F) : F * F :=
  let a1 := snd B - snd A in
  let b1 := fst A - fst B in
  let c1 := a1 * fst A + b1 * snd A in
  let a2 := snd D - snd C in
  let b2 := fst C - fst D in
  let c2 := a2 * fst C + b2 * snd C in
  let determinant := a1 * b2 - a2 * b1 in
  if f_eqb determinant (f_of_Z 0) then (FLT_MAX, FLT_MAX)
  else
    let x := (b2 * c1 - b1 * c2) / determinant in
    let y := (a1 * c2 - a2 * c1) / determinant in
    (x, y).

(** [homo] is a 3 x 1 matrix of floats. *)
Definition PointFrom2DHomo (homo : Vec3 F) : F * F :=
  let RANGE := f_of_Z 1000000 in
  let '(X, Y, Z) := homo in
  let absZ := f_abs Z in
  if f_leb (f_of_Z 1) absZ then (X / Z, Y / Z)
  else
    let maxAbsXY := f_max (f_abs X) (f_abs Y) in
    if f_ltb maxAbsXY (RANGE * absZ) then (X / Z, Y / Z)
    else if f_ltb (f_abs Y) (f_abs X) then
      let x := if f_ltb (f_of_Z 0) X then RANGE else f_of_Z (-1000000) in
      let y := x * (Y / X) in
      (x, y)
    else
      let y := if f_ltb (f_of_Z 0) Y then RANGE else f_of_Z (-1000000) in
      let x := y * (X / Y) in
      (x, y).

End Geometry.

(** [Inside], for any coordinate type with a sum and an order; [cv::Rect_]
    is the corner [(x, y)] with a width and a height. *)
Record Rect_ (T : Type) : Type := {
  rect_x : T;
  rect_y : T;
  rect_width : T;
  rect_height : T
}.

Arguments rect_x {T}.
Arguments rect_y {T}.
Arguments rect_width {T}.
Arguments rect_height {T}.

Definition Inside {T : Type} (t_add : T -> T -> T) (t_leb : T -> T -> bool)
    (pt : T * T) (bbox : Rect_ T) : bool :=
  t_leb (rect_x bbox) (fst pt)
  && t_leb (fst pt) (t_add (rect_x bbox) (rect_width bbox))
  && t_leb (rect_y bbox) (snd pt)
  && t_leb (snd pt) (t_add (rect_y bbox) (rect_height bbox)).

(** [Inside] on integer pixels and rectangles ([cv::Point], [cv::Rect]),
    with the sums taken in the integers: what the code computes as long as
    [x + width] and [y + height] stay within [int]. *)
Definition Inside_int : Z * Z -> Rect_ Z -> bool := Inside Z.add Z.leb.

(** The same with the sums as the machine takes them, in 32-bit two's
    complement. *)
Definition is_int32 (z : Z) : Prop := - 2147483648 <= z < 2147483648.

Definition wrap_int32 (z : Z) : Z :=
  (z + 2147483648) mod 4294967296 - 2147483648.

Definition int32_add (a b : Z) : Z := wrap_int32 (a + b).

Definition Inside_int32 : Z * Z -> Rect_ Z -> bool := Inside int32_add Z.leb.

Definition Q_abs (q : Q) : Q := if Qle_bool 0 q then q else Qred (- q).

#[export] Instance Q_Ordered : Ordered Q := {|
  f_ltb := fun a b => match Qcompare a b with Lt => true | _ => false end;
  f_leb := Qle_bool;
  f_eqb := Qeq_bool;
  f_abs := Q_abs
|}.

#[export] Instance R_Ordered : Ordered R := {|
  f_ltb := fun a b => if Rlt_dec a b then true else false;
  f_leb := fun a b => if Rle_dec a b then true else false;
  f_eqb := fun a b => if Req_EM_T a b then true else false;
  f_abs := Rabs
|}.

(** ** More vocabulary *)

(** The last row of a 4 x 4 matrix. *)
Definition bottom_row {F : Type} (M : Mat44 F) : Vec4 F :=
  let '(_, _, _, r3) := M in r3.

(** The point [P] is on the line through [A] and [B]. *)
Definition on_line (A B P : R * R) : Prop :=
  ((snd B - snd A) * (fst P - fst A) = (fst B - fst A) * (snd P - snd A))%R.

(** No channel of the colour [s] exceeds that of [c], nor lies more than 255
    below it: for byte channels, [s] is nowhere brighter than [c]. *)
Definition covers (c s : Vec3b) : Prop :=
  let '(c0, c1, c2) := c in
  let '(s0, s1, s2) := s in
  0 <= c0 - s0 <= 255 /\ 0 <= c1 - s1 <= 255 /\ 0 <= c2 - s2 <= 255.

(** The product of two 3 x 3 matrices, and of a matrix and a column. *)
Definition mat33_mul {F : Type} `{Numeric F} (A B : Mat33 F) : Mat33 F :=
  let '(a0, a1, a2) := A in
  (vec_mul_mat a0 B, vec_mul_mat a1 B, vec_mul_mat a2 B).

Definition mat33_apply {F : Type} `{Numeric F} (A : Mat33 F) (v : Vec3 F)
    : Vec3 F :=
  vec_mul_mat v (mat_t A).

(** The mask of the [validRatio] block for the pixels [P], and its test. *)
Definition ratio_test (im : Image) (p : Z * Z) : Z :=
  if (0 <=? fst p) && (fst p <? rows im) && (0 <=? snd p) && (snd p <? cols im)
  then 255 else 0.

(** The Euclidean norm of a 3-vector. *)
Definition norm3 (v : Vec3 R) : R :=
  let '(x, y, z) := v in sqrt (x * x + y * y + z * z)%R.

(** A matrix times a column vector, and the pinhole projection of the
    specification: the point [h] at depth [depth], back-projected with
    [invK], moved by the rotation [Rm] and the translation [t], projected
    with [K], divided by its third coordinate and rounded. *)
Definition mat_vec {F : Type} `{Numeric F} (A : Mat33 F) (v : Vec3 F)
    : Vec3 F :=
  let '((a, b, c), (d, e, f), (g, h, i)) := A in
  let '(x, y, z) := v in
  (a * x + b * y + c * z, d * x + e * y + f * z, g * x + h * y + i * z)%num.

Definition pixel_of_homogeneous {F : Type} `{Numeric F} (v : Vec3 F)
    : Z * Z :=
  let '(x, y, w) := v in (cvRound (x / w)%num, cvRound (y / w)%num).

Definition pinhole_point {F : Type} `{Numeric F} (K invK Rm : Mat33 F)
    (t : Vec3 F) (depth : F) (h : Vec3 F) : Vec3 F :=
  let '(bx, b_y, bz) := mat_vec invK h in
  mat_vec K
    (vec3_zip f_add
       (mat_vec Rm (depth * bx, depth * b_y, depth * bz)%num) t).

Definition pinhole_pixel {F : Type} `{Numeric F} (K invK Rm : Mat33 F)
    (t : Vec3 F) (depth : F) (h : Vec3 F) : Z * Z :=
  pixel_of_homogeneous (pinhole_point K invK Rm t depth h).

(** An optimizer that returns the iterate [(r, t)] and the cost [c]. *)
Definition Solve_returning {F : Type} (r t : Vec3 F) (c : F)
    (cost_function : Vec3 F -> Vec3 F -> eval_result F)
    (delta max_seconds : F) (r0 t0 : Vec3 F) : Vec3 F * Vec3 F * F :=
  (r, t, c).

Definition ex_mem_real : Memory R :=
  {| mem_imColor := ex_im;
     mem_K := ((2, 0, 1), (0, 2, 1), (0, 0, 1))%R;
     mem_invK := ((1 / 2, 0, - (1 / 2)), (0, 1 / 2, - (1 / 2)), (0, 0, 1))%R;
     mem_pRefKF := ex_kf_real; mem_residual := [];
     mem_Tcw := ((0, 0, 0, 0), (0, 0, 0, 0), (0, 0, 0, 0), (0, 0, 0, 0))%R;
     mem_rotAngle := 5%R; mem_transDist := 5%R; mem_validRatio := 5%R |}.

(** ** The calls in memory

    The same two functions once more, now with every [cv::Mat] as what it
    is in C++: a header onto a buffer that other headers may share.  Memory
    is a list of cells, an address is an index into it, and a header is the
    address of its buffer; a buffer carries the shape (rows, columns,
    element type) under which the program views it.  Every operation that
    takes an [OutputArray] goes through [Mat::create]: the destination keeps
    its buffer, and is written in place, exactly when it already has the
    shape of the result; otherwise it is bound to a fresh buffer.  A block
    of three [T]'s behind a parameter pointer is the buffer of the header
    [Mat(1, 3, type, ptr)] that the functor puts on it, and a residual block
    is a column of [T]'s.  [None] is a fault: a read or write outside a
    buffer, a dangling address, or an OpenCV assertion on the kind or the
    element type of a matrix.  Matrices whose row counts disagree are cut
    to the shorter one, as in the first model; the theorems take the arrays
    of the keyframe to be of one length.  Outside the memory are the
    reference counts of the buffers, the headers of the local matrices
    (they are the variables of the definitions) and the console; the loops
    marked for OpenMP and the evaluations of the optimizer run one after
    the other. *)

Inductive mat_type : Type :=
  | CV_8UC3
  | CV_8U
  | CV_32S
  | CV_F (d : cv_depth).

#[export] Instance cv_depth_eq_dec : EqDecision cv_depth.
Proof. solve_decision. Defined.

#[export] Instance mat_type_eq_dec : EqDecision mat_type.
Proof. solve_decision. Defined.

(** Rows, columns and element type. *)
Definition Shape : Type := Z * Z * mat_type.

(** An [ORB_SLAM2::KeyFrame] object: the buffers of its matrices. *)
Record KeyFrame_object : Type := {
  mHighGradPtPixels_data : nat;
  mHighGradPtHomo2dCoord_data : nat;
  mHighGradPtDepth_data : nat;
  mHighGradPtSqrtUncertainty_data : nat;
  mInvK_data : nat;
  Tcw_data : nat
}.

Section InMemory.

Context {F : Type} `{Numeric F}.

Local Open Scope num_scope.

Inductive Cell : Type :=
  | Buf_image (im : Image)
  | Buf_8U3 (A : list Vec3b)
  | Buf_8U1 (m : list Z)
  | Buf_32S2 (P : list (Z * Z))
  | Buf_1 (d : cv_depth) (v : list F)
  | Buf_2 (d : cv_depth) (A : list (F * F))
  | Buf_3 (d : cv_depth) (A : list (Vec3 F))
  | Buf_44 (d : cv_depth) (M : Mat44 F)
  | Obj_float (x : F)
  | Obj_KeyFrame (kf : KeyFrame_object).

Abbreviation Heap := (list Cell).

Definition rows_of {A : Type} (l : list A) : Z := Z.of_nat (length l).

Definition shape_of (c : Cell) : option Shape :=
  match c with
  | Buf_image im => Some (rows im, cols im, CV_8UC3)
  | Buf_8U3 A => Some (rows_of A, 3, CV_8U)
  | Buf_8U1 m => Some (rows_of m, 1, CV_8U)
  | Buf_32S2 P => Some (rows_of P, 2, CV_32S)
  | Buf_1 d v => Some (rows_of v, 1, CV_F d)
  | Buf_2 d A => Some (rows_of A, 2, CV_F d)
  | Buf_3 d A => Some (rows_of A, 3, CV_F d)
  | Buf_44 d M => Some (4, 4, CV_F d)
  | Obj_float _ => None
  | Obj_KeyFrame _ => None
  end.

(** *** The state monad of a call *)

Definition M (A : Type) : Type := Heap -> option (A * Heap).

#[export] Instance M_ret : MRet M := fun A a h => Some (a, h).

#[export] Instance M_bind : MBind M := fun A B k m h =>
  match m h with
  | Some (a, h') => k a h'
  | None => None
  end.

Definition fault {A : Type} : M A := fun _ => None.

Definition lift {A : Type} (o : option A) : M A :=
  match o with
  | Some a => mret a
  | None => fault
  end.

(** A fresh buffer, after everything allocated so far. *)
Definition allocate (c : Cell) : M nat := fun h => Some (length h, h ++ [c]).

Definition load (a : nat) : M Cell := fun h =>
  match h !! a with
  | Some c => Some (c, h)
  | None => None
  end.

Definition store (a : nat) (c : Cell) : M unit := fun h =>
  if decide (a < length h)%nat then Some (tt, <[a := c]> h) else None.

(** [_dst.create(shape)] followed by the writing of the result [c]: in
    place where the destination has that shape already, to a fresh buffer
    where it has another one or none. *)
Definition create_write (dst : option nat) (s : Shape) (c : Cell) : M nat :=
  match dst with
  | None => allocate c
  | Some a =>
      c0 ← load a;
      if decide (shape_of c0 = Some s) then store a c;; mret a
      else allocate c
  end.

Fixpoint for_each (l : list nat) (body : nat -> M unit) : M unit :=
  match l with
  | [] => mret tt
  | i :: l => body i;; for_each l body
  end.

(** *** Reading a buffer under a type *)

Definition rows33 (M : Mat33 F) : list (Vec3 F) :=
  [fst (fst M); snd (fst M); snd M].

Definition as_image (c : Cell) : option Image :=
  match c with Buf_image im => Some im | _ => None end.

Definition as_8U3 (c : Cell) : option (list Vec3b) :=
  match c with Buf_8U3 A => Some A | _ => None end.

Definition as_8U1 (c : Cell) : option (list Z) :=
  match c with Buf_8U1 m => Some m | _ => None end.

Definition as_32S2 (c : Cell) : option (list (Z * Z)) :=
  match c with Buf_32S2 P => Some P | _ => None end.

Definition as_1 (d : cv_depth) (c : Cell) : option (list F) :=
  match c with
  | Buf_1 d' v => if decide (d' = d) then Some v else None
  | _ => None
  end.

Definition as_3 (d : cv_depth) (c : Cell) : option (list (Vec3 F)) :=
  match c with
  | Buf_3 d' A => if decide (d' = d) then Some A else None
  | _ => None
  end.

Definition as_1x3 (d : cv_depth) (c : Cell) : option (Vec3 F) :=
  match as_3 d c with
  | Some [v] => Some v
  | _ => None
  end.

Definition as_33 (d : cv_depth) (c : Cell) : option (Mat33 F) :=
  match as_3 d c with
  | Some [r0; r1; r2] => Some (r0, r1, r2)
  | _ => None
  end.

Definition as_44 (d : cv_depth) (c : Cell) : option (Mat44 F) :=
  match c with
  | Buf_44 d' M => if decide (d' = d) then Some M else None
  | _ => None
  end.

Definition as_KeyFrame (c : Cell) : option KeyFrame_object :=
  match c with Obj_KeyFrame kf => Some kf | _ => None end.

Definition load_as {A : Type} (as_ : Cell -> option A) (a : nat) : M A :=
  c ← load a; lift (as_ c).

(** [m.rows]. *)
Definition Mat_rows (a : nat) : M nat :=
  c ← load a;
  s ← lift (shape_of c);
  mret (Z.to_nat (fst (fst s))).

(** *** The operations of OpenCV that the two functions call *)

(** [cv::Rodrigues(src, dst)] of a 1 x 3 rotation vector. *)
Definition cv_Rodrigues (d : cv_depth) (src : nat) (dst : option nat)
    : M nat :=
  r ← load_as (as_1x3 d) src;
  create_write dst (3, 3, CV_F d) (Buf_3 d (rows33 (Rodrigues r))).

(** [Mat(m.t())] of a 3 x 3 matrix: a fresh matrix. *)
Definition Mat_t (d : cv_depth) (src : nat) : M nat :=
  R ← load_as (as_33 d) src;
  allocate (Buf_3 d (rows33 (mat_t R))).

(** [src.convertTo(dst, type)]: a copy where the element type stays, which
    is nothing at all where [dst] is [src]; otherwise [dst] is created with
    the new type and receives the converted entries. *)
Definition converted (type : mat_type) (c : Cell) : option Cell :=
  match c, type with
  | Buf_1 _ v, CV_F d => Some (Buf_1 d v)
  | Buf_2 _ A, CV_F d => Some (Buf_2 d A)
  | Buf_3 _ A, CV_F d => Some (Buf_3 d A)
  | Buf_44 _ M, CV_F d => Some (Buf_44 d M)
  | Buf_8U3 A, CV_F d => Some (Buf_3 d (convertTo_32F A))
  | Buf_2 _ A, CV_32S => Some (Buf_32S2 (convertTo_32S A))
  | _, _ => None
  end.

Definition Mat_copyTo (src : nat) (dst : option nat) : M nat :=
  c ← load src;
  s ← lift (shape_of c);
  if decide (dst = Some src) then mret src else create_write dst s c.

Definition Mat_convertTo (src : nat) (dst : option nat) (type : mat_type)
    : M nat :=
  c ← load src;
  s ← lift (shape_of c);
  if decide (snd s = type) then Mat_copyTo src dst
  else
    c' ← lift (converted type c);
    create_write dst (fst s, type) c'.

(** [repeat(src, n, 1)] of a 1 x 3 matrix: a fresh matrix. *)
Definition cv_repeat (src : nat) (n : nat) : M nat :=
  v ← load_as (as_1x3 CV_32F) src;
  allocate (Buf_3 CV_32F (repeat_rows v n)).

(** [cv::pow(src, 2, dst)], [reduce(src, dst, 1, CV_REDUCE_SUM, CV_32F)]
    and [cv::sqrt(src, dst)]. *)
Definition cv_pow2 (src : nat) (dst : option nat) : M nat :=
  c ← load src;
  s ← lift (shape_of c);
  c' ← lift match c with
            | Buf_1 d v => Some (Buf_1 d (col_pow2 v))
            | Buf_3 d A => Some (Buf_3 d (mat_pow2 A))
            | _ => None
            end;
  create_write dst s c'.

Definition cv_reduce_sum (src : nat) (dst : option nat) : M nat :=
  A ← load_as (as_3 CV_32F) src;
  create_write dst (rows_of A, 1, CV_F CV_32F) (Buf_1 CV_32F (reduce_sum A)).

Definition cv_sqrt (src : nat) (dst : option nat) : M nat :=
  v ← load_as (as_1 CV_32F) src;
  create_write dst (rows_of v, 1, CV_F CV_32F) (Buf_1 CV_32F (col_sqrt v)).

(** [bitwise_and(src1, src2, dst, mask)] with [src2] the temporary of a
    comparison: the entries of [dst] outside the mask keep the value they
    have, which is zero where [dst] had to be allocated. *)
Definition cv_bitwise_and (src1 : nat) (src2 : list Z) (dst mask : nat)
    : M nat :=
  a ← load_as as_8U1 src1;
  m ← load_as as_8U1 mask;
  c0 ← load dst;
  let d :=
    match c0 with
    | Buf_8U1 d => if decide (length d = length a) then d
                   else replicate (length a) 0%Z
    | _ => replicate (length a) 0%Z
    end in
  create_write (Some dst) (rows_of a, 1%Z, CV_8U)
    (Buf_8U1 (bitwise_and a src2 d m)).

(** [m.at<uchar>(i)], [m.at<int>(i, 0)] with [m.at<int>(i, 1)],
    [im.at<Vec3b>(row, col)], and the assignments through [at]. *)
Definition at_uchar (a : nat) (i : nat) : M Z :=
  m ← load_as as_8U1 a; lift (m !! i).

Definition at_int2 (a : nat) (i : nat) : M (Z * Z) :=
  P ← load_as as_32S2 a; lift (P !! i).

Definition at_Vec3b (a : nat) (row col : Z) : M Vec3b :=
  im ← load_as as_image a; lift (Image_at im row col).

Definition set_uchar3 (a : nat) (i : nat) (pixel : Vec3b) : M unit :=
  A ← load_as as_8U3 a;
  if decide (i < length A)%nat then store a (Buf_8U3 (<[i := pixel]> A))
  else fault.

Definition set_float (a : nat) (i : nat) (x : F) : M unit :=
  v ← load_as (as_1 CV_32F) a;
  if decide (i < length v)%nat then store a (Buf_1 CV_32F (<[i := x]> v))
  else fault.

(** [M.at<float>(i, j) = x] on a 4 x 4 matrix. *)
Definition set_float44 (a : nat) (i j : nat) (x : F) : M unit :=
  T ← load_as (as_44 CV_32F) a;
  store a (Buf_44 CV_32F (mat44_set T i j x)).

(** [*p = x] through a [float *]. *)
Definition store_float (p : nat) (x : F) : M unit := store p (Obj_float x).

(** [memcpy(dst, src.data, sizeof(T) * src.rows)] into a block of [T]'s. *)
Definition memcpy_to (d : cv_depth) (dst src : nat) : M unit :=
  v ← load_as (as_1 d) src;
  w ← load_as (as_1 d) dst;
  if decide (length v <= length w)%nat
  then store dst (Buf_1 d (memcpy w v (length v)))
  else fault.

(** *** [CostFunctor] *)

Record CostFunctor_object : Type := {
  imColor_data : nat;
  pReferenceKF_ptr : nat;
  Kt_data : nat;
  invKt_data : nat;
  cameraPixelNoise2_val : F
}.

(** The constructor: the image header is copied and shares the caller's
    buffer, [K.t()] and [invK.t()] are fresh matrices. *)
Definition CostFunctor_new (imColor pReferenceKF K invK : nat) (noise : F)
    : M CostFunctor_object :=
  Kt ← Mat_t CV_32F K;
  invKt ← Mat_t CV_32F invK;
  mret {| imColor_data := imColor; pReferenceKF_ptr := pReferenceKF;
          Kt_data := Kt; invKt_data := invKt;
          cameraPixelNoise2_val := noise |}.

(** [(repeat(depth, 1, 3).mul(homo) * invKt * Rt + tt) * Kt], assigned to a
    new matrix. *)
Definition projection_expr (depth : list F) (homo invKt Rt tt Kt : nat)
    : M nat :=
  homo ← load_as (as_3 CV_32F) homo;
  invKt ← load_as (as_33 CV_32F) invKt;
  Rt ← load_as (as_33 CV_32F) Rt;
  tt ← load_as (as_3 CV_32F) tt;
  Kt ← load_as (as_33 CV_32F) Kt;
  allocate
    (Buf_3 CV_32F
       (mat_mul
          (mat_add
             (mat_mul (mat_mul (mat_emul (repeat_cols3 depth) homo) invKt) Rt)
             tt)
          Kt)).

(** [proj3d.colRange(0, 2) / repeat(proj3d.col(2), 1, 2)], assigned to a new
    matrix. *)
Definition perspective_expr (proj3d : nat) : M nat :=
  p ← load_as (as_3 CV_32F) proj3d;
  allocate
    (Buf_2 CV_32F (mat_ediv2 (colRange_0_2 p) (repeat_cols2 (col_2 p)))).

(** The body of the sampling loop. *)
Definition sample_row (imColor proj2d proj2dRight valid pixels pixelsRight
    : nat) (i : nat) : M unit :=
  m ← at_uchar valid i;
  if (m =? 0)%Z then mret tt
  else
    p ← at_int2 proj2d i;
    pixel ← at_Vec3b imColor (snd p) (fst p);
    set_uchar3 pixels i pixel;;
    q ← at_int2 proj2dRight i;
    pixel ← at_Vec3b imColor (snd q) (fst q);
    set_uchar3 pixelsRight i pixel.

(** The body of the loop that fills the invalid rows. *)
Definition fill_row (valid regRes : nat) (meanRes : F) (i : nat) : M unit :=
  m ← at_uchar valid i;
  if (m =? 0)%Z then set_float regRes i meanRes else mret tt.

(** [res = ref - pixels] and the four operations on it. *)
Definition photometric_in_memory (ref pixels : nat) : M nat :=
  a ← load_as as_8U3 ref;
  b ← load_as as_8U3 pixels;
  res ← allocate (Buf_8U3 (mat_sub_8U a b));
  res ← Mat_convertTo res (Some res) (CV_F CV_32F);
  res ← cv_pow2 res (Some res);
  res ← cv_reduce_sum res (Some res);
  cv_sqrt res (Some res).

(** [CostFunctor::operator()<T>(r, t, residual)]. *)
Definition CostFunctor_call (cf : CostFunctor_object) (T : scalar_type)
    (junkRt : Mat33 F) (junk junkRight : nat -> Vec3b) (r t residual : nat)
    : M bool :=
  match cv_type_of T with
  | None => mret false
  | Some type =>
    Rt ← allocate (Buf_3 type (rows33 junkRt));
    Rt ← cv_Rodrigues type r (Some Rt);
    Rt_t ← Mat_t type Rt;
    Rt ← Mat_convertTo Rt_t (Some Rt) (CV_F CV_32F);
    let tt := t in
    tt ← Mat_convertTo tt (Some tt) (CV_F CV_32F);
    kf ← load_as as_KeyFrame (pReferenceKF_ptr cf);
    n ← Mat_rows (mHighGradPtDepth_data kf);
    tt ← cv_repeat tt n;

    depth ← load_as (as_1 CV_32F) (mHighGradPtDepth_data kf);
    proj3d ← projection_expr depth (mHighGradPtHomo2dCoord_data kf)
               (invKt_data cf) Rt tt (Kt_data cf);
    proj2d ← perspective_expr proj3d;
    proj2d ← Mat_convertTo proj2d (Some proj2d) CV_32S;

    depth ← load_as (as_1 CV_32F) (mHighGradPtDepth_data kf);
    unc ← load_as (as_1 CV_32F) (mHighGradPtSqrtUncertainty_data kf);
    proj3dRight ← projection_expr (col_add depth unc)
                    (mHighGradPtHomo2dCoord_data kf) (invKt_data cf) Rt tt
                    (Kt_data cf);
    proj2dRight ← perspective_expr proj3dRight;
    proj2dRight ← Mat_convertTo proj2dRight (Some proj2dRight) CV_32S;

    P ← load_as as_32S2 proj2d;
    PR ← load_as as_32S2 proj2dRight;
    im ← load_as as_image (imColor_data cf);
    valid ← allocate (Buf_8U1 (cmp_ge (col_0 P) 0));
    valid ← cv_bitwise_and valid (cmp_lt (col_0 P) (cols im)) valid valid;
    valid ← cv_bitwise_and valid (cmp_ge (col_1 P) 0) valid valid;
    valid ← cv_bitwise_and valid (cmp_lt (col_1 P) (rows im)) valid valid;
    valid ← cv_bitwise_and valid (cmp_ge (col_0 PR) 0) valid valid;
    valid ← cv_bitwise_and valid (cmp_lt (col_0 PR) (cols im)) valid valid;
    valid ← cv_bitwise_and valid (cmp_ge (col_1 PR) 0) valid valid;
    valid ← cv_bitwise_and valid (cmp_lt (col_1 PR) (rows im)) valid valid;

    n ← Mat_rows valid;
    pixels ← allocate (Buf_8U3 (alloc junk n));
    pixelsRight ← allocate (Buf_8U3 (alloc junkRight n));
    n ← Mat_rows valid;
    for_each (seq 0 n)
      (sample_row (imColor_data cf) proj2d proj2dRight valid pixels
         pixelsRight);;

    res ← photometric_in_memory (mHighGradPtPixels_data kf) pixels;
    resRight ← photometric_in_memory (mHighGradPtPixels_data kf) pixelsRight;

    a ← load_as (as_1 CV_32F) resRight;
    b ← load_as (as_1 CV_32F) res;
    difference ← allocate (Buf_1 CV_32F (col_sub a b));
    diff ← cv_pow2 difference None;
    d ← load_as (as_1 CV_32F) diff;
    var ← allocate
            (Buf_1 CV_32F
               (col_add_scalar d (f_of_Z 2 * cameraPixelNoise2_val cf)));
    var ← cv_sqrt var (Some var);
    a ← load_as (as_1 CV_32F) res;
    b ← load_as (as_1 CV_32F) var;
    regRes ← allocate (Buf_1 CV_32F (col_div a b));
    x ← load_as (as_1 CV_32F) regRes;
    m ← load_as as_8U1 valid;
    let meanRes := cv_mean x m in
    n ← Mat_rows valid;
    for_each (seq 0 n) (fill_row valid regRes meanRes);;

    regRes ← Mat_convertTo regRes (Some regRes) (CV_F type);
    memcpy_to type residual regRes;;

    cv_pow2 regRes (Some regRes);;
    mret true
  end.

(** *** [EstimateCameraPose] *)

(** [ceres::Solve] on the one residual block reaches the rest of the
    program through the cost function only.  It is a strategy: any number
    of times it asks for the residuals at parameters of its choice, and it
    ends with the final parameters, which go to the caller's parameter
    blocks, and [summary.final_cost]. *)
Inductive Solver : Type :=
  | Finished (r t : Vec3 F) (final_cost : F)
  | Evaluate (r t : Vec3 F) (k : bool -> list F -> Solver).

(** Every evaluation hands the functor two parameter blocks and a residual
    block of ceres' own, the last with [num_residuals] entries. *)
Fixpoint run_Solver (s : Solver) (cf : CostFunctor_object)
    (num_residuals : nat) (junkRt : Mat33 F) (junk junkRight : nat -> Vec3b)
    (junkResidual : nat -> F) (relRotationRodrigues relTranslation : nat)
    : M F :=
  match s with
  | Finished r t final_cost =>
      store relRotationRodrigues (Buf_3 CV_64F [r]);;
      store relTranslation (Buf_3 CV_64F [t]);;
      mret final_cost
  | Evaluate r t k =>
      parameters0 ← allocate (Buf_3 CV_64F [r]);
      parameters1 ← allocate (Buf_3 CV_64F [t]);
      residuals ←
        allocate (Buf_1 CV_64F (map junkResidual (seq 0 num_residuals)));
      b ← CostFunctor_call cf T_double junkRt junk junkRight parameters0
            parameters1 residuals;
      out ← load_as (as_1 CV_64F) residuals;
      run_Solver (k b out) cf num_residuals junkRt junk junkRight
        junkResidual relRotationRodrigues relTranslation
  end.

(** What such a strategy ends with when the evaluations answer [cost],
    and the optimizer of the first model that plays [solve]: there an
    evaluation is a function of the parameters, and the optimizer reads the
    residuals from a block [block] of its own, into which the functor has
    copied them. *)
Fixpoint Solver_result (s : Solver) (cost : Vec3 F -> Vec3 F -> bool * list F)
    : Vec3 F * Vec3 F * F :=
  match s with
  | Finished r t final_cost => (r, t, final_cost)
  | Evaluate r t k => Solver_result (k (fst (cost r t)) (snd (cost r t))) cost
  end.

Definition cost_as_seen (cost_function : Vec3 F -> Vec3 F -> eval_result F)
    (block : list F) (r t : Vec3 F) : bool * list F :=
  match cost_function r t with
  | ReturnTrue out => (true, memcpy block out (length out))
  | ReturnFalse => (false, block)
  | OutOfBounds => (false, block)
  end.

Definition Solve_of (solve : F -> F -> Vec3 F -> Vec3 F -> Solver)
    (block : list F) (cost_function : Vec3 F -> Vec3 F -> eval_result F)
    (delta max_seconds : F) (r t : Vec3 F) : Vec3 F * Vec3 F * F :=
  Solver_result (solve delta max_seconds r t)
    (cost_as_seen cost_function block).

(** [pRefKF->GetPose()]: a clone of the pose of the keyframe. *)
Definition KeyFrame_GetPose (pRefKF : nat) : M nat :=
  kf ← load_as as_KeyFrame pRefKF;
  Tcw ← load_as (as_44 CV_32F) (Tcw_data kf);
  allocate (Buf_44 CV_32F Tcw).

(** [src.copyTo(dst.rowRange(0, 3).colRange(0, 3))]: the view has the
    shape of [src], so the block of [dst] is written in place. *)
Definition copyTo_rowRange_colRange (src dst : nat) : M unit :=
  R ← load_as (as_33 CV_32F) src;
  T ← load_as (as_44 CV_32F) dst;
  store dst (Buf_44 CV_32F (copyTo_block33 R T)).

(** The block under [if (validRatio)]. *)
Definition validRatio_block (imColor K pRefKF Rrel Trel validRatio : nat)
    : M unit :=
  kf ← load_as as_KeyFrame pRefKF;
  depth ← load_as (as_1 CV_32F) (mHighGradPtDepth_data kf);
  homo ← load_as (as_3 CV_32F) (mHighGradPtHomo2dCoord_data kf);
  invK ← load_as (as_33 CV_32F) (mInvK_data kf);
  R ← load_as (as_33 CV_32F) Rrel;
  T ← load_as (as_44 CV_32F) Trel;
  n ← Mat_rows (mHighGradPtDepth_data kf);
  Kv ← load_as (as_33 CV_32F) K;
  proj3d ←
    allocate
      (Buf_3 CV_32F
         (mat_mul
            (mat_add
               (mat_mul
                  (mat_mul (mat_emul (repeat_cols3 depth) homo) (mat_t invK))
                  (mat_t R))
               (repeat_rows (col3_rowRange_0_3 T) n))
            Kv));
  proj2d ← perspective_expr proj3d;
  proj2d ← Mat_convertTo proj2d (Some proj2d) CV_32S;
  P ← load_as as_32S2 proj2d;
  im ← load_as as_image imColor;
  valid ← allocate (Buf_8U1 (cmp_ge (col_0 P) 0));
  valid ← cv_bitwise_and valid (cmp_lt (col_0 P) (rows im)) valid valid;
  valid ← cv_bitwise_and valid (cmp_ge (col_1 P) 0) valid valid;
  valid ← cv_bitwise_and valid (cmp_lt (col_1 P) (cols im)) valid valid;
  v ← load_as as_8U1 valid;
  n ← Mat_rows valid;
  store_float validRatio
    (f_of_Z (cv_sum_8U v) / f_of_Z 255 / f_of_Z (Z.of_nat n)).

Context (TRACKING_NUM_PT : Z) (TRACKING_HUBER_DELTA : F).
Context (ceres_Solve : F -> F -> Vec3 F -> Vec3 F -> Solver).

(** [Tcw] is the buffer of the caller's matrix, if it has one; the three
    pointers may be null.  The call returns the cost and the buffer of
    [Tcw] after the assignment. *)
Definition EstimateCameraPose_call (imColor K invK pRefKF : nat)
    (cameraPixelNoise2 max_seconds : F) (Tcw : option nat)
    (rotAngle transDist validRatio : option nat) (junkRt : Mat33 F)
    (junk junkRight : nat -> Vec3b) (junkResidual : nat -> F)
    : M (F * nat) :=
  relRotationRodrigues ←
    allocate (Buf_3 CV_64F [(f_of_Z 0, f_of_Z 0, f_of_Z 0)]);
  relTranslation ←
    allocate (Buf_3 CV_64F [(f_of_Z 0, f_of_Z 0, f_of_Z 0)]);
  cf ← CostFunctor_new imColor pRefKF K invK cameraPixelNoise2;
  r0 ← load_as (as_1x3 CV_64F) relRotationRodrigues;
  t0 ← load_as (as_1x3 CV_64F) relTranslation;
  final_cost ←
    run_Solver (ceres_Solve TRACKING_HUBER_DELTA max_seconds r0 t0) cf
      (Z.to_nat TRACKING_NUM_PT) junkRt junk junkRight junkResidual
      relRotationRodrigues relTranslation;

  Rrel ← cv_Rodrigues CV_64F relRotationRodrigues None;
  Rrel ← Mat_convertTo Rrel (Some Rrel) (CV_F CV_32F);
  Trel ← allocate (Buf_44 CV_32F zeros44);
  copyTo_rowRange_colRange Rrel Trel;;
  t ← load_as (as_1x3 CV_64F) relTranslation;
  set_float44 Trel 0 3 (fst (fst t));;
  t ← load_as (as_1x3 CV_64F) relTranslation;
  set_float44 Trel 1 3 (snd (fst t));;
  t ← load_as (as_1x3 CV_64F) relTranslation;
  set_float44 Trel 2 3 (snd t);;
  set_float44 Trel 3 3 (f_of_Z 1);;

  pose ← KeyFrame_GetPose pRefKF;
  A ← load_as (as_44 CV_32F) Trel;
  B ← load_as (as_44 CV_32F) pose;
  Tcw ← create_write Tcw (4, 4, CV_F CV_32F)%Z
          (Buf_44 CV_32F (mat44_mul A B));
  match rotAngle with
  | Some p => R ← load_as (as_33 CV_32F) Rrel; store_float p (RotationAngle R)
  | None => mret tt
  end;;
  match transDist with
  | Some p =>
      T ← load_as (as_44 CV_32F) Trel;
      store_float p (TranslationDist (col3_rowRange_0_3 T))
  | None => mret tt
  end;;
  match validRatio with
  | Some p => validRatio_block imColor K pRefKF Rrel Trel p
  | None => mret tt
  end;;
  mret (final_cost / f_of_Z TRACKING_NUM_PT, Tcw).

(** *** What the memory holds

    The arrays of the keyframe [kf] are the buffers of the object [o], and
    the functor [cf] is the object [o]: the relation between a memory and
    the values of the first model. *)
Definition keyframe_arrays_in_memory (h : Heap) (o : KeyFrame_object)
    (kf : KeyFrame F) : Prop :=
  h !! mHighGradPtPixels_data o = Some (Buf_8U3 (mHighGradPtPixels kf))
  /\ h !! mHighGradPtHomo2dCoord_data o
     = Some (Buf_3 CV_32F (mHighGradPtHomo2dCoord kf))
  /\ h !! mHighGradPtDepth_data o = Some (Buf_1 CV_32F (mHighGradPtDepth kf))
  /\ h !! mHighGradPtSqrtUncertainty_data o
     = Some (Buf_1 CV_32F (mHighGradPtSqrtUncertainty kf)).

Definition functor_in_memory (h : Heap) (o : CostFunctor_object)
    (cf : CostFunctor F) : Prop :=
  h !! imColor_data o = Some (Buf_image (imColor cf))
  /\ (exists kf,
        h !! pReferenceKF_ptr o = Some (Obj_KeyFrame kf)
        /\ keyframe_arrays_in_memory h kf (pReferenceKF cf))
  /\ h !! Kt_data o = Some (Buf_3 CV_32F (rows33 (Kt cf)))
  /\ h !! invKt_data o = Some (Buf_3 CV_32F (rows33 (invKt cf)))
  /\ cameraPixelNoise2_val o = cameraPixelNoise2 cf.

(** The inputs of [EstimateCameraPose]: the image, [K], [invK] and the
    keyframe object [o] behind [pRefKF] with its arrays, its [mInvK] and
    its pose. *)
Definition inputs_in_memory (h : Heap) (imColor K invK pRefKF : nat)
    (o : KeyFrame_object) (im : Image) (Kv invKv : Mat33 F) (kf : KeyFrame F)
    : Prop :=
  h !! imColor = Some (Buf_image im)
  /\ h !! K = Some (Buf_3 CV_32F (rows33 Kv))
  /\ h !! invK = Some (Buf_3 CV_32F (rows33 invKv))
  /\ h !! pRefKF = Some (Obj_KeyFrame o)
  /\ keyframe_arrays_in_memory h o kf
  /\ h !! mInvK_data o = Some (Buf_3 CV_32F (rows33 (mInvK kf)))
  /\ h !! Tcw_data o = Some (Buf_44 CV_32F (GetPose kf)).

(** The value that the block under [if (validRatio)] stores, from the
    values of the image, [K], the keyframe, [Rrel] and [Trel]. *)
Definition validRatio_of (im : Image) (Kv : Mat33 F) (kf : KeyFrame F)
    (Rrel : Mat33 F) (Trel : Mat44 F) : F :=
  let proj3d :=
    mat_mul
      (mat_add
         (mat_mul
            (mat_mul
               (mat_emul (repeat_cols3 (mHighGradPtDepth kf))
                  (mHighGradPtHomo2dCoord kf))
               (mat_t (mInvK kf)))
            (mat_t Rrel))
         (repeat_rows (col3_rowRange_0_3 Trel)
            (length (mHighGradPtDepth kf))))
      Kv in
  let proj2d :=
    convertTo_32S
      (mat_ediv2 (colRange_0_2 proj3d) (repeat_cols2 (col_2 proj3d))) in
  let valid :=
    band
      (band
         (band (cmp_ge (col_0 proj2d) 0) (cmp_lt (col_0 proj2d) (rows im)))
         (cmp_ge (col_1 proj2d) 0))
      (cmp_lt (col_1 proj2d) (cols im)) in
  f_of_Z (cv_sum_8U valid) / f_of_Z 255 / f_of_Z (Z.of_nat (length valid)).

(** [Trel] from the rotation matrix and the translation. *)
Definition Trel_of (Rrel : Mat33 F) (t : Vec3 F) : Mat44 F :=
  mat44_set
    (mat44_set
       (mat44_set
          (mat44_set (copyTo_block33 Rrel zeros44) 0 3 (fst (fst t)))
          1 3 (snd (fst t)))
       2 3 (snd t))
    3 3 (f_of_Z 1).

(** A pointer that is not null. *)
Definition non_null (p : option nat) : bool :=
  match p with
  | Some _ => true
  | None => false
  end.

(** The addresses of the inputs the claim names, and of the keyframe
    object and its [mInvK]. *)
Definition input_addresses (imColor K invK pRefKF : nat)
    (o : KeyFrame_object) : list nat :=
  [imColor; K; invK; pRefKF; mHighGradPtPixels_data o;
   mHighGradPtHomo2dCoord_data o; mHighGradPtDepth_data o;
   mHighGradPtSqrtUncertainty_data o; mInvK_data o].

(** The parameter blocks and the residual block of a call of the functor
    at the scalar type [T]: three [T]'s each behind [r] and [t], and room
    for [N] residuals. *)
Definition parameters_in_memory (h : Heap) (T : scalar_type)
    (r t residual : nat) (N : nat) : Prop :=
  match cv_type_of T with
  | Some type =>
      (exists rv, h !! r = Some (Buf_3 type [rv]))
      /\ (exists tv, h !! t = Some (Buf_3 type [tv]))
      /\ exists w, h !! residual = Some (Buf_1 type w) /\ (N <= length w)%nat
  | None => True
  end.

(** *** Weakest preconditions *)

(** The call [m] runs without a fault from the memory [h], and its result
    and final memory satisfy [Q]. *)
Definition wp {A : Type} (m : M A) (Q : A -> Heap -> Prop) (h : Heap) : Prop :=
  match m h with
  | Some (a, h') => Q a h'
  | None => False
  end.

(** Between [h] and [h'] nothing was freed, and every cell of [h] outside
    [W] is as it was. *)
Definition frame (W : nat -> Prop) (h h' : Heap) : Prop :=
  (length h <= length h')%nat /\
  forall a, (a < length h)%nat -> ~ W a -> h' !! a = h !! a.

End InMemory.

Arguments Cell : clear implicits.

Abbreviation Heap F := (list (Cell F)).

Arguments M : clear implicits.
Arguments CostFunctor_object : clear implicits.
Arguments Solver : clear implicits.

(** A memory to run the calls on: the inputs with the keyframe of two
    points (cells 0 to 9), two parameter blocks and a residual block of
    doubles (10 to 12), the caller's pose matrix (13), three floats for the
    diagnostics (14 to 16), and two parameter blocks of floats (17, 18). *)
Definition ex_kf_object : KeyFrame_object :=
  {| mHighGradPtPixels_data := 4; mHighGradPtHomo2dCoord_data := 5;
     mHighGradPtDepth_data := 6; mHighGradPtSqrtUncertainty_data := 7;
     mInvK_data := 8; Tcw_data := 9 |}.

Definition ex_heap : Heap Q :=
  [Buf_image ex_im;
   Buf_3 CV_32F (rows33 ex_K);
   Buf_3 CV_32F (rows33 ex_invK);
   Obj_KeyFrame ex_kf_object;
   Buf_8U3 (mHighGradPtPixels ex_kf_two);
   Buf_3 CV_32F (mHighGradPtHomo2dCoord ex_kf_two);
   Buf_1 CV_32F (mHighGradPtDepth ex_kf_two);
   Buf_1 CV_32F (mHighGradPtSqrtUncertainty ex_kf_two);
   Buf_3 CV_32F (rows33 (mInvK ex_kf_two));
   Buf_44 CV_32F (GetPose ex_kf_two);
   Buf_3 CV_64F [ex_zero];
   Buf_3 CV_64F [ex_zero];
   Buf_1 CV_64F [9%Q; 9%Q; 9%Q];
   Buf_44 CV_32F ex_I44;
   Obj_float 9%Q;
   Obj_float 9%Q;
   Obj_float 9%Q;
   Buf_3 CV_32F [ex_zero];
   Buf_3 CV_32F [ex_zero]].

(** The values that [ex_heap] holds, as a memory of the first model. *)
Definition ex_mem_two : Memory Q :=
  {| mem_imColor := ex_im; mem_K := ex_K; mem_invK := ex_invK;
     mem_pRefKF := ex_kf_two; mem_residual := [];
     mem_Tcw := ex_I44; mem_rotAngle := 9%Q; mem_transDist := 9%Q;
     mem_validRatio := 9%Q |}.

(** An optimizer that evaluates the cost once, at the initial parameters,
    and stops there; and one that stops at once, with a translation. *)
Definition ex_ceres_Solve (delta max_seconds : Q) (r t : Vec3 Q) : Solver Q :=
  Evaluate r t (fun _ _ => Finished r t 0%Q).

Definition ex_ceres_Solve_moved (delta max_seconds : Q) (r t : Vec3 Q)
    : Solver Q :=
  Finished r (1, 0, 0)%Q 0%Q.

(** * Properties *)

(** ** The validity mask *)

Lemma in_imageb_spec (im : Image) (p : Z * Z) :
  in_imageb im p = true <-> in_image im p.
Proof.
  unfold in_imageb, in_image.
  rewrite !andb_true_iff, !Z.leb_le, !Z.ltb_lt. lia.
Qed.

Lemma both_in_image_nonzero (im : Image) (p q : Z * Z) :
  both_in_image im p q <> 0 <-> in_image im p /\ in_image im q.
Proof.
  unfold both_in_image. rewrite <- !in_imageb_spec.
  destruct (in_imageb im p), (in_imageb im q); cbn; intuition (try discriminate; lia).
Qed.

Lemma both_in_image_values (im : Image) (p q : Z * Z) :
  both_in_image im p q = 0 \/ both_in_image im p q = 255.
Proof. unfold both_in_image. destruct (_ && _); auto. Qed.

Lemma band_cons (a b : Z) (v x : list Z) :
  band (a :: v) (b :: x) = (if a =? 0 then a else Z.land a b) :: band v x.
Proof. reflexivity. Qed.

Lemma cmp_ge_cons (a c : Z) (m : list Z) :
  cmp_ge (a :: m) c = (if c <=? a then 255 else 0) :: cmp_ge m c.
Proof. reflexivity. Qed.

Lemma cmp_lt_cons (a c : Z) (m : list Z) :
  cmp_lt (a :: m) c = (if a <? c then 255 else 0) :: cmp_lt m c.
Proof. reflexivity. Qed.

Lemma valid_mask_unfold (im : Image) (P PR : list (Z * Z)) :
  valid_mask im P PR =
  band (band (band (band (band (band (band (cmp_ge (col_0 P) 0)
    (cmp_lt (col_0 P) (cols im))) (cmp_ge (col_1 P) 0))
    (cmp_lt (col_1 P) (rows im))) (cmp_ge (col_0 PR) 0))
    (cmp_lt (col_0 PR) (cols im))) (cmp_ge (col_1 PR) 0))
    (cmp_lt (col_1 PR) (rows im)).
Proof. reflexivity. Qed.

Lemma band_nil_r (v : list Z) : band v [] = [].
Proof. destruct v; reflexivity. Qed.

Lemma valid_mask_zip (im : Image) (P PR : list (Z * Z)) :
  valid_mask im P PR = zip_with (both_in_image im) P PR.
Proof.
  rewrite valid_mask_unfold. revert PR.
  induction P as [|p P IH]; intros PR; [reflexivity|].
  destruct PR as [|q PR].
  - change (col_0 []) with (@nil Z). change (col_1 []) with (@nil Z).
    change (cmp_ge [] 0) with (@nil Z).
    change (cmp_lt [] (cols im)) with (@nil Z).
    change (cmp_lt [] (rows im)) with (@nil Z).
    rewrite !band_nil_r. reflexivity.
  - change (col_0 (p :: P)) with (fst p :: col_0 P).
    change (col_1 (p :: P)) with (snd p :: col_1 P).
    change (col_0 (q :: PR)) with (fst q :: col_0 PR).
    change (col_1 (q :: PR)) with (snd q :: col_1 PR).
    rewrite !cmp_ge_cons, !cmp_lt_cons, !band_cons, IH.
    cbn [zip_with]. f_equal. unfold both_in_image, in_imageb.
    destruct (0 <=? fst p), (fst p <? cols im), (0 <=? snd p),
      (snd p <? rows im), (0 <=? fst q), (fst q <? cols im), (0 <=? snd q),
      (snd q <? rows im); reflexivity.
Qed.

(** ** List bookkeeping *)

Lemma lookup_map {A B : Type} (f : A -> B) (l : list A) (i : nat) :
  map f l !! i = f <$> (l !! i).
Proof. exact (list_lookup_fmap f l i). Qed.

Lemma length_alloc (junk : nat -> Vec3b) (n : nat) : length (alloc junk n) = n.
Proof. unfold alloc. rewrite length_map, length_seq. reflexivity. Qed.

Lemma Image_at_in_image (im : Image) (p : Z * Z) :
  in_imageb im p = true -> Image_at im (snd p) (fst p) = Some (sample im p).
Proof.
  unfold in_imageb, sample, Image_at.
  destruct (0 <=? fst p), (fst p <? cols im), (0 <=? snd p),
    (snd p <? rows im); cbn; intros; try discriminate; reflexivity.
Qed.

Lemma valid_mask_lookup (im : Image) (P PR : list (Z * Z)) (i : nat) (m : Z) :
  valid_mask im P PR !! i = Some m ->
  exists p q, P !! i = Some p /\ PR !! i = Some q /\ m = both_in_image im p q.
Proof.
  rewrite valid_mask_zip. intros Hi.
  apply lookup_zip_with_Some in Hi as (p & q & -> & Hp & Hq). eauto.
Qed.

(** ** The sampling loop *)

Lemma extract_pixels_prefix (im : Image) (P PR : list (Z * Z))
    (px0 pxR0 : list Vec3b) (k : nat) :
  (k <= length (valid_mask im P PR))%nat ->
  exists px pxR,
    foldl (extract_step im P PR (valid_mask im P PR)) (Some (px0, pxR0))
      (seq 0 k) = Some (px, pxR)
    /\ length px = length px0 /\ length pxR = length pxR0
    /\ forall i p q, (i < k)%nat -> P !! i = Some p -> PR !! i = Some q ->
         both_in_image im p q <> 0 ->
         (i < length px0)%nat -> (i < length pxR0)%nat ->
         px !! i = Some (sample im p) /\ pxR !! i = Some (sample im q).
Proof.
  induction k as [|k IH]; intros Hk.
  - exists px0, pxR0. repeat split; auto; intros; lia.
  - destruct IH as (px & pxR & Hrun & Hlen & HlenR & Hval); [lia|].
    rewrite seq_S, foldl_snoc, Hrun. cbn [Nat.add].
    destruct (lookup_lt_is_Some_2 (valid_mask im P PR) k) as [m Hm]; [lia|].
    destruct (valid_mask_lookup _ _ _ _ _ Hm) as (p & q & Hp & Hq & ->).
    unfold extract_step. cbn [mbind option_bind]. rewrite Hm.
    cbn [mbind option_bind].
    destruct (both_in_image im p q =? 0) eqn:Hz.
    + exists px, pxR. split; [reflexivity|]. split; [exact Hlen|].
      split; [exact HlenR|].
      intros i p' q' Hi Hp' Hq' Hnz Hi0 HiR.
      destruct (decide (i = k)) as [->|Hne].
      * rewrite Hp in Hp'. rewrite Hq in Hq'. simplify_eq. lia.
      * apply Hval; auto. lia.
    + assert (Hin : in_imageb im p = true /\ in_imageb im q = true).
      { unfold both_in_image in Hz.
        destruct (in_imageb im p), (in_imageb im q); cbn in Hz;
          try discriminate; auto. }
      destruct Hin as [Hip Hiq].
      rewrite Hp. cbn [mbind option_bind]. rewrite (Image_at_in_image _ _ Hip).
      cbn [mbind option_bind]. rewrite Hq. cbn [mbind option_bind].
      rewrite (Image_at_in_image _ _ Hiq). cbn [mbind option_bind fst snd].
      eexists _, _. split; [reflexivity|].
      rewrite !length_insert. split; [exact Hlen|]. split; [exact HlenR|].
      intros i p' q' Hi Hp' Hq' Hnz Hi0 HiR.
      destruct (decide (i = k)) as [->|Hne].
      * rewrite Hp in Hp'. rewrite Hq in Hq'. simplify_eq.
        split; apply list_lookup_insert_eq; lia.
      * rewrite !list_lookup_insert_ne by auto. apply Hval; auto. lia.
Qed.

Lemma extract_pixels_total (im : Image) (P PR : list (Z * Z))
    (px0 pxR0 : list Vec3b) :
  exists px pxR,
    extract_pixels im P PR (valid_mask im P PR) px0 pxR0 = Some (px, pxR)
    /\ length px = length px0 /\ length pxR = length pxR0
    /\ forall i p q, P !! i = Some p -> PR !! i = Some q ->
         both_in_image im p q <> 0 ->
         (i < length px0)%nat -> (i < length pxR0)%nat ->
         px !! i = Some (sample im p) /\ pxR !! i = Some (sample im q).
Proof.
  destruct (extract_pixels_prefix im P PR px0 pxR0
              (length (valid_mask im P PR)))
    as (px & pxR & Hrun & Hlen & HlenR & Hval); [lia|].
  exists px, pxR. split; [exact Hrun|]. split; [exact Hlen|].
  split; [exact HlenR|].
  intros i p q Hp Hq Hnz Hi0 HiR. apply Hval; auto.
  rewrite valid_mask_zip, length_zip_with.
  apply lookup_lt_Some in Hp. apply lookup_lt_Some in Hq. lia.
Qed.

Section Residuals.

Context {F : Type} `{Numeric F}.

Local Open Scope num_scope.

(** ** The fill loop *)

Lemma fill_invalid_prefix (valid : list Z) (meanRes : F) (regRes : list F)
    (k : nat) :
  let out := foldl (fill_step valid meanRes) regRes (seq 0 k) in
  length out = length regRes /\
  forall i, out !! i =
    if decide (i < k)%nat then
      match valid !! i with
      | Some m => if m =? 0 then (fun _ => meanRes) <$> regRes !! i else regRes !! i
      | None => regRes !! i
      end
    else regRes !! i.
Proof.
  induction k as [|k [IHlen IH]]; cbn zeta.
  - split; [reflexivity|]. intros i. destruct (decide _); [lia|reflexivity].
  - rewrite seq_S, foldl_snoc. cbn [Nat.add].
    unfold fill_step at 1 3.
    destruct (valid !! k) as [m|] eqn:Hm; [destruct (m =? 0) eqn:Hz|].
    + rewrite length_insert. split; [exact IHlen|]. intros i.
      destruct (decide (i = k)) as [->|Hne].
      * destruct (decide (k < S k)%nat); [|lia]. rewrite Hm, Hz.
        destruct (regRes !! k) eqn:Hk.
        -- apply list_lookup_insert_eq. rewrite IHlen.
           eapply lookup_lt_Some; eauto.
        -- cbn. apply lookup_ge_None. rewrite length_insert, IHlen.
           apply lookup_ge_None. exact Hk.
      * rewrite list_lookup_insert_ne by auto. rewrite IH.
        repeat destruct (decide _); try lia; reflexivity.
    + split; [exact IHlen|]. intros i. rewrite IH.
      destruct (decide (i = k)) as [->|Hne].
      * rewrite Hm, Hz. repeat destruct (decide _); try lia; reflexivity.
      * repeat destruct (decide _); try lia; reflexivity.
    + split; [exact IHlen|]. intros i. rewrite IH.
      destruct (decide (i = k)) as [->|Hne].
      * rewrite Hm. repeat destruct (decide _); try lia; reflexivity.
      * repeat destruct (decide _); try lia; reflexivity.
Qed.

Lemma length_fill_invalid (valid : list Z) (meanRes : F) (regRes : list F) :
  length (fill_invalid valid meanRes regRes) = length regRes.
Proof. apply (fill_invalid_prefix valid meanRes regRes (length valid)). Qed.

Lemma fill_invalid_lookup (valid : list Z) (meanRes : F) (regRes : list F)
    (i : nat) (m : Z) :
  length regRes = length valid -> valid !! i = Some m ->
  fill_invalid valid meanRes regRes !! i =
  if m =? 0 then Some meanRes else regRes !! i.
Proof.
  intros Hlen Hm.
  destruct (fill_invalid_prefix valid meanRes regRes (length valid)) as [_ Hl].
  unfold fill_invalid. rewrite Hl, Hm.
  pose proof (lookup_lt_Some _ _ _ Hm).
  destruct (decide _); [|lia].
  destruct (m =? 0); [|reflexivity].
  destruct (lookup_lt_is_Some_2 regRes i) as [x ->]; [lia|reflexivity].
Qed.

(** ** The masked mean *)

Lemma cv_mean_fold (l : list F) (mask : list Z) (s : F) (nz : Z) :
  foldl cv_mean_acc (s, nz) (zip l mask) =
  (foldl f_add s (under_mask l mask),
   (nz + Z.of_nat (length (under_mask l mask)))%Z).
Proof.
  unfold under_mask. revert mask s nz.
  induction l as [|x l IH]; intros [|m mask] s nz; cbn [zip zip_with foldl];
    try (cbn; f_equal; lia).
  unfold cv_mean_acc at 2. cbn [fst snd].
  destruct (Z.eqb_spec m 0) as [->|Hm].
  - rewrite filter_cons_False by (cbn; lia). apply IH.
  - rewrite filter_cons_True by (cbn; lia). rewrite IH. cbn. f_equal. lia.
Qed.

Lemma cv_mean_spec (l : list F) (mask : list Z) :
  cv_mean l mask =
  if decide (under_mask l mask = []) then f_zero
  else arithmetic_mean (under_mask l mask).
Proof.
  unfold cv_mean, arithmetic_mean. rewrite cv_mean_fold.
  destruct (under_mask l mask) as [|x u]; cbn [length].
  - destruct (decide _); [reflexivity|congruence].
  - destruct (decide _); [discriminate|].
    destruct (Z.eqb_spec (0 + Z.of_nat (S (length u))) 0); [lia|].
    reflexivity.
Qed.

(** Two columns that agree under the mask have the same masked entries. *)
Lemma under_mask_ext (l l' : list F) (mask : list Z) :
  length l = length l' ->
  (forall i m, mask !! i = Some m -> m <> 0 -> l !! i = l' !! i) ->
  under_mask l mask = under_mask l' mask.
Proof.
  unfold under_mask. revert l' mask.
  induction l as [|x l IH]; intros [|x' l'] [|m mask] Hlen Hagree;
    try discriminate; try reflexivity.
  cbn [zip zip_with].
  assert (Htl : fst <$> filter (fun xm : F * Z => snd xm <> 0) (zip l mask) =
                fst <$> filter (fun xm : F * Z => snd xm <> 0) (zip l' mask)).
  { apply IH; [cbn in Hlen; lia|].
    intros i k Hi Hk. exact (Hagree (S i) k Hi Hk). }
  destruct (decide (m = 0)) as [->|Hm].
  - rewrite !filter_cons_False by (cbn; lia). exact Htl.
  - rewrite !filter_cons_True by (cbn; lia). cbn [fmap list_fmap fst].
    specialize (Hagree 0%nat m eq_refl Hm). cbn in Hagree.
    injection Hagree as ->. f_equal. exact Htl.
Qed.

Lemma under_mask_nonempty (l : list F) (mask : list Z) (i : nat) (m : Z) :
  length l = length mask -> mask !! i = Some m -> m <> 0 ->
  under_mask l mask <> [].
Proof.
  unfold under_mask. revert mask i.
  induction l as [|x l IH]; intros [|k mask] i Hlen Hi Hm;
    try discriminate.
  cbn [zip zip_with].
  destruct (decide (k = 0)) as [->|Hk].
  - rewrite filter_cons_False by (cbn; lia).
    destruct i as [|i]; [cbn in Hi; congruence|].
    eapply IH; eauto.
  - rewrite filter_cons_True by (cbn; lia). discriminate.
Qed.

Lemma under_mask_empty (l : list F) (mask : list Z) :
  Forall (fun m => m = 0) mask -> under_mask l mask = [].
Proof.
  unfold under_mask. intros Hall. revert l.
  induction Hall as [|m mask -> _ IH]; intros [|x l]; try reflexivity.
  cbn [zip zip_with]. rewrite filter_cons_False by (cbn; lia). apply IH.
Qed.

End Residuals.

Section Evaluation.

Context {F : Type} `{Numeric F}.

Local Open Scope num_scope.

(** ** The residual columns, entry by entry *)

Lemma photometric_zip (ref pixels : list Vec3b) :
  photometric ref pixels = zip_with saturated_color_error ref pixels.
Proof.
  unfold photometric, col_sqrt, reduce_sum, mat_pow2, convertTo_32F, mat_sub_8U.
  revert pixels.
  induction ref as [|c ref IH]; intros [|p pixels]; try reflexivity.
  cbn [zip_with map]. rewrite IH. f_equal.
  unfold saturated_color_error. destruct (vec3b_sub c p) as [[a0 a1] a2].
  reflexivity.
Qed.

Lemma regRes_zip (res resRight : list F) (noise : F) :
  col_div res
    (col_sqrt (col_add_scalar (col_pow2 (col_sub resRight res))
                 (f_of_Z 2 * noise))) =
  zip_with (fun a b => normalized a b noise) res resRight.
Proof.
  unfold col_div, col_sqrt, col_add_scalar, col_pow2, col_sub.
  revert resRight.
  induction res as [|a res IH]; intros [|b resRight]; try reflexivity.
  cbn [zip_with map]. rewrite IH. reflexivity.
Qed.

Lemma length_project (cf : CostFunctor F) (Rt : Mat33 F) (tt : list (Vec3 F))
    (depth : list F) :
  length (project cf Rt tt depth) =
  Nat.min (Nat.min (length depth)
             (length (mHighGradPtHomo2dCoord (pReferenceKF cf))))
    (length tt).
Proof.
  unfold project, convertTo_32S, mat_ediv2, colRange_0_2, repeat_cols2, col_2,
    mat_mul, mat_add, mat_emul, repeat_cols3.
  repeat (rewrite ?length_map, ?length_zip_with). apply Nat.min_id.
Qed.

Lemma length_valid_of (cf : CostFunctor F) (r t : Vec3 F) (N : nat) :
  wf_keyframe (pReferenceKF cf) N -> length (valid_of cf r t) = N.
Proof.
  intros (_ & Hh & Hd & Hu).
  unfold valid_of, proj2d_of, proj2dRight_of.
  rewrite valid_mask_zip, length_zip_with, !length_project.
  unfold repeat_rows, col_add.
  rewrite length_zip_with, length_replicate, Hh, Hd, Hu. lia.
Qed.

Lemma rhos_lookup (err : Vec3b -> Vec3b -> F) (cf : CostFunctor F)
    (r t : Vec3 F) (i : nat) (p q : Z * Z) :
  proj2d_of cf r t !! i = Some p -> proj2dRight_of cf r t !! i = Some q ->
  rhos err cf r t !! i =
  (fun c => rho err cf c p q) <$> mHighGradPtPixels (pReferenceKF cf) !! i.
Proof.
  intros Hp Hq. unfold rhos. rewrite lookup_zip_with.
  destruct (mHighGradPtPixels (pReferenceKF cf) !! i) as [c|];
    [|reflexivity].
  cbn [mbind option_bind].
  rewrite (lookup_zip_with pair (proj2d_of cf r t) (proj2dRight_of cf r t) i).
  rewrite Hp, Hq. reflexivity.
Qed.

(** The functor returns, and what it returns: the column [regRes] of
    normalized residuals with its invalid entries overwritten by its masked
    mean. *)
Lemma CostFunctor_operator_returns (cf : CostFunctor F) (T : scalar_type)
    (d : cv_depth) (junk junkRight : nat -> Vec3b) (r t : Vec3 F) :
  cv_type_of T = Some d ->
  exists regRes,
    CostFunctor_operator cf T junk junkRight r t =
      ReturnTrue
        (fill_invalid (valid_of cf r t) (cv_mean regRes (valid_of cf r t))
           regRes)
    /\ length regRes =
       Nat.min (length (mHighGradPtPixels (pReferenceKF cf)))
         (length (valid_of cf r t))
    /\ forall i m, valid_of cf r t !! i = Some m -> m <> 0 ->
         regRes !! i = rhos saturated_color_error cf r t !! i.
Proof.
  intros HT.
  destruct (extract_pixels_total (imColor cf) (proj2d_of cf r t)
              (proj2dRight_of cf r t)
              (alloc junk (length (valid_of cf r t)))
              (alloc junkRight (length (valid_of cf r t))))
    as (px & pxR & Hrun & Hlen & HlenR & Hval).
  rewrite length_alloc in Hlen, HlenR.
  exists (zip_with (fun a b => normalized a b (cameraPixelNoise2 cf))
            (zip_with saturated_color_error
               (mHighGradPtPixels (pReferenceKF cf)) px)
            (zip_with saturated_color_error
               (mHighGradPtPixels (pReferenceKF cf)) pxR)).
  split; [|split].
  - unfold CostFunctor_operator. rewrite HT. cbv zeta.
    unfold valid_of, proj2d_of, proj2dRight_of in *.
    rewrite Hrun, !photometric_zip, regRes_zip. reflexivity.
  - rewrite !length_zip_with, Hlen, HlenR. lia.
  - intros i m Hm Hnz.
    destruct (valid_mask_lookup _ _ _ _ _ Hm) as (p & q & Hp & Hq & ->).
    pose proof (lookup_lt_Some _ _ _ Hm) as Hi.
    destruct (Hval i p q Hp Hq Hnz) as [Hpx HpxR];
      [rewrite length_alloc; exact Hi .. |].
    rewrite (rhos_lookup _ _ _ _ _ _ _ Hp Hq), lookup_zip_with.
    rewrite !lookup_zip_with, Hpx, HpxR.
    destruct (mHighGradPtPixels (pReferenceKF cf) !! i) as [c|]; reflexivity.
Qed.

End Evaluation.

Section Claims.

Context {F : Type} `{Numeric F}.

Local Open Scope num_scope.

Lemma supported_type (T : scalar_type) :
  T <> T_other -> exists d, cv_type_of T = Some d.
Proof. destruct T; cbn; eauto; congruence. Qed.

Lemma length_rhos (err : Vec3b -> Vec3b -> F) (cf : CostFunctor F)
    (r t : Vec3 F) (N : nat) :
  wf_keyframe (pReferenceKF cf) N -> length (rhos err cf r t) = N.
Proof.
  intros Hwf. pose proof (length_valid_of cf r t N Hwf) as Hv.
  destruct Hwf as (Hc & _).
  unfold valid_of in Hv. rewrite valid_mask_zip, length_zip_with in Hv.
  unfold rhos. rewrite !length_zip_with. lia.
Qed.

(** Every entry of the emitted vector, for a keyframe of [N] points. *)
Lemma CostFunctor_operator_entries (cf : CostFunctor F) (T : scalar_type)
    (d : cv_depth) (junk junkRight : nat -> Vec3b) (r t : Vec3 F) (N : nat) :
  cv_type_of T = Some d -> wf_keyframe (pReferenceKF cf) N ->
  exists out,
    CostFunctor_operator cf T junk junkRight r t = ReturnTrue out
    /\ length out = N
    /\ forall i m, valid_of cf r t !! i = Some m ->
         out !! i =
         if m =? 0
         then Some (cv_mean (rhos saturated_color_error cf r t)
                      (valid_of cf r t))
         else rhos saturated_color_error cf r t !! i.
Proof.
  intros HT Hwf.
  destruct (CostFunctor_operator_returns cf T d junk junkRight r t HT)
    as (regRes & Hrun & Hlen & Hval).
  pose proof (length_valid_of cf r t N Hwf) as Hv.
  pose proof (length_rhos saturated_color_error cf r t N Hwf) as Hr.
  assert (HlenN : length regRes = N).
  { destruct Hwf as (Hc & _). lia. }
  assert (Hmean : cv_mean regRes (valid_of cf r t) =
                  cv_mean (rhos saturated_color_error cf r t) (valid_of cf r t)).
  { rewrite !cv_mean_spec.
    rewrite (under_mask_ext regRes (rhos saturated_color_error cf r t)
               (valid_of cf r t)); [reflexivity|lia|exact Hval]. }
  eexists. split; [exact Hrun|]. split.
  - rewrite length_fill_invalid. exact HlenN.
  - intros i m Hm. rewrite (fill_invalid_lookup _ _ _ i m) by (auto; lia).
    rewrite Hmean. destruct (Z.eqb_spec m 0); [reflexivity|].
    apply (Hval i m); assumption.
Qed.

(** ** The claims on the residual model *)

(** C2: under every candidate pose, the mask entry of point [i] is set if
    and only if its primary pixel [p] and its uncertainty-shifted pixel [q]
    both lie inside [[0, width) x [0, height)]. *)
Theorem valid_iff_both_pixels_in_image (cf : CostFunctor F) (r t : Vec3 F)
    (i : nat) (p q : Z * Z) :
  proj2d_of cf r t !! i = Some p ->
  proj2dRight_of cf r t !! i = Some q ->
  exists m, valid_of cf r t !! i = Some m
    /\ (m <> 0 <-> in_image (imColor cf) p /\ in_image (imColor cf) q).
Proof.
  intros Hp Hq. exists (both_in_image (imColor cf) p q). split.
  - unfold valid_of. rewrite valid_mask_zip, lookup_zip_with, Hp, Hq.
    reflexivity.
  - apply both_in_image_nonzero.
Qed.

(** C4: when some point is valid, the functor returns a vector of [N]
    entries in which every invalid point holds the arithmetic mean of the
    entries of the valid points, which are their normalized residuals. *)
Theorem invalid_points_hold_mean_of_valid (cf : CostFunctor F)
    (T : scalar_type) (junk junkRight : nat -> Vec3b) (r t : Vec3 F)
    (N : nat) :
  T <> T_other ->
  wf_keyframe (pReferenceKF cf) N ->
  Exists (fun m => m <> 0) (valid_of cf r t) ->
  exists out,
    CostFunctor_operator cf T junk junkRight r t = ReturnTrue out
    /\ length out = N
    /\ under_mask out (valid_of cf r t) =
       under_mask (rhos saturated_color_error cf r t) (valid_of cf r t)
    /\ forall i, valid_of cf r t !! i = Some 0 ->
         out !! i = Some (arithmetic_mean (under_mask out (valid_of cf r t))).
Proof.
  intros HT Hwf Hex.
  destruct (supported_type T HT) as [d Hd].
  destruct (CostFunctor_operator_entries cf T d junk junkRight r t N Hd Hwf)
    as (out & Hrun & Hlen & Hout).
  pose proof (length_valid_of cf r t N Hwf) as Hv.
  pose proof (length_rhos saturated_color_error cf r t N Hwf) as Hr.
  assert (Hsame : under_mask out (valid_of cf r t) =
                  under_mask (rhos saturated_color_error cf r t)
                    (valid_of cf r t)).
  { apply under_mask_ext; [lia|]. intros i m Hm Hnz.
    rewrite (Hout i m Hm). destruct (Z.eqb_spec m 0); [lia|reflexivity]. }
  exists out. repeat split; auto.
  intros i Hi. rewrite (Hout i 0 Hi). cbn [Z.eqb]. f_equal.
  rewrite cv_mean_spec, Hsame.
  apply Exists_exists in Hex as (m & Hin & Hnz).
  apply list_elem_of_lookup in Hin as [j Hj].
  destruct (decide _) as [Hnil|]; [|reflexivity].
  exfalso.
  apply (under_mask_nonempty (rhos saturated_color_error cf r t)
           (valid_of cf r t) j m); [lia|exact Hj|exact Hnz|exact Hnil].
Qed.

(** C7: the functor never reads outside the image or a matrix, whatever the
    pose, the keyframe and the buffers hold; at a point whose mask entry is
    clear the sampling loop reads nothing and leaves the buffers alone. *)
Theorem no_out_of_bounds_read (cf : CostFunctor F) (T : scalar_type)
    (junk junkRight : nat -> Vec3b) (r t : Vec3 F) :
  CostFunctor_operator cf T junk junkRight r t <> OutOfBounds
  /\ forall (P PR : list (Z * Z)) (valid : list Z)
       (bufs : list Vec3b * list Vec3b) (i : nat),
       valid !! i = Some 0 ->
       extract_step (imColor cf) P PR valid (Some bufs) i = Some bufs.
Proof.
  split.
  - destruct T.
    + destruct (CostFunctor_operator_returns cf T_double CV_64F junk junkRight
                  r t eq_refl) as (? & -> & _). discriminate.
    + destruct (CostFunctor_operator_returns cf T_float CV_32F junk junkRight
                  r t eq_refl) as (? & -> & _). discriminate.
    + discriminate.
  - intros P PR valid bufs i Hi. unfold extract_step.
    cbn [mbind option_bind]. rewrite Hi. reflexivity.
Qed.

(** C10: when no point is valid the functor still returns [true], and the
    vector it emits is zero in all its [N] entries. *)
Theorem all_invalid_returns_zero_vector (cf : CostFunctor F)
    (T : scalar_type) (junk junkRight : nat -> Vec3b) (r t : Vec3 F)
    (N : nat) :
  T <> T_other ->
  wf_keyframe (pReferenceKF cf) N ->
  Forall (fun m => m = 0) (valid_of cf r t) ->
  CostFunctor_operator cf T junk junkRight r t = ReturnTrue (replicate N f_zero).
Proof.
  intros HT Hwf Hall.
  destruct (supported_type T HT) as [d Hd].
  destruct (CostFunctor_operator_entries cf T d junk junkRight r t N Hd Hwf)
    as (out & Hrun & Hlen & Hout).
  pose proof (length_valid_of cf r t N Hwf) as Hv.
  rewrite Hrun. f_equal. apply list_eq. intros i.
  destruct (valid_of cf r t !! i) as [m|] eqn:Hm.
  - rewrite (Hout i m Hm).
    rewrite Forall_forall in Hall.
    assert (m = 0) as ->.
    { apply Hall. eapply list_elem_of_lookup_2; eauto. }
    cbn [Z.eqb]. rewrite cv_mean_spec, under_mask_empty.
    + destruct (decide _); [|congruence].
      symmetry. apply lookup_replicate_2. apply lookup_lt_Some in Hm. lia.
    + apply Forall_forall. exact Hall.
  - apply lookup_ge_None in Hm.
    rewrite (proj2 (lookup_ge_None out i)) by lia.
    symmetry. apply lookup_ge_None. rewrite length_replicate. lia.
Qed.

End Claims.

Section DriverClaims.

Context {F : Type} `{Numeric F}.
Context (TRACKING_NUM_PT : Z) (TRACKING_HUBER_DELTA : F).
Context (Solve : (Vec3 F -> Vec3 F -> eval_result F) -> F -> F ->
                 Vec3 F -> Vec3 F -> Vec3 F * Vec3 F * F).

Local Open Scope num_scope.

(** C6: with a scalar type other than [float] and [double] the functor
    returns [false] and the residual block keeps its contents; with [double]
    and with [float] it returns [true] with a residual vector. *)
Theorem unsupported_type_returns_false (m : Memory F) (noise : F)
    (cf : CostFunctor F) (junk junkRight : nat -> Vec3b) (r t : Vec3 F) :
  CostFunctor_operator cf T_other junk junkRight r t = ReturnFalse
  /\ CostFunctor_invoke m noise T_other junk junkRight r t = Some (false, m)
  /\ (exists out,
        CostFunctor_operator cf T_double junk junkRight r t = ReturnTrue out)
  /\ (exists out,
        CostFunctor_operator cf T_float junk junkRight r t = ReturnTrue out).
Proof.
  repeat split.
  - destruct (CostFunctor_operator_returns cf T_double CV_64F junk junkRight
                r t eq_refl) as (regRes & Hrun & _). eauto.
  - destruct (CostFunctor_operator_returns cf T_float CV_32F junk junkRight
                r t eq_refl) as (regRes & Hrun & _). eauto.
Qed.

(** C5: the pose written to [Tcw] is the homogeneous transform of the
    solved rotation and translation, times the pose of the keyframe. *)
Theorem Tcw_is_relative_transform_times_keyframe_pose (m : Memory F)
    (cameraPixelNoise2 max_seconds : F) (rotAngle transDist validRatio : bool)
    (junk junkRight : nat -> Vec3b) :
  let cost_function :=
    CostFunctor_operator
      (mkCostFunctor (mem_imColor m) (mem_pRefKF m) (mem_K m) (mem_invK m)
         cameraPixelNoise2) T_double junk junkRight in
  let solved :=
    Solve cost_function TRACKING_HUBER_DELTA max_seconds
      (f_of_Z 0, f_of_Z 0, f_of_Z 0) (f_of_Z 0, f_of_Z 0, f_of_Z 0) in
  mem_Tcw
    (snd (EstimateCameraPose TRACKING_NUM_PT TRACKING_HUBER_DELTA Solve m
            cameraPixelNoise2 max_seconds rotAngle transDist validRatio
            junk junkRight)) =
  mat44_mul (rigid_transform (Rodrigues (fst (fst solved))) (snd (fst solved)))
    (GetPose (mem_pRefKF m)).
Proof.
  cbv zeta. unfold EstimateCameraPose.
  destruct (Solve _ _ _ _ _) as [[rel_r [[tx ty] tz]] final_cost].
  cbn [fst snd].
  destruct (Rodrigues rel_r) as [[[[a b] c] [[d e] f]] [[g h] i]].
  destruct rotAngle, transDist, validRatio; reflexivity.
Qed.

End DriverClaims.

(** ** The calls in memory *)

Section WeakestPreconditions.

Context {F : Type} `{Numeric F}.

Implicit Types (h g hb L : Heap F) (c : Cell F).

Lemma wp_ret {A : Type} (a : A) (Q : A -> Heap F -> Prop) h :
  Q a h -> wp (mret a) Q h.
Proof. trivial. Qed.

Lemma wp_bind {A B : Type} (m : M F A) (k : A -> M F B) (Q : B -> Heap F -> Prop) h :
  wp m (fun a h' => wp (k a) Q h') h -> wp (m ≫= k) Q h.
Proof.
  unfold wp, mbind, M_bind. destruct (m h) as [[a h']|]; trivial.
Qed.

Lemma wp_mono {A : Type} (m : M F A) (Q Q' : A -> Heap F -> Prop) h :
  (forall a h', Q a h' -> Q' a h') -> wp m Q h -> wp m Q' h.
Proof.
  unfold wp. intros HQ. destruct (m h) as [[a h']|]; auto.
Qed.

Lemma wp_lift {A : Type} (o : option A) (a : A) (Q : A -> Heap F -> Prop) h :
  o = Some a -> Q a h -> wp (lift o) Q h.
Proof. intros ->. trivial. Qed.

Lemma wp_load (a : nat) c (Q : Cell F -> Heap F -> Prop) h :
  h !! a = Some c -> Q c h -> wp (load a) Q h.
Proof. unfold wp, load. intros ->. trivial. Qed.

Lemma wp_load_as {A : Type} (as_ : Cell F -> option A) (a : nat) c (x : A)
    (Q : A -> Heap F -> Prop) h :
  h !! a = Some c -> as_ c = Some x -> Q x h -> wp (load_as as_ a) Q h.
Proof.
  intros Hc Hx HQ. unfold load_as. apply wp_bind.
  eapply wp_load; [exact Hc|]. eapply wp_lift; [exact Hx|exact HQ].
Qed.

Lemma wp_allocate c (Q : nat -> Heap F -> Prop) h :
  Q (length h) (h ++ [c]) -> wp (allocate c) Q h.
Proof. trivial. Qed.

Lemma wp_store (a : nat) c (Q : unit -> Heap F -> Prop) h :
  (a < length h)%nat -> Q tt (<[a := c]> h) -> wp (store a c) Q h.
Proof.
  intros Ha HQ. unfold wp, store. rewrite decide_True by exact Ha. exact HQ.
Qed.

Lemma wp_Mat_rows {A : Type} (a : nat) c (l : list A) (cs : Z) (ty : mat_type)
    (Q : nat -> Heap F -> Prop) h :
  h !! a = Some c -> shape_of c = Some (rows_of l, cs, ty) ->
  Q (length l) h -> wp (Mat_rows a) Q h.
Proof.
  intros Hc Hs HQ. unfold Mat_rows. apply wp_bind.
  eapply wp_load; [exact Hc|]. apply wp_bind.
  eapply wp_lift; [exact Hs|]. apply wp_ret. cbn [fst].
  unfold rows_of. rewrite Nat2Z.id. exact HQ.
Qed.

Lemma as_33_rows33 (d : cv_depth) (M : Mat33 F) :
  as_33 d (Buf_3 d (rows33 M)) = Some M.
Proof.
  destruct M as [[r0 r1] r2]. unfold as_33, as_3.
  rewrite decide_True by reflexivity. reflexivity.
Qed.

(** The memory as the cells before the call and the cells allocated since. *)
Lemma lookup_local (n : nat) hb L (j : nat) :
  length hb = n -> (hb ++ L) !! (n + j)%nat = L !! j.
Proof.
  intros <-. rewrite lookup_app_r by lia. f_equal. lia.
Qed.

Lemma insert_local (n : nat) hb L (j : nat) c :
  length hb = n -> <[(n + j)%nat := c]> (hb ++ L) = hb ++ <[j := c]> L.
Proof.
  intros <-. rewrite insert_app_r_alt by lia. do 2 f_equal. lia.
Qed.

Lemma wp_allocate_app (n : nat) hb L c (k : nat) L'
    (Q : nat -> Heap F -> Prop) :
  length hb = n -> length L = k -> L ++ [c] = L' ->
  Q (n + k)%nat (hb ++ L') -> wp (allocate c) Q (hb ++ L).
Proof.
  intros <- <- <- HQ. apply wp_allocate.
  rewrite length_app, <- (assoc_L (++)). exact HQ.
Qed.

Lemma wp_store_local (n : nat) hb L (j : nat) c L'
    (Q : unit -> Heap F -> Prop) :
  length hb = n -> (j < length L)%nat -> <[j := c]> L = L' ->
  Q tt (hb ++ L') -> wp (store (n + j) c) Q (hb ++ L).
Proof.
  intros Hn Hj <- HQ. apply wp_store.
  - rewrite length_app. lia.
  - rewrite insert_local by exact Hn. exact HQ.
Qed.

Lemma wp_store_base hb L (a : nat) c (Q : unit -> Heap F -> Prop) :
  (a < length hb)%nat ->
  Q tt (<[a := c]> hb ++ L) -> wp (store a c) Q (hb ++ L).
Proof.
  intros Ha HQ. apply wp_store.
  - rewrite length_app. lia.
  - rewrite insert_app_l by exact Ha. exact HQ.
Qed.

Lemma wp_app_nil {A : Type} (m : M F A) (Q : A -> Heap F -> Prop) h :
  wp m Q (h ++ []) -> wp m Q h.
Proof. rewrite app_nil_r. trivial. Qed.

Lemma wp_cv_bitwise_and_self (a : nat) (v x : list Z)
    (Q : nat -> Heap F -> Prop) h :
  h !! a = Some (Buf_8U1 v) ->
  wp (store a (Buf_8U1 (band v x))) (fun _ => Q a) h ->
  wp (cv_bitwise_and a x a a) Q h.
Proof.
  intros Ha HQ. unfold cv_bitwise_and.
  apply wp_bind. eapply wp_load_as; [exact Ha|reflexivity|].
  apply wp_bind. eapply wp_load_as; [exact Ha|reflexivity|].
  apply wp_bind. eapply wp_load; [exact Ha|]. cbn beta iota zeta.
  rewrite decide_True by reflexivity.
  unfold create_write. apply wp_bind. eapply wp_load; [exact Ha|].
  cbn beta iota zeta. rewrite decide_True by reflexivity.
  apply wp_bind. eapply wp_mono; [|exact HQ].
  intros [] h' HQ'. apply wp_ret. exact HQ'.
Qed.

Lemma wp_elim {A : Type} (m : M F A) (Q : A -> Heap F -> Prop) h :
  wp m Q h -> exists a h', m h = Some (a, h') /\ Q a h'.
Proof.
  unfold wp. destruct (m h) as [[a h']|]; [eauto|contradiction].
Qed.

(** *** Frames *)

Lemma frame_refl (W : nat -> Prop) h : frame W h h.
Proof. split; [lia|trivial]. Qed.

Lemma frame_trans (W1 W2 W : nat -> Prop) h1 h2 h3 :
  frame W1 h1 h2 -> frame W2 h2 h3 ->
  (forall a, (a < length h1)%nat -> W1 a -> W a) ->
  (forall a, (a < length h1)%nat -> W2 a -> W a) ->
  frame W h1 h3.
Proof.
  intros [Hl1 H1] [Hl2 H2] HW1 HW2. split; [lia|].
  intros a Ha HW. rewrite H2, H1; auto. lia.
Qed.

Lemma frame_app (W : nat -> Prop) h L : frame W h (h ++ L).
Proof.
  split; [rewrite length_app; lia|].
  intros a Ha _. apply lookup_app_l. exact Ha.
Qed.

Lemma frame_insert (W : nat -> Prop) h (a : nat) c :
  W a -> frame W h (<[a := c]> h).
Proof.
  intros Ha. split; [rewrite length_insert; lia|].
  intros x Hx HW. apply list_lookup_insert_ne. intros ->. auto.
Qed.

Lemma frame_lookup (W : nat -> Prop) h h' (a : nat) c :
  frame W h h' -> h !! a = Some c -> ~ W a -> h' !! a = Some c.
Proof.
  intros [_ Hf] Ha HW. rewrite Hf; [exact Ha| |exact HW].
  eapply lookup_lt_Some. exact Ha.
Qed.

(** [create_write] on any destination: the cells it leaves alone are those
    at another address, and those of another shape wherever they are. *)
Lemma wp_create_write_any (dst : option nat) (s : Shape) c
    (Q : nat -> Heap F -> Prop) h :
  (forall a, dst = Some a -> (a < length h)%nat) ->
  (forall a h',
     dst = Some a \/ a = length h ->
     h' !! a = Some c ->
     frame (fun x => dst = Some x) h h' ->
     (forall x c0, h !! x = Some c0 -> shape_of c0 <> Some s ->
                   h' !! x = Some c0) ->
     Q a h') ->
  wp (create_write dst s c) Q h.
Proof.
  intros Hdst HQ. destruct dst as [a|]; cbn [create_write].
  - destruct (lookup_lt_is_Some_2 h a (Hdst a eq_refl)) as [c0 Hc0].
    apply wp_bind. eapply wp_load; [exact Hc0|].
    destruct (decide (shape_of c0 = Some s)) as [e|e].
    + apply wp_bind. apply wp_store; [eauto|]. apply wp_ret. apply HQ.
      * left. reflexivity.
      * apply list_lookup_insert_eq. eauto.
      * apply frame_insert. reflexivity.
      * intros x c1 Hx Hs. rewrite list_lookup_insert_ne; [exact Hx|].
        intros ->. rewrite Hc0 in Hx. injection Hx as <-. contradiction.
    + apply wp_allocate. apply HQ.
      * right. reflexivity.
      * rewrite lookup_app_r by lia. rewrite Nat.sub_diag. reflexivity.
      * apply frame_app.
      * intros x c1 Hx _. apply lookup_app_l_Some. exact Hx.
  - apply wp_allocate. apply HQ.
    + right. reflexivity.
    + rewrite lookup_app_r by lia. rewrite Nat.sub_diag. reflexivity.
    + apply frame_app.
    + intros x c1 Hx _. apply lookup_app_l_Some. exact Hx.
Qed.

(** The two loops of the functor do in memory what their folds do on
    values. *)
Lemma foldl_extract_step_None (im : Image) (P PR : list (Z * Z))
    (v : list Z) (l : list nat) :
  foldl (extract_step im P PR v) None l = None.
Proof. induction l as [|i l IH]; [reflexivity|exact IH]. Qed.

Lemma wp_sample_loop (imC p2 p2R va px pxR : nat) (im : Image)
    (P PR : list (Z * Z)) (v : list Z) (l : list nat) :
  px <> pxR -> px <> imC -> px <> p2 -> px <> p2R -> px <> va ->
  pxR <> imC -> pxR <> p2 -> pxR <> p2R -> pxR <> va ->
  forall g (A B A' B' : list Vec3b) (Q : unit -> Heap F -> Prop),
  g !! imC = Some (Buf_image im) ->
  g !! p2 = Some (Buf_32S2 P) ->
  g !! p2R = Some (Buf_32S2 PR) ->
  g !! va = Some (Buf_8U1 v) ->
  g !! px = Some (Buf_8U3 A) ->
  g !! pxR = Some (Buf_8U3 B) ->
  (forall i, i ∈ l -> (i < length A)%nat /\ (i < length B)%nat) ->
  foldl (extract_step im P PR v) (Some (A, B)) l = Some (A', B') ->
  Q tt (<[pxR := Buf_8U3 B']> (<[px := Buf_8U3 A']> g)) ->
  wp (for_each l (sample_row imC p2 p2R va px pxR)) Q g.
Proof.
  intros N1 N2 N3 N4 N5 N6 N7 N8 N9.
  induction l as [|i l IH]; intros g A B A' B' Q Him Hp2 Hp2R Hva Hpx HpxR
    Hlen Hfold HQ.
  - cbn in Hfold. injection Hfold as <- <-.
    rewrite (list_insert_id g px) in HQ by exact Hpx.
    rewrite (list_insert_id g pxR) in HQ by exact HpxR.
    apply wp_ret. exact HQ.
  - cbn [foldl] in Hfold.
    destruct (extract_step im P PR v (Some (A, B)) i) as [[A1 B1]|] eqn:Hstep;
      [|rewrite foldl_extract_step_None in Hfold; discriminate].
    destruct (Hlen i) as [HiA HiB]; [left|].
    assert (Hlen' : forall j, j ∈ l ->
              (j < length A)%nat /\ (j < length B)%nat)
      by (intros j Hj; apply Hlen; right; exact Hj).
    unfold extract_step in Hstep. cbn [mbind option_bind] in Hstep.
    destruct (v !! i) as [m|] eqn:Hm; [|discriminate].
    cbn [mbind option_bind] in Hstep.
    cbn [for_each]. apply wp_bind. unfold sample_row.
    apply wp_bind. unfold at_uchar. apply wp_bind.
    eapply wp_load_as; [exact Hva|reflexivity|].
    eapply wp_lift; [exact Hm|].
    destruct (m =? 0)%Z.
    + injection Hstep as <- <-. apply wp_ret. eapply IH; eassumption.
    + destruct (P !! i) as [p|] eqn:Hp; [|discriminate].
      cbn [mbind option_bind] in Hstep.
      destruct (Image_at im (snd p) (fst p)) as [pixel|] eqn:Hpixel;
        [|discriminate].
      cbn [mbind option_bind] in Hstep.
      destruct (PR !! i) as [q|] eqn:Hq; [|discriminate].
      cbn [mbind option_bind] in Hstep.
      destruct (Image_at im (snd q) (fst q)) as [pixelR|] eqn:HpixelR;
        [|discriminate].
      cbn [mbind option_bind fst snd] in Hstep. injection Hstep as <- <-.
      apply wp_bind. unfold at_int2. apply wp_bind.
      eapply wp_load_as; [exact Hp2|reflexivity|].
      eapply wp_lift; [exact Hp|].
      apply wp_bind. unfold at_Vec3b. apply wp_bind.
      eapply wp_load_as; [exact Him|reflexivity|].
      eapply wp_lift; [exact Hpixel|].
      apply wp_bind. unfold set_uchar3. apply wp_bind.
      eapply wp_load_as; [exact Hpx|reflexivity|].
      rewrite decide_True by exact HiA.
      apply wp_store; [eapply lookup_lt_Some; exact Hpx|].
      apply wp_bind. apply wp_bind.
      eapply wp_load_as;
        [rewrite list_lookup_insert_ne by exact N4; exact Hp2R|reflexivity|].
      eapply wp_lift; [exact Hq|].
      apply wp_bind. apply wp_bind.
      eapply wp_load_as;
        [rewrite list_lookup_insert_ne by exact N2; exact Him|reflexivity|].
      eapply wp_lift; [exact HpixelR|].
      apply wp_bind.
      eapply wp_load_as;
        [rewrite list_lookup_insert_ne by exact N1; exact HpxR|reflexivity|].
      rewrite decide_True by exact HiB.
      apply wp_store;
        [rewrite length_insert; eapply lookup_lt_Some; exact HpxR|].
      eapply (IH _ (<[i := pixel]> A) (<[i := pixelR]> B) A' B').
      * rewrite list_lookup_insert_ne by auto.
        rewrite list_lookup_insert_ne by auto. exact Him.
      * rewrite list_lookup_insert_ne by auto.
        rewrite list_lookup_insert_ne by auto. exact Hp2.
      * rewrite list_lookup_insert_ne by auto.
        rewrite list_lookup_insert_ne by auto. exact Hp2R.
      * rewrite list_lookup_insert_ne by auto.
        rewrite list_lookup_insert_ne by auto. exact Hva.
      * rewrite list_lookup_insert_ne by auto.
        apply list_lookup_insert_eq. eapply lookup_lt_Some; exact Hpx.
      * apply list_lookup_insert_eq. rewrite length_insert.
        eapply lookup_lt_Some; exact HpxR.
      * intros j Hj. rewrite !length_insert. apply Hlen'; exact Hj.
      * exact Hfold.
      * rewrite (list_insert_insert_ne _ px pxR) by exact N1.
        rewrite !list_insert_insert_eq. exact HQ.
Qed.

Lemma wp_fill_loop (va rr : nat) (v : list Z) (meanRes : F) (l : list nat) :
  va <> rr ->
  forall g (x : list F) (Q : unit -> Heap F -> Prop),
  g !! va = Some (Buf_8U1 v) ->
  g !! rr = Some (Buf_1 CV_32F x) ->
  (forall i, i ∈ l -> (i < length v)%nat /\ (i < length x)%nat) ->
  Q tt (<[rr := Buf_1 CV_32F (foldl (fill_step v meanRes) x l)]> g) ->
  wp (for_each l (fill_row va rr meanRes)) Q g.
Proof.
  intros N1. induction l as [|i l IH]; intros g x Q Hva Hrr Hlen HQ.
  - cbn [foldl] in HQ. rewrite list_insert_id in HQ by exact Hrr.
    apply wp_ret. exact HQ.
  - destruct (Hlen i) as [Hiv Hix]; [left|].
    assert (Hlen' : forall j, j ∈ l ->
              (j < length v)%nat /\ (j < length x)%nat)
      by (intros j Hj; apply Hlen; right; exact Hj).
    destruct (lookup_lt_is_Some_2 v i Hiv) as [m Hm].
    cbn [foldl] in HQ. unfold fill_step at 2 in HQ. rewrite Hm in HQ.
    cbn [for_each]. apply wp_bind. unfold fill_row.
    apply wp_bind. unfold at_uchar. apply wp_bind.
    eapply wp_load_as; [exact Hva|reflexivity|].
    eapply wp_lift; [exact Hm|].
    destruct (m =? 0)%Z.
    + unfold set_float. apply wp_bind.
      eapply wp_load_as; [exact Hrr|reflexivity|].
      rewrite decide_True by exact Hix.
      apply wp_store; [eapply lookup_lt_Some; exact Hrr|].
      eapply (IH _ (<[i := meanRes]> x)).
      * rewrite list_lookup_insert_ne by auto. exact Hva.
      * apply list_lookup_insert_eq. eapply lookup_lt_Some; exact Hrr.
      * intros j Hj. rewrite length_insert. apply Hlen'; exact Hj.
      * rewrite list_insert_insert_eq. exact HQ.
    + apply wp_ret. eapply IH; eassumption.
Qed.

End WeakestPreconditions.

(** Symbolic execution of a call on a memory [hb ++ L]: [hb] is the memory
    before the call, up to the cells the call has overwritten, and [L] are
    the cells allocated since. *)
Ltac solve_len := first [reflexivity | rewrite ?length_insert; reflexivity].

Ltac solve_lookup :=
  first [ rewrite lookup_local by solve_len; reflexivity
        | apply lookup_app_l_Some; eassumption
        | eassumption ].

Ltac solve_as := first [apply as_33_rows33 | reflexivity].

Ltac refute_eq e :=
  solve [ exfalso; cbn [shape_of fst snd] in e;
          first [ discriminate e | congruence
                | injection e; intros; lia | lia ] ].

Ltac prove_eq e :=
  solve [ exfalso; apply e; cbn [shape_of fst snd length];
          first [ reflexivity | lia ] ].

Ltac wp_decide :=
  lazymatch goal with
  | |- wp (if decide ?P then _ else _) _ _ =>
      let e := fresh "e" in
      first [ destruct (decide P) as [e|e]; [refute_eq e|]; clear e
            | destruct (decide P) as [e|e]; [|prove_eq e]; clear e ]
  end.

Ltac wp_step :=
  lazymatch goal with
  | |- wp (mret _) _ _ => apply wp_ret
  | |- wp (mbind _ _) _ _ => apply wp_bind
  | |- wp (load_as _ _) _ _ => eapply wp_load_as; [solve_lookup|solve_as|]
  | |- wp (load _) _ _ => eapply wp_load; [solve_lookup|]
  | |- wp (lift _) _ _ => eapply wp_lift; [solve_as|]
  | |- wp (allocate ?c) _ (?hb ++ ?L) =>
      let k := eval cbn [length] in (length L) in
      let L' := eval cbn [app] in (L ++ [c]) in
      eapply (wp_allocate_app _ hb L c k L');
        [solve_len|reflexivity|reflexivity|]
  | |- wp (store (length _ + ?j)%nat ?c) _ (?hb ++ ?L) =>
      let L' := eval cbv [insert list_insert] in (<[j := c]> L) in
      eapply (wp_store_local _ hb L j c L');
        [solve_len|cbn [length]; lia|reflexivity|]
  | |- wp (Mat_rows _) _ _ => eapply wp_Mat_rows; [solve_lookup|reflexivity|]
  | |- wp (cv_bitwise_and ?a _ ?a ?a) _ _ =>
      eapply wp_cv_bitwise_and_self; [solve_lookup|]
  | |- wp (if decide _ then _ else _) _ _ => wp_decide
  | |- wp (create_write (Some _) _ _) _ _ => unfold create_write at 1
  | |- wp (create_write None _ _) _ _ => unfold create_write at 1
  | |- wp (CostFunctor_new _ _ _ _ _) _ _ => unfold CostFunctor_new at 1
  | |- wp (KeyFrame_GetPose _) _ _ => unfold KeyFrame_GetPose at 1
  | |- wp (copyTo_rowRange_colRange _ _) _ _ =>
      unfold copyTo_rowRange_colRange at 1
  | |- wp (cv_Rodrigues _ _ _) _ _ => unfold cv_Rodrigues at 1
  | |- wp (Mat_t _ _) _ _ => unfold Mat_t at 1
  | |- wp (Mat_convertTo _ _ _) _ _ => unfold Mat_convertTo at 1
  | |- wp (Mat_copyTo _ _) _ _ => unfold Mat_copyTo at 1
  | |- wp (cv_repeat _ _) _ _ => unfold cv_repeat at 1
  | |- wp (cv_pow2 _ _) _ _ => unfold cv_pow2 at 1
  | |- wp (cv_reduce_sum _ _) _ _ => unfold cv_reduce_sum at 1
  | |- wp (cv_sqrt _ _) _ _ => unfold cv_sqrt at 1
  | |- wp (projection_expr _ _ _ _ _ _) _ _ => unfold projection_expr at 1
  | |- wp (perspective_expr _) _ _ => unfold perspective_expr at 1
  | |- wp (photometric_in_memory _ _) _ _ =>
      unfold photometric_in_memory at 1
  | |- wp (set_float44 _ _ _ _) _ _ => unfold set_float44 at 1
  | |- wp (store_float _ _) _ _ => unfold store_float at 1
  end; cbv beta iota zeta.

Ltac fold_projections cf rv tv :=
  let e := eval cbv beta zeta delta [proj2d_of project] in
             (proj2d_of cf rv tv) in
  change e with (proj2d_of cf rv tv);
  let e := eval cbv beta zeta delta [proj2dRight_of project] in
             (proj2dRight_of cf rv tv) in
  change e with (proj2dRight_of cf rv tv);
  rewrite <- ?(valid_mask_unfold (imColor cf) (proj2d_of cf rv tv)
                 (proj2dRight_of cf rv tv));
  change (valid_mask (imColor cf) (proj2d_of cf rv tv)
            (proj2dRight_of cf rv tv))
    with (valid_of cf rv tv).

Ltac norm_inserts :=
  rewrite ?(insert_local (length _)) by solve_len;
  repeat
    match goal with
    | |- context [ <[?j := ?c]> (?x :: ?L) ] =>
        let L' := eval cbv [insert list_insert] in (<[j := c]> (x :: L)) in
        change (<[j := c]> (x :: L)) with L'
    end.

Section FunctorInMemory.

Context {F : Type} `{Numeric F}.

Local Open Scope num_scope.

Lemma CostFunctor_call_runs (h : Heap F) (o : CostFunctor_object F)
    (cf : CostFunctor F) (T : scalar_type) (type : cv_depth)
    (junkRt : Mat33 F) (junk junkRight : nat -> Vec3b) (r t residual : nat)
    (rv tv : Vec3 F) (w : list F) (N : nat) :
  cv_type_of T = Some type ->
  functor_in_memory h o cf ->
  wf_keyframe (pReferenceKF cf) N ->
  h !! r = Some (Buf_3 type [rv]) ->
  h !! t = Some (Buf_3 type [tv]) ->
  h !! residual = Some (Buf_1 type w) ->
  (N <= length w)%nat ->
  exists out,
    CostFunctor_operator cf T junk junkRight rv tv = ReturnTrue out
    /\ length out = N
    /\ wp (CostFunctor_call o T junkRt junk junkRight r t residual)
         (fun b h' =>
            b = true
            /\ exists L,
                 h' = <[residual := Buf_1 type (memcpy w out (length out))]> h
                      ++ L)
         h.
Proof.
  intros HT (Him & (kfo & Hkf & Hpix & Hhomo & Hdepth & Hunc) & HKt & HinvKt
             & Hnoise) Hwf Hr Ht Hres HN.
  destruct o as [imC kfp KtA invKtA noise].
  cbn [imColor_data pReferenceKF_ptr Kt_data invKt_data
       cameraPixelNoise2_val] in *.
  subst noise.
  destruct (CostFunctor_operator_returns cf T type junk junkRight rv tv HT)
    as (regRes0 & Hrun & Hlen0 & _).
  pose proof (length_valid_of cf rv tv N Hwf) as HlenV.
  exists (fill_invalid (valid_of cf rv tv)
            (cv_mean regRes0 (valid_of cf rv tv)) regRes0).
  split; [exact Hrun|]. split.
  { rewrite length_fill_invalid, Hlen0, HlenV.
    destruct Hwf as (-> & _). apply Nat.min_id. }
  pose proof Hrun as Hout. unfold CostFunctor_operator in Hout.
  rewrite HT in Hout.
  change (project cf (mat_t (Rodrigues rv))
            (repeat_rows tv (length (mHighGradPtDepth (pReferenceKF cf))))
            (mHighGradPtDepth (pReferenceKF cf)))
    with (proj2d_of cf rv tv) in Hout.
  change (project cf (mat_t (Rodrigues rv))
            (repeat_rows tv (length (mHighGradPtDepth (pReferenceKF cf))))
            (col_add (mHighGradPtDepth (pReferenceKF cf))
               (mHighGradPtSqrtUncertainty (pReferenceKF cf))))
    with (proj2dRight_of cf rv tv) in Hout.
  change (valid_mask (imColor cf) (proj2d_of cf rv tv)
            (proj2dRight_of cf rv tv))
    with (valid_of cf rv tv) in Hout. cbv zeta in Hout.
  destruct (extract_pixels_total (imColor cf) (proj2d_of cf rv tv)
              (proj2dRight_of cf rv tv)
              (alloc junk (length (valid_of cf rv tv)))
              (alloc junkRight (length (valid_of cf rv tv))))
    as (px & pxR & Hex & Hlpx & HlpxR & _).
  change (valid_mask (imColor cf) (proj2d_of cf rv tv)
            (proj2dRight_of cf rv tv))
    with (valid_of cf rv tv) in Hex.
  rewrite Hex in Hout. injection Hout as Hout.
  pose proof (lookup_lt_Some _ _ _ Him) as Bim.
  pose proof (lookup_lt_Some _ _ _ Hkf) as Bkf.
  pose proof (lookup_lt_Some _ _ _ Hres) as Bres.
  assert (HlenE :
    length
      (col_div (photometric (mHighGradPtPixels (pReferenceKF cf)) px)
         (col_sqrt
            (col_add_scalar
               (col_pow2
                  (col_sub
                     (photometric (mHighGradPtPixels (pReferenceKF cf)) pxR)
                     (photometric (mHighGradPtPixels (pReferenceKF cf)) px)))
               (f_of_Z 2 * cameraPixelNoise2 cf)))) = N).
  { apply (f_equal length) in Hout. unfold convertTo in Hout.
    rewrite !length_fill_invalid in Hout. rewrite Hout, Hlen0, HlenV.
    destruct Hwf as (-> & _). apply Nat.min_id. }
  unfold photometric in HlenE.
  apply wp_app_nil.
  unfold CostFunctor_call. rewrite HT.
  cbn [imColor_data pReferenceKF_ptr Kt_data invKt_data
       cameraPixelNoise2_val].
  destruct type.
  all: repeat wp_step; fold_projections cf rv tv.
  all: eapply (wp_sample_loop _ _ _ _ _ _ (imColor cf) (proj2d_of cf rv tv)
                 (proj2dRight_of cf rv tv) (valid_of cf rv tv));
    [lia..| | | | | | | | |];
    [solve_lookup..| | |];
    [intros i Hi; apply elem_of_seq in Hi; rewrite !length_alloc; lia
    |exact Hex|].
  all: norm_inserts; cbv beta; repeat wp_step.
  all: eapply (wp_fill_loop _ _ (valid_of cf rv tv));
    [lia|solve_lookup|solve_lookup
    |intros i Hi; apply elem_of_seq in Hi; rewrite HlenE; lia|].
  all: norm_inserts; cbv beta; repeat wp_step.
  all: unfold memcpy_to; repeat wp_step.
  all: rewrite decide_True
      by (change (foldl (fill_step ?v ?m) ?x (seq 0 (length ?v)))
            with (fill_invalid v m x);
          rewrite length_fill_invalid, HlenE; exact HN).
  all: eapply wp_store_base; [exact Bres|].
  all: repeat wp_step.
  all: split; [reflexivity|]; eexists; rewrite <- Hout; reflexivity.
Qed.

End FunctorInMemory.

Section DriverInMemory.

Context {F : Type} `{Numeric F}.

Local Open Scope num_scope.

Lemma functor_in_memory_app (g L : Heap F) (o : CostFunctor_object F)
    (cf : CostFunctor F) :
  functor_in_memory g o cf -> functor_in_memory (g ++ L) o cf.
Proof.
  intros (Him & (kfo & Hkf & Hpix & Hhomo & Hdepth & Hunc) & HKt & HinvKt
          & Hnoise).
  repeat first [split | exists kfo | apply lookup_app_l_Some]; assumption.
Qed.

Lemma keyframe_arrays_in_memory_app (g L : Heap F) (o : KeyFrame_object)
    (kf : KeyFrame F) :
  keyframe_arrays_in_memory g o kf -> keyframe_arrays_in_memory (g ++ L) o kf.
Proof.
  intros (Hpix & Hhomo & Hdepth & Hunc).
  repeat first [split | apply lookup_app_l_Some]; assumption.
Qed.

(** What the constructor builds is the functor of the first model. *)
Lemma functor_in_memory_new (g : Heap F) (a_im a_kf a_Kt a_invKt : nat)
    (o : KeyFrame_object) (im : Image) (kf : KeyFrame F) (Kv invKv : Mat33 F)
    (noise : F) :
  g !! a_im = Some (Buf_image im) ->
  g !! a_kf = Some (Obj_KeyFrame o) ->
  keyframe_arrays_in_memory g o kf ->
  g !! a_Kt = Some (Buf_3 CV_32F (rows33 (mat_t Kv))) ->
  g !! a_invKt = Some (Buf_3 CV_32F (rows33 (mat_t invKv))) ->
  functor_in_memory g
    {| imColor_data := a_im; pReferenceKF_ptr := a_kf; Kt_data := a_Kt;
       invKt_data := a_invKt; cameraPixelNoise2_val := noise |}
    (mkCostFunctor im kf Kv invKv noise).
Proof.
  intros Him Hkf Harr HKt HinvKt. unfold functor_in_memory.
  cbn [imColor_data pReferenceKF_ptr Kt_data invKt_data
       cameraPixelNoise2_val mkCostFunctor imColor pReferenceKF Kt invKt
       cameraPixelNoise2].
  split; [exact Him|]. split; [exists o; split; assumption|].
  split; [exact HKt|]. split; [exact HinvKt|reflexivity].
Qed.

(** However the optimizer plays, it runs to its end, and the memory after
    it is the memory before it with the two parameter blocks rewritten and
    new cells behind; what it ends with is what it ends with on the
    values of the first model. *)
Lemma wp_run_Solver (o : CostFunctor_object F) (cf : CostFunctor F)
    (N n : nat) (junkRt : Mat33 F) (junk junkRight : nat -> Vec3b)
    (junkResidual : nat -> F) (relRot relTrans : nat) (s : Solver F) :
  wf_keyframe (pReferenceKF cf) N -> (N <= n)%nat ->
  forall (g : Heap F) (Q : F -> Heap F -> Prop),
  functor_in_memory g o cf ->
  (relRot < length g)%nat -> (relTrans < length g)%nat ->
  (forall L,
     let res :=
       Solver_result s
         (cost_as_seen (CostFunctor_operator cf T_double junk junkRight)
            (map junkResidual (seq 0 n))) in
     Q (snd res)
       (<[relTrans := Buf_3 CV_64F [snd (fst res)]]>
          (<[relRot := Buf_3 CV_64F [fst (fst res)]]> g) ++ L)) ->
  wp (run_Solver s o n junkRt junk junkRight junkResidual relRot relTrans)
    Q g.
Proof.
  intros Hwf HN. induction s as [r t c|r t k IH]; intros g Q Hcf Hr Ht HQ.
  - cbn [run_Solver]. apply wp_bind. apply wp_store; [exact Hr|].
    apply wp_bind. apply wp_store; [rewrite length_insert; exact Ht|].
    apply wp_ret. specialize (HQ []). cbn [Solver_result fst snd] in HQ.
    rewrite app_nil_r in HQ. exact HQ.
  - cbn [run_Solver]. apply wp_app_nil. do 6 wp_step.
    destruct (CostFunctor_call_runs
                (g ++ [Buf_3 CV_64F [r]; Buf_3 CV_64F [t];
                       Buf_1 CV_64F (map junkResidual (seq 0 n))])
                o cf T_double CV_64F junkRt junk junkRight
                (length g + 0) (length g + 1) (length g + 2) r t
                (map junkResidual (seq 0 n)) N)
      as (out & Hout & _ & Hrun).
    + reflexivity.
    + apply functor_in_memory_app. exact Hcf.
    + exact Hwf.
    + solve_lookup.
    + solve_lookup.
    + solve_lookup.
    + rewrite length_map, length_seq. exact HN.
    + apply wp_bind. eapply wp_mono; [|exact Hrun]. cbv beta.
      intros b g2 (-> & L & ->).
      rewrite (insert_local (length g)) by reflexivity.
      cbv [insert list_insert]. rewrite <- (assoc_L (++)).
      apply wp_bind. eapply wp_load_as; [solve_lookup|reflexivity|].
      apply IH.
      * apply functor_in_memory_app. exact Hcf.
      * rewrite length_app. lia.
      * rewrite length_app. lia.
      * intros L'. specialize (HQ (([Buf_3 CV_64F [r]; Buf_3 CV_64F [t];
                     Buf_1 CV_64F
                       (memcpy (map junkResidual (seq 0 n)) out
                          (length out))] ++ L) ++ L')).
        assert (Hc : cost_as_seen
                       (CostFunctor_operator cf T_double junk junkRight)
                       (map junkResidual (seq 0 n)) r t
                     = (true,
                        memcpy (map junkResidual (seq 0 n)) out (length out)))
          by (unfold cost_as_seen; rewrite Hout; reflexivity).
        cbn [Solver_result] in HQ. rewrite Hc in HQ. cbn [fst snd] in HQ.
        cbv zeta.
        rewrite (insert_app_l g) by exact Hr.
        rewrite (insert_app_l (<[relRot := _]> g))
          by (rewrite length_insert; exact Ht).
        rewrite <- (assoc_L (++)). exact HQ.
Qed.

Lemma wp_validRatio_block (imColor K pRefKF Rrel Trel validRatio : nat)
    (o : KeyFrame_object) (im : Image) (Kv R : Mat33 F) (T : Mat44 F)
    (kf : KeyFrame F) (g : Heap F) (Q : unit -> Heap F -> Prop) :
  g !! imColor = Some (Buf_image im) ->
  g !! K = Some (Buf_3 CV_32F (rows33 Kv)) ->
  g !! pRefKF = Some (Obj_KeyFrame o) ->
  g !! mHighGradPtDepth_data o = Some (Buf_1 CV_32F (mHighGradPtDepth kf)) ->
  g !! mHighGradPtHomo2dCoord_data o
    = Some (Buf_3 CV_32F (mHighGradPtHomo2dCoord kf)) ->
  g !! mInvK_data o = Some (Buf_3 CV_32F (rows33 (mInvK kf))) ->
  g !! Rrel = Some (Buf_3 CV_32F (rows33 R)) ->
  g !! Trel = Some (Buf_44 CV_32F T) ->
  (validRatio < length g)%nat ->
  (forall L,
     Q tt (<[validRatio := Obj_float (validRatio_of im Kv kf R T)]> g ++ L)) ->
  wp (validRatio_block imColor K pRefKF Rrel Trel validRatio) Q g.
Proof.
  intros Him HK Hkf Hdepth Hhomo HinvK HR HT Hv HQ.
  apply wp_app_nil. unfold validRatio_block. repeat wp_step.
  eapply wp_store_base; [exact Hv|].
  unfold validRatio_of in HQ. cbv zeta in HQ. apply HQ.
Qed.

Context (TRACKING_NUM_PT : Z) (TRACKING_HUBER_DELTA : F).
Context (ceres_Solve : F -> F -> Vec3 F -> Vec3 F -> Solver F).

(** [EstimateCameraPose] returns; it leaves alone what it was not asked to
    write; and what it writes are the values of the first model, as far as
    a later output of the call has not overwritten them. *)
Lemma EstimateCameraPose_call_runs (h : Heap F) (imColor K invK pRefKF : nat)
    (o : KeyFrame_object) (im : Image) (Kv invKv : Mat33 F) (kf : KeyFrame F)
    (N : nat) (cameraPixelNoise2 max_seconds : F) (Tcw : option nat)
    (rotAngle transDist validRatio : option nat) (junkRt : Mat33 F)
    (junk junkRight : nat -> Vec3b) (junkResidual : nat -> F) :
  inputs_in_memory h imColor K invK pRefKF o im Kv invKv kf ->
  wf_keyframe kf N ->
  (N <= Z.to_nat TRACKING_NUM_PT)%nat ->
  (forall a, Tcw = Some a -> (a < length h)%nat) ->
  (forall p a, p ∈ [rotAngle; transDist; validRatio] -> p = Some a ->
     (a < length h)%nat /\ a ∉ input_addresses imColor K invK pRefKF o) ->
  let zero := (f_of_Z 0, f_of_Z 0, f_of_Z 0) in
  let res :=
    Solver_result (ceres_Solve TRACKING_HUBER_DELTA max_seconds zero zero)
      (cost_as_seen
         (CostFunctor_operator
            (mkCostFunctor im kf Kv invKv cameraPixelNoise2) T_double junk
            junkRight)
         (map junkResidual (seq 0 (Z.to_nat TRACKING_NUM_PT)))) in
  let Rrel := Rodrigues (fst (fst res)) in
  let Trel := Trel_of Rrel (snd (fst res)) in
  wp (EstimateCameraPose_call TRACKING_NUM_PT TRACKING_HUBER_DELTA
        ceres_Solve imColor K invK pRefKF cameraPixelNoise2 max_seconds Tcw
        rotAngle transDist validRatio junkRt junk junkRight junkResidual)
    (fun out h' =>
       fst out = snd res / f_of_Z TRACKING_NUM_PT
       /\ (Tcw = Some (snd out) \/ (length h <= snd out)%nat)
       /\ frame (fun a => Tcw = Some a \/ rotAngle = Some a
                          \/ transDist = Some a \/ validRatio = Some a) h h'
       /\ (forall a, a ∈ input_addresses imColor K invK pRefKF o ->
             h' !! a = h !! a)
       /\ (rotAngle <> Some (snd out) -> transDist <> Some (snd out) ->
           validRatio <> Some (snd out) ->
           h' !! snd out
           = Some (Buf_44 CV_32F (mat44_mul Trel (GetPose kf))))
       /\ (forall p, rotAngle = Some p -> transDist <> Some p ->
             validRatio <> Some p ->
             h' !! p = Some (Obj_float (RotationAngle Rrel)))
       /\ (forall p, transDist = Some p -> validRatio <> Some p ->
             h' !! p
             = Some (Obj_float (TranslationDist (col3_rowRange_0_3 Trel))))
       /\ (forall p, validRatio = Some p ->
             h' !! p = Some (Obj_float (validRatio_of im Kv kf Rrel Trel))))
    h.
Proof.
  intros (Him & HK & HinvK & Hkf & (Hpix & Hhomo & Hdepth & Hunc) & HmInvK
          & Hpose) Hwf HN HTcw Hdiag zero res Rrel Trel.
  pose proof (lookup_lt_Some _ _ _ Him) as Bim.
  apply wp_app_nil. unfold EstimateCameraPose_call. repeat wp_step.
  eapply (wp_run_Solver _ (mkCostFunctor im kf Kv invKv cameraPixelNoise2) N);
    [exact Hwf|exact HN| | | |].
  { apply (functor_in_memory_new _ _ _ _ _ o);
      [solve_lookup|solve_lookup| |solve_lookup|solve_lookup].
    apply keyframe_arrays_in_memory_app. repeat split; assumption. }
  { rewrite length_app. cbn [length]. lia. }
  { rewrite length_app. cbn [length]. lia. }
  intros L. fold zero. fold res. cbv zeta.
  rewrite !(insert_local (length h)) by solve_len.
  cbv [insert list_insert]. rewrite <- (assoc_L (++)). cbn [app].
  match goal with |- wp _ _ ?g => set (g1 := g) end.
  assert (Hf1 : frame (fun _ => False) h g1) by apply frame_app.
  assert (Hr : g1 !! (length h + 0)%nat
               = Some (Buf_3 CV_64F [fst (fst res)]))
    by (unfold g1; solve_lookup).
  assert (Ht : g1 !! (length h + 1)%nat
               = Some (Buf_3 CV_64F [snd (fst res)]))
    by (unfold g1; solve_lookup).
  assert (Hkf1 : g1 !! pRefKF = Some (Obj_KeyFrame o))
    by (unfold g1; solve_lookup).
  assert (Hpose1 : g1 !! Tcw_data o = Some (Buf_44 CV_32F (GetPose kf)))
    by (unfold g1; solve_lookup).
  assert (Hlen1 : (length h <= length g1)%nat) by apply Hf1.
  clearbody g1. clear L.
  apply wp_app_nil. repeat wp_step.
  fold Rrel. change (mat44_set _ 3 3 (f_of_Z 1)) with Trel.
  match goal with |- wp _ _ (g1 ++ ?L) => set (L2 := L) end.
  assert (Hf2 : frame (fun _ => False) h (g1 ++ L2)).
  { eapply frame_trans; [exact Hf1|apply (frame_app (fun _ => False))|..];
      intros ? ? []. }
  set (W := fun a => Tcw = Some a \/ rotAngle = Some a \/ transDist = Some a
                     \/ validRatio = Some a).
  set (Inv := fun g : Heap F =>
    frame W h g
    /\ (forall a, a ∈ input_addresses imColor K invK pRefKF o ->
          g !! a = h !! a)
    /\ g !! (length g1 + 1)%nat = Some (Buf_3 CV_32F (rows33 Rrel))
    /\ g !! (length g1 + 2)%nat = Some (Buf_44 CV_32F Trel)).
  assert (Hstore : forall g p c, Inv g -> (p < length h)%nat ->
            p ∉ input_addresses imColor K invK pRefKF o -> W p ->
            Inv (<[p := c]> g)).
  { intros g p c (Hfg & Hin & HR & HT) Hp Hnin HW.
    split; [|split; [|split]].
    - eapply frame_trans; [exact Hfg|apply (frame_insert W); exact HW|..];
        auto.
    - intros a Ha. rewrite list_lookup_insert_ne; [apply Hin; exact Ha|].
      intros ->. contradiction.
    - rewrite list_lookup_insert_ne by lia. exact HR.
    - rewrite list_lookup_insert_ne by lia. exact HT. }
  assert (Hkeep1 : forall (g : Heap F) p x c c', g !! x = Some c -> p <> x ->
            <[p := c']> g !! x = Some c).
  { intros g p x c c' Hx Hne. rewrite list_lookup_insert_ne by exact Hne.
    exact Hx. }
  apply wp_create_write_any.
  { intros a Ha. rewrite length_app. specialize (HTcw a Ha). lia. }
  intros Tcw' g3 Hwhere0 HTcw' Hf3 Hshape. cbv beta.
  assert (Hwhere : Tcw = Some Tcw' \/ (length h <= Tcw')%nat).
  { destruct Hwhere0 as [?| ->]; [left; assumption|right].
    rewrite length_app. lia. }
  assert (Hkeep : forall a c0, h !! a = Some c0 ->
            shape_of c0 <> Some (4, 4, CV_F CV_32F)%Z -> g3 !! a = h !! a).
  { intros a c0 Ha Hs. rewrite Ha. apply (Hshape a c0); [|exact Hs].
    eapply frame_lookup; [exact Hf2|exact Ha|intros []]. }
  assert (Hinv3 : Inv g3).
  { split; [|split; [|split]].
    - eapply frame_trans; [exact Hf2|exact Hf3|intros ? ? []|].
      intros a _ Ha. left. exact Ha.
    - intros a Ha. unfold input_addresses in Ha.
      rewrite !elem_of_cons, elem_of_nil in Ha.
      destruct Ha as [->|[->|[->|[->|[->|[->|[->|[->|[->|[]]]]]]]]]];
        (eapply Hkeep; [eassumption|cbn [shape_of]; congruence]).
    - eapply frame_lookup; [exact Hf3|unfold L2; solve_lookup|].
      intros E. specialize (HTcw _ E). lia.
    - eapply frame_lookup; [exact Hf3|unfold L2; solve_lookup|].
      intros E. specialize (HTcw _ E). lia. }
  assert (Hlen3 : (length g1 + 4 <= length g3)%nat).
  { destruct Hf3 as [Hl _]. rewrite length_app in Hl. exact Hl. }
  clearbody L2. clear Hshape Hf3 Hkeep Hwhere0.
  assert (Hlook : forall g a c0, Inv g ->
            a ∈ input_addresses imColor K invK pRefKF o ->
            h !! a = Some c0 -> g !! a = Some c0).
  { intros g a c0 (_ & Hin & _) Ha Hc. rewrite Hin; assumption. }
  set (cT := Buf_44 CV_32F (mat44_mul Trel (GetPose kf))) in *.
  set (xr := Obj_float (RotationAngle Rrel)).
  set (xt := Obj_float (TranslationDist (col3_rowRange_0_3 Trel))).
  (* rotAngle *)
  apply wp_bind.
  apply (wp_mono _ (fun _ g =>
           Inv g
           /\ (rotAngle <> Some Tcw' -> g !! Tcw' = Some cT)
           /\ (forall p, rotAngle = Some p -> g !! p = Some xr))).
  2: { destruct rotAngle as [p|] eqn:Erot;
         [|apply wp_ret; split; [exact Hinv3|]; split;
           [intros _; exact HTcw'|intros p [=]]].
       destruct (Hdiag (Some p) p) as [Hp Hnin];
         [rewrite !elem_of_cons; tauto|reflexivity|].
       pose proof Hinv3 as (Hfg & Hin & HR & HT).
       apply wp_bind. eapply wp_load_as; [exact HR|solve_as|].
       unfold store_float. apply wp_store.
       - destruct Hfg as [Hl _]. lia.
       - split; [|split].
         + apply Hstore; [exact Hinv3|exact Hp|exact Hnin|].
           unfold W. auto.
         + intros Hne. apply Hkeep1; [exact HTcw'|congruence].
         + intros p' [= <-]. apply list_lookup_insert_eq.
           destruct Hfg as [Hl _]. lia. }
  clear g3 Hinv3 HTcw' Hlen3. intros _ g3 (Hinv3 & HvT & Hvr). cbv beta.
  (* transDist *)
  apply wp_bind.
  apply (wp_mono _ (fun _ g =>
           Inv g
           /\ (rotAngle <> Some Tcw' -> transDist <> Some Tcw' ->
               g !! Tcw' = Some cT)
           /\ (forall p, rotAngle = Some p -> transDist <> Some p ->
                 g !! p = Some xr)
           /\ (forall p, transDist = Some p -> g !! p = Some xt))).
  2: { destruct transDist as [p|] eqn:Etrans;
         [|apply wp_ret; split; [exact Hinv3|]; split;
           [intros ? _; auto|split; [intros ? ? _; auto|intros p [=]]]].
       destruct (Hdiag (Some p) p) as [Hp Hnin];
         [rewrite !elem_of_cons; tauto|reflexivity|].
       pose proof Hinv3 as (Hfg & Hin & HR & HT).
       apply wp_bind. eapply wp_load_as; [exact HT|reflexivity|].
       unfold store_float. apply wp_store.
       - destruct Hfg as [Hl _]. lia.
       - split; [|split; [|split]].
         + apply Hstore; [exact Hinv3|exact Hp|exact Hnin|].
           unfold W. auto.
         + intros Hne1 Hne2. apply Hkeep1; [auto|congruence].
         + intros p' Hp' Hne. apply Hkeep1; [auto|congruence].
         + intros p' [= <-]. apply list_lookup_insert_eq.
           destruct Hfg as [Hl _]. lia. }
  clear g3 Hinv3 HvT Hvr. intros _ g3 (Hinv3 & HvT & Hvr & Hvt). cbv beta.
  (* validRatio *)
  apply wp_bind.
  apply (wp_mono _ (fun _ g =>
           frame W h g
           /\ (forall a, a ∈ input_addresses imColor K invK pRefKF o ->
                 g !! a = h !! a)
           /\ (rotAngle <> Some Tcw' -> transDist <> Some Tcw' ->
               validRatio <> Some Tcw' -> g !! Tcw' = Some cT)
           /\ (forall p, rotAngle = Some p -> transDist <> Some p ->
                 validRatio <> Some p -> g !! p = Some xr)
           /\ (forall p, transDist = Some p -> validRatio <> Some p ->
                 g !! p = Some xt)
           /\ (forall p, validRatio = Some p ->
                 g !! p
                 = Some (Obj_float (validRatio_of im Kv kf Rrel Trel))))).
  { intros _ g4 (Hg1 & Hg2 & Hg3 & Hg4 & Hg5 & Hg6). apply wp_ret.
    cbn [fst snd]. split; [reflexivity|]. split; [exact Hwhere|].
    split; [exact Hg1|]. split; [exact Hg2|]. split; [exact Hg3|].
    split; [exact Hg4|]. split; [exact Hg5|exact Hg6]. }
  destruct validRatio as [p|] eqn:Evalid.
  2: { apply wp_ret. destruct Hinv3 as (Hfg & Hin & _).
       split; [exact Hfg|]. split; [exact Hin|].
       split; [intros ? ? _; auto|]. split; [intros ? ? ? _; auto|].
       split; [intros ? ? _; auto|intros ? [=]]. }
  destruct (Hdiag (Some p) p) as [Hp Hnin];
    [rewrite !elem_of_cons; tauto|reflexivity|].
  pose proof Hinv3 as (Hfg & Hin & HR & HT).
  unfold input_addresses in Hlook.
  assert (Hpg : (p < length g3)%nat) by (destruct Hfg as [Hl _]; lia).
  eapply (wp_validRatio_block _ _ _ _ _ _ o im Kv Rrel Trel kf);
    [ eapply Hlook; [exact Hinv3| |eassumption]; rewrite !elem_of_cons; tauto
      ..
    | exact HR | exact HT | exact Hpg | ].
  intros L.
  assert (Hinv4 : Inv (<[p := Obj_float (validRatio_of im Kv kf Rrel Trel)]>
                         g3))
    by (apply Hstore; [exact Hinv3|exact Hp|exact Hnin|unfold W; auto]).
  destruct Hinv4 as (Hf4 & Hin4 & _).
  split; [|split; [|split; [|split; [|split]]]].
  - eapply frame_trans; [exact Hf4|apply (frame_app W)|..]; auto.
  - intros a Ha. rewrite <- (Hin4 a Ha).
    apply lookup_app_l. rewrite length_insert.
    assert (is_Some (h !! a)) as [c0 Hc0].
    { unfold input_addresses in Ha.
      rewrite !elem_of_cons, elem_of_nil in Ha.
      destruct Ha as [->|[->|[->|[->|[->|[->|[->|[->|[->|[]]]]]]]]]]; eauto. }
    apply lookup_lt_Some in Hc0. destruct Hfg as [Hl _]. lia.
  - intros Hne1 Hne2 Hne3. apply lookup_app_l_Some.
    apply Hkeep1; [auto|congruence].
  - intros p' Hp' Hne2 Hne3. apply lookup_app_l_Some.
    apply Hkeep1; [auto|congruence].
  - intros p' Hp' Hne3. apply lookup_app_l_Some.
    apply Hkeep1; [auto|congruence].
  - intros p' [= <-]. apply lookup_app_l_Some.
    apply list_lookup_insert_eq. exact Hpg.
Qed.

End DriverInMemory.

Section WritesInMemory.

Context {F : Type} `{Numeric F}.
Context (TRACKING_NUM_PT : Z) (TRACKING_HUBER_DELTA : F).
Context (ceres_Solve : F -> F -> Vec3 F -> Vec3 F -> Solver F).

Local Open Scope num_scope.

(** A functor is built from the inputs in memory and called: the call
    returns [true], and the memory after it is the memory before it with
    the residuals of the first model copied into the residual block, and
    new cells behind. *)
Lemma CostFunctor_new_call_runs (h : Heap F) (imColor K invK pRefKF : nat)
    (o : KeyFrame_object) (im : Image) (Kv invKv : Mat33 F) (kf : KeyFrame F)
    (N : nat) (noise : F) (T : scalar_type) (type : cv_depth)
    (r t residual : nat) (rv tv : Vec3 F) (w : list F) (junkRt : Mat33 F)
    (junk junkRight : nat -> Vec3b) :
  inputs_in_memory h imColor K invK pRefKF o im Kv invKv kf ->
  wf_keyframe kf N ->
  cv_type_of T = Some type ->
  h !! r = Some (Buf_3 type [rv]) ->
  h !! t = Some (Buf_3 type [tv]) ->
  h !! residual = Some (Buf_1 type w) ->
  (N <= length w)%nat ->
  exists out L,
    CostFunctor_operator (mkCostFunctor im kf Kv invKv noise) T junk junkRight
      rv tv = ReturnTrue out
    /\ length out = N
    /\ (cf ← CostFunctor_new imColor pRefKF K invK noise;
        CostFunctor_call cf T junkRt junk junkRight r t residual) h
       = Some (true,
               <[residual := Buf_1 type (memcpy w out (length out))]> h ++ L).
Proof.
  intros (Him & HK & HinvK & Hkf & Harr & HmInvK & Hpose) Hwf HT Hr Ht Hres
    Hw.
  destruct (CostFunctor_call_runs
              (h ++ [Buf_3 CV_32F (rows33 (mat_t Kv));
                     Buf_3 CV_32F (rows33 (mat_t invKv))])
              {| imColor_data := imColor; pReferenceKF_ptr := pRefKF;
                 Kt_data := length h + 0; invKt_data := length h + 1;
                 cameraPixelNoise2_val := noise |}
              (mkCostFunctor im kf Kv invKv noise) T type
              junkRt junk junkRight r t residual rv tv w N)
    as (out & Hout & Hlen & Hrun);
    [exact HT| |exact Hwf|solve_lookup..|exact Hw|].
  { apply (functor_in_memory_new _ _ _ _ _ o);
      [solve_lookup|solve_lookup| |solve_lookup|solve_lookup].
    apply keyframe_arrays_in_memory_app. exact Harr. }
  assert (Hwp : wp (cf ← CostFunctor_new imColor pRefKF K invK noise;
                    CostFunctor_call cf T junkRt junk junkRight r t residual)
                  (fun b h' =>
                     b = true
                     /\ exists L,
                          h' = <[residual :=
                                  Buf_1 type (memcpy w out (length out))]> h
                               ++ L) h).
  { apply wp_app_nil. repeat wp_step.
    eapply wp_mono; [|exact Hrun]. cbv beta.
    intros b h' (Hb & L & ->). split; [exact Hb|].
    rewrite insert_app_l by (eapply lookup_lt_Some; exact Hres).
    rewrite <- (assoc_L (++)). eexists. reflexivity. }
  apply wp_elim in Hwp. destruct Hwp as (b & h' & Hcall & -> & L & ->).
  exists out, L. auto.
Qed.

(** C9: in a memory that holds the image, [K], [invK] and the keyframe
    with its arrays, a functor built from them and called on two parameter
    blocks and a residual block returns, and leaves every cell that was
    there as it was, but for the residual block; [EstimateCameraPose]
    returns, and leaves every cell as it was but for the buffer of [Tcw]
    and the diagnostics it was asked for; and the image, [K], [invK], the
    keyframe object, its four point arrays and its [mInvK] are as they were
    even where the caller's [Tcw] shares the buffer of one of them. *)
Theorem calls_write_only_their_outputs (h : Heap F)
    (imColor K invK pRefKF : nat) (o : KeyFrame_object) (im : Image)
    (Kv invKv : Mat33 F) (kf : KeyFrame F) (N : nat)
    (cameraPixelNoise2 max_seconds : F) (T : scalar_type)
    (r t residual : nat) (Tcw rotAngle transDist validRatio : option nat)
    (junkRt : Mat33 F) (junk junkRight : nat -> Vec3b)
    (junkResidual : nat -> F) :
  inputs_in_memory h imColor K invK pRefKF o im Kv invKv kf ->
  wf_keyframe kf N ->
  parameters_in_memory h T r t residual N ->
  (N <= Z.to_nat TRACKING_NUM_PT)%nat ->
  (forall a, Tcw = Some a -> (a < length h)%nat) ->
  (forall p a, p ∈ [rotAngle; transDist; validRatio] -> p = Some a ->
     (a < length h)%nat /\ a ∉ input_addresses imColor K invK pRefKF o) ->
  (exists b h',
     (cf ← CostFunctor_new imColor pRefKF K invK cameraPixelNoise2;
      CostFunctor_call cf T junkRt junk junkRight r t residual) h
     = Some (b, h')
     /\ frame (fun a => a = residual) h h')
  /\ (exists out h',
        EstimateCameraPose_call TRACKING_NUM_PT TRACKING_HUBER_DELTA
          ceres_Solve imColor K invK pRefKF cameraPixelNoise2 max_seconds Tcw
          rotAngle transDist validRatio junkRt junk junkRight junkResidual h
        = Some (out, h')
        /\ frame (fun a => Tcw = Some a \/ rotAngle = Some a
                           \/ transDist = Some a \/ validRatio = Some a) h h'
        /\ forall a, a ∈ input_addresses imColor K invK pRefKF o ->
             h' !! a = h !! a).
Proof.
  intros Hin Hwf Hpar HN HTcw Hdiag. split.
  - unfold parameters_in_memory in Hpar.
    destruct (cv_type_of T) as [type|] eqn:HT.
    + destruct Hpar as ((rv & Hr) & (tv & Ht) & w & Hres & Hw).
      destruct (CostFunctor_new_call_runs h imColor K invK pRefKF o im Kv
                  invKv kf N cameraPixelNoise2 T type r t residual rv tv w
                  junkRt junk junkRight Hin Hwf HT Hr Ht Hres Hw)
        as (out & L & _ & _ & Hcall).
      eexists _, _. split; [exact Hcall|].
      eapply frame_trans;
        [apply (frame_insert (fun a => a = residual)); reflexivity
        |apply (frame_app (fun a => a = residual))|..]; auto.
    + apply wp_elim.
      destruct Hin as (Him & HK & HinvK & Hkf & Harr & HmInvK & Hpose).
      apply wp_app_nil. repeat wp_step.
      unfold CostFunctor_call. rewrite HT. apply wp_ret.
      apply (frame_app (fun a => a = residual)).
  - apply wp_elim. eapply wp_mono; [|eapply EstimateCameraPose_call_runs;
                                      eassumption].
    cbv beta. intros out h' (_ & _ & Hframe & Hinputs & _).
    split; [exact Hframe|exact Hinputs].
Qed.

(** What the functor writes is what the first model returns: built from
    the inputs in memory and called at a supported scalar type, it returns
    [true] and the residual block then holds the residuals of
    [CostFunctor_operator] on the values of the inputs, followed by what
    the block held beyond them. *)
Theorem functor_in_memory_stores_the_residuals (h : Heap F)
    (imColor K invK pRefKF : nat) (o : KeyFrame_object) (im : Image)
    (Kv invKv : Mat33 F) (kf : KeyFrame F) (N : nat) (noise : F)
    (T : scalar_type) (type : cv_depth) (r t residual : nat) (rv tv : Vec3 F)
    (w : list F) (junkRt : Mat33 F) (junk junkRight : nat -> Vec3b) :
  inputs_in_memory h imColor K invK pRefKF o im Kv invKv kf ->
  wf_keyframe kf N ->
  cv_type_of T = Some type ->
  h !! r = Some (Buf_3 type [rv]) ->
  h !! t = Some (Buf_3 type [tv]) ->
  h !! residual = Some (Buf_1 type w) ->
  (N <= length w)%nat ->
  exists out h',
    CostFunctor_operator (mkCostFunctor im kf Kv invKv noise) T junk junkRight
      rv tv = ReturnTrue out
    /\ (cf ← CostFunctor_new imColor pRefKF K invK noise;
        CostFunctor_call cf T junkRt junk junkRight r t residual) h
       = Some (true, h')
    /\ h' !! residual = Some (Buf_1 type (out ++ drop (length out) w)).
Proof.
  intros Hin Hwf HT Hr Ht Hres Hw.
  destruct (CostFunctor_new_call_runs h imColor K invK pRefKF o im Kv invKv
              kf N noise T type r t residual rv tv w junkRt junk junkRight
              Hin Hwf HT Hr Ht Hres Hw)
    as (out & L & Hout & Hlen & Hcall).
  eexists _, _. split; [exact Hout|]. split; [exact Hcall|].
  apply lookup_app_l_Some. unfold memcpy. rewrite firstn_all.
  apply list_lookup_insert_eq. eapply lookup_lt_Some. exact Hres.
Qed.

(** What [EstimateCameraPose] writes is what the first model computes: in
    a memory that holds the inputs of [m], with outputs that do not
    overlap, the call returns the cost of the first model run with the
    optimizer that plays the same strategy, and leaves its pose in the
    buffer of [Tcw] and its diagnostics behind the pointers that are not
    null. *)
Theorem EstimateCameraPose_in_memory_stores_the_values (h : Heap F)
    (imColor K invK pRefKF : nat) (o : KeyFrame_object) (m : Memory F)
    (N : nat) (cameraPixelNoise2 max_seconds : F)
    (Tcw rotAngle transDist validRatio : option nat) (junkRt : Mat33 F)
    (junk junkRight : nat -> Vec3b) (junkResidual : nat -> F) :
  inputs_in_memory h imColor K invK pRefKF o (mem_imColor m) (mem_K m)
    (mem_invK m) (mem_pRefKF m) ->
  wf_keyframe (mem_pRefKF m) N ->
  (N <= Z.to_nat TRACKING_NUM_PT)%nat ->
  (forall a, Tcw = Some a ->
     (a < length h)%nat /\ Some a ∉ [rotAngle; transDist; validRatio]) ->
  (forall p a, p ∈ [rotAngle; transDist; validRatio] -> p = Some a ->
     (a < length h)%nat /\ a ∉ input_addresses imColor K invK pRefKF o) ->
  (forall a, rotAngle = Some a ->
     transDist <> Some a /\ validRatio <> Some a) ->
  (forall a, transDist = Some a -> validRatio <> Some a) ->
  let res :=
    EstimateCameraPose TRACKING_NUM_PT TRACKING_HUBER_DELTA
      (Solve_of ceres_Solve
         (map junkResidual (seq 0 (Z.to_nat TRACKING_NUM_PT))))
      m cameraPixelNoise2 max_seconds (non_null rotAngle)
      (non_null transDist) (non_null validRatio) junk junkRight in
  exists Tcw' h',
    EstimateCameraPose_call TRACKING_NUM_PT TRACKING_HUBER_DELTA ceres_Solve
      imColor K invK pRefKF cameraPixelNoise2 max_seconds Tcw rotAngle
      transDist validRatio junkRt junk junkRight junkResidual h
    = Some ((fst res, Tcw'), h')
    /\ h' !! Tcw' = Some (Buf_44 CV_32F (mem_Tcw (snd res)))
    /\ (forall p, rotAngle = Some p ->
          h' !! p = Some (Obj_float (mem_rotAngle (snd res))))
    /\ (forall p, transDist = Some p ->
          h' !! p = Some (Obj_float (mem_transDist (snd res))))
    /\ (forall p, validRatio = Some p ->
          h' !! p = Some (Obj_float (mem_validRatio (snd res)))).
Proof.
  intros Hin Hwf HN HTcw Hdiag Hrot Htrans res.
  assert (HTcw' : forall a, Tcw = Some a -> (a < length h)%nat)
    by (intros a Ha; apply (HTcw a Ha)).
  pose proof (EstimateCameraPose_call_runs TRACKING_NUM_PT
                TRACKING_HUBER_DELTA ceres_Solve h imColor K invK pRefKF o
                (mem_imColor m) (mem_K m) (mem_invK m) (mem_pRefKF m) N
                cameraPixelNoise2 max_seconds Tcw rotAngle transDist
                validRatio junkRt junk junkRight junkResidual Hin Hwf HN
                HTcw' Hdiag) as Hrun.
  cbv zeta in Hrun. apply wp_elim in Hrun.
  destruct Hrun as ([cost Tcw'] & h' & Hcall & Hcost & Hwhere & _ & _ & HvT
                    & Hvr & Hvt & Hvv).
  cbn [fst snd] in *.
  assert (Hfresh : forall p, p ∈ [rotAngle; transDist; validRatio] ->
            p <> Some Tcw').
  { intros p Hp E. destruct Hwhere as [Ha|Hge].
    - destruct (HTcw _ Ha) as [_ Hnin]. apply Hnin. rewrite <- E. exact Hp.
    - destruct (Hdiag p Tcw' Hp E) as [Hlt _]. lia. }
  assert (HvT' := HvT (Hfresh rotAngle ltac:(rewrite !elem_of_cons; tauto))
                    (Hfresh transDist ltac:(rewrite !elem_of_cons; tauto))
                    (Hfresh validRatio ltac:(rewrite !elem_of_cons; tauto))).
  clear HvT Hfresh.
  subst res. unfold EstimateCameraPose, Solve_of.
  destruct (Solver_result _ _) as [[rel_r rel_t] final_cost].
  cbn [fst snd] in *.
  exists Tcw', h'. rewrite Hcost in Hcall.
  destruct rotAngle as [pr|], transDist as [pt|], validRatio as [pv|];
    cbn [non_null fst snd mem_Tcw mem_rotAngle mem_transDist mem_validRatio
         set_Tcw set_rotAngle set_transDist set_validRatio];
    (split; [exact Hcall|]); (split; [exact HvT'|]);
    (split; [intros p [= <-]; apply Hvr;
             first [reflexivity | discriminate | apply Hrot; reflexivity]
            |]);
    (split; [intros p [= <-]; apply Hvt;
             first [reflexivity | discriminate | apply Htrans; reflexivity]
            |]);
    intros p [= <-]; apply Hvv; reflexivity.
Qed.

End WritesInMemory.

Lemma calls_write_only_their_outputs_witness :
  (exists b h',
     (cf ← CostFunctor_new 0 3 1 2 2%Q;
      CostFunctor_call cf T_double ex_I33 ex_junk ex_junk 10 11 12) ex_heap
     = Some (b, h')
     /\ frame (fun a => a = 12%nat) ex_heap h')
  /\ (exists out h',
        EstimateCameraPose_call 2 1%Q ex_ceres_Solve 0 1 2 3 2%Q 1%Q
          (Some 13%nat) (Some 14%nat) (Some 15%nat) (Some 16%nat) ex_I33
          ex_junk ex_junk (fun _ => 7%Q) ex_heap
        = Some (out, h')
        /\ frame (fun a => Some 13%nat = Some a \/ Some 14%nat = Some a
                           \/ Some 15%nat = Some a \/ Some 16%nat = Some a)
             ex_heap h'
        /\ forall a, a ∈ input_addresses 0 1 2 3 ex_kf_object ->
             h' !! a = ex_heap !! a).
Proof.
  apply (calls_write_only_their_outputs 2 1%Q ex_ceres_Solve ex_heap 0 1 2
           3 ex_kf_object ex_im ex_K ex_invK ex_kf_two 2 2%Q 1%Q T_double 10
           11 12 (Some 13%nat) (Some 14%nat) (Some 15%nat) (Some 16%nat)
           ex_I33 ex_junk ex_junk (fun _ => 7%Q)).
  - repeat split.
  - repeat split.
  - cbn. repeat split; eauto. eexists. split; [reflexivity|]. cbn. lia.
  - cbn. lia.
  - intros a [= <-]. cbn. lia.
  - intros p a Hp ->. rewrite !elem_of_cons, elem_of_nil in Hp.
    unfold input_addresses, ex_kf_object. cbn [mHighGradPtPixels_data
      mHighGradPtHomo2dCoord_data mHighGradPtDepth_data
      mHighGradPtSqrtUncertainty_data mInvK_data].
    rewrite !elem_of_cons, elem_of_nil.
    destruct Hp as [[= ->]|[[= ->]|[[= ->]|[]]]]; cbn [length ex_heap]; lia.
Defined.

Lemma functor_in_memory_stores_the_residuals_witness :
  exists out h',
    CostFunctor_operator ex_cf_two T_double ex_junk ex_junk ex_zero ex_zero
      = ReturnTrue out
    /\ (cf ← CostFunctor_new 0 3 1 2 2%Q;
        CostFunctor_call cf T_double ex_I33 ex_junk ex_junk 10 11 12) ex_heap
       = Some (true, h')
    /\ h' !! 12%nat = Some (Buf_1 CV_64F (out ++ drop (length out) [9; 9; 9]%Q)).
Proof.
  apply (functor_in_memory_stores_the_residuals ex_heap 0 1 2 3 ex_kf_object
           ex_im ex_K ex_invK ex_kf_two 2 2%Q T_double CV_64F 10 11 12
           ex_zero ex_zero [9; 9; 9]%Q ex_I33 ex_junk ex_junk).
  - repeat split.
  - repeat split.
  - reflexivity.
  - reflexivity.
  - reflexivity.
  - reflexivity.
  - cbn. lia.
Defined.

Lemma EstimateCameraPose_in_memory_stores_the_values_witness :
  let res :=
    EstimateCameraPose 2 1%Q
      (Solve_of ex_ceres_Solve (map (fun _ => 7%Q) (seq 0 (Z.to_nat 2))))
      ex_mem_two 2%Q 1%Q (non_null (Some 14%nat)) (non_null (Some 15%nat))
      (non_null (Some 16%nat)) ex_junk ex_junk in
  exists Tcw' h',
    EstimateCameraPose_call 2 1%Q ex_ceres_Solve 0 1 2 3 2%Q 1%Q
      (Some 13%nat) (Some 14%nat) (Some 15%nat) (Some 16%nat) ex_I33 ex_junk
      ex_junk (fun _ => 7%Q) ex_heap
    = Some ((fst res, Tcw'), h')
    /\ h' !! Tcw' = Some (Buf_44 CV_32F (mem_Tcw (snd res)))
    /\ (forall p, Some 14%nat = Some p ->
          h' !! p = Some (Obj_float (mem_rotAngle (snd res))))
    /\ (forall p, Some 15%nat = Some p ->
          h' !! p = Some (Obj_float (mem_transDist (snd res))))
    /\ (forall p, Some 16%nat = Some p ->
          h' !! p = Some (Obj_float (mem_validRatio (snd res)))).
Proof.
  apply (EstimateCameraPose_in_memory_stores_the_values 2 1%Q ex_ceres_Solve
           ex_heap 0 1 2 3 ex_kf_object ex_mem_two 2 2%Q 1%Q (Some 13%nat)
           (Some 14%nat) (Some 15%nat) (Some 16%nat) ex_I33 ex_junk ex_junk
           (fun _ => 7%Q)).
  - repeat split.
  - repeat split.
  - cbn. lia.
  - intros a [= <-]. split; [cbn; lia|].
    rewrite !elem_of_cons, elem_of_nil.
    intros [Hx|[Hx|[Hx|[]]]]; discriminate Hx.
  - intros p a Hp ->. rewrite !elem_of_cons, elem_of_nil in Hp.
    unfold input_addresses, ex_kf_object. cbn [mHighGradPtPixels_data
      mHighGradPtHomo2dCoord_data mHighGradPtDepth_data
      mHighGradPtSqrtUncertainty_data mInvK_data].
    rewrite !elem_of_cons, elem_of_nil.
    destruct Hp as [[= ->]|[[= ->]|[[= ->]|[]]]]; cbn [length ex_heap]; lia.
  - intros a [= <-]. split; discriminate.
  - intros a [= <-]. discriminate.
Defined.

(** The exception for the residual block is needed: the functor writes
    through the residual pointer whatever that points at.  Called at
    [float] with the pointer on the buffer of the depths, it replaces the
    depths [2, 2] by the residuals [5/2, 5/2]; and an [EstimateCameraPose]
    whose [Tcw] shares the buffer of the keyframe's pose writes the new
    pose there in place. *)
Theorem a_call_writes_through_an_aliased_output :
  ex_heap !! 6%nat = Some (Buf_1 CV_32F [2; 2]%Q)
  /\ (exists h',
        (cf ← CostFunctor_new 0 3 1 2 2%Q;
         CostFunctor_call cf T_float ex_I33 ex_junk ex_junk 17 18 6) ex_heap
        = Some (true, h')
        /\ h' !! 6%nat = Some (Buf_1 CV_32F [5 # 2; 5 # 2]%Q))
  /\ ex_heap !! 9%nat = Some (Buf_44 CV_32F ex_I44)
  /\ (exists h',
        EstimateCameraPose_call 2 1%Q ex_ceres_Solve_moved 0 1 2 3 2%Q 1%Q
          (Some 9%nat) None None None ex_I33 ex_junk ex_junk (fun _ => 7%Q)
          ex_heap
        = Some ((0%Q, 9%nat), h')
        /\ h' !! 9%nat
           = Some (Buf_44 CV_32F
                     ((1, 0, 0, 1), (0, 1, 0, 0), (0, 0, 1, 0),
                      (0, 0, 0, 1))%Q)).
Proof.
  split; [reflexivity|]. split.
  - eexists. split; vm_compute; reflexivity.
  - split; [reflexivity|]. eexists. split; vm_compute; reflexivity.
Qed.

(** ** The noise variance, over the real numbers *)

Section NoiseVariance.

Local Open Scope R_scope.

Lemma saturated_color_error_nonneg (a b : Vec3b) :
  0 <= saturated_color_error (F := R) a b.
Proof.
  unfold saturated_color_error. destruct (vec3b_sub a b) as [[a0 a1] a2].
  apply sqrt_pos.
Qed.

(** A larger variance gives a smaller normalized residual, never a negative
    one. *)
Lemma normalized_antitone (res resShift n1 n2 : R) :
  0 <= res -> 0 < n1 <= n2 ->
  0 <= normalized res resShift n2 <= normalized res resShift n1.
Proof.
  intros Hres [Hpos Hle]. unfold normalized, pow2. cbn.
  set (D := (resShift - res) * (resShift - res)).
  assert (HD : 0 <= D) by exact (Rle_0_sqr (resShift - res)).
  assert (H1 : 0 < sqrt (D + 2 * n1)) by (apply sqrt_lt_R0; lra).
  assert (H12 : sqrt (D + 2 * n1) <= sqrt (D + 2 * n2))
    by (apply sqrt_le_1_alt; lra).
  assert (Hinv : / sqrt (D + 2 * n2) <= / sqrt (D + 2 * n1))
    by (apply Rinv_le_contravar; assumption).
  assert (Hinv0 : 0 < / sqrt (D + 2 * n2))
    by (apply Rinv_0_lt_compat; lra).
  unfold Rdiv. split.
  - apply Rmult_le_pos; lra.
  - apply Rmult_le_compat_l; assumption.
Qed.

Lemma Forall2_zip_with_same {A B : Type} (P : R -> R -> Prop)
    (f g : A -> B -> R) (l : list A) (k : list B) :
  (forall x y, P (f x y) (g x y)) ->
  Forall2 P (zip_with f l k) (zip_with g l k).
Proof.
  intros Hfg. revert k.
  induction l as [|x l IH]; intros [|y k]; cbn; constructor; auto.
Qed.

Lemma cv_mean_acc_antitone (l1 l2 : list R) :
  Forall2 (fun x y => 0 <= y <= x) l1 l2 ->
  forall (mask : list Z) (s1 s2 : R) (nz : Z),
    0 <= s2 <= s1 -> (0 <= nz)%Z ->
    exists s1' s2' nz',
      foldl cv_mean_acc (s1, nz) (zip l1 mask) = (s1', nz')
      /\ foldl cv_mean_acc (s2, nz) (zip l2 mask) = (s2', nz')
      /\ 0 <= s2' <= s1' /\ (0 <= nz')%Z.
Proof.
  induction 1 as [|x y l1 l2 Hxy _ IH]; intros [|m mask] s1 s2 nz Hs Hnz;
    try solve [exists s1, s2, nz; cbn; auto].
  cbn [zip_with foldl]. unfold cv_mean_acc at 2 4. cbn [fst snd].
  destruct (m =? 0)%Z.
  - apply IH; assumption.
  - apply IH; [cbn; lra|lia].
Qed.

Lemma cv_mean_antitone (l1 l2 : list R) (mask : list Z) :
  Forall2 (fun x y => 0 <= y <= x) l1 l2 ->
  0 <= cv_mean l2 mask <= cv_mean l1 mask.
Proof.
  intros Hl.
  destruct (cv_mean_acc_antitone l1 l2 Hl mask 0 0 0%Z)
    as (s1 & s2 & nz & H1 & H2 & Hs & Hnz); [lra|lia|].
  unfold cv_mean. cbn [f_zero R_Numeric]. rewrite H1, H2.
  destruct (Z.eqb_spec nz 0); [lra|].
  cbn. assert (0 < IZR nz) by (apply IZR_lt; lia).
  assert (0 < / IZR nz) by (apply Rinv_0_lt_compat; assumption).
  unfold Rdiv. split.
  - apply Rmult_le_pos; lra.
  - apply Rmult_le_compat_r; lra.
Qed.

Lemma cv_sum_squares_antitone (l1 l2 : list R) :
  Forall2 (fun x y => 0 <= y <= x) l1 l2 ->
  cv_sum (col_pow2 l2) <= cv_sum (col_pow2 l1).
Proof.
  unfold cv_sum, col_pow2. cbn [f_zero R_Numeric].
  assert (Hgen : forall s1 s2, s2 <= s1 ->
            Forall2 (fun x y => 0 <= y <= x) l1 l2 ->
            foldl f_add s2 (map pow2 l2) <= foldl f_add s1 (map pow2 l1)).
  { intros s1 s2 Hs Hl. revert s1 s2 Hs.
    induction Hl as [|x y l1 l2 Hxy _ IH]; intros s1 s2 Hs; [exact Hs|].
    cbn [map foldl]. apply IH. unfold pow2. cbn.
    assert (y * y <= x * x) by (apply Rmult_le_compat; lra). lra. }
  intros Hl. apply Hgen; [lra|exact Hl].
Qed.

(** C8: with everything but the noise variance held fixed, a larger
    variance makes the magnitude of every emitted residual, the normalized
    residual of every valid point among them, no larger, and so the sum of
    the squared residuals. *)
Theorem larger_noise_variance_never_raises_cost (im : Image)
    (kf : KeyFrame R) (K invK : Mat33 R) (n1 n2 : R) (T : scalar_type)
    (junk1 junkRight1 junk2 junkRight2 : nat -> Vec3b) (r t : Vec3 R)
    (N : nat) :
  T <> T_other ->
  wf_keyframe kf N ->
  0 < n1 <= n2 ->
  exists out1 out2,
    CostFunctor_operator (mkCostFunctor im kf K invK n1) T junk1 junkRight1
      r t = ReturnTrue out1
    /\ CostFunctor_operator (mkCostFunctor im kf K invK n2) T junk2
         junkRight2 r t = ReturnTrue out2
    /\ Forall2 (fun x y => Rabs y <= Rabs x) out1 out2
    /\ Forall2 (fun x y => Rabs y <= Rabs x)
         (rhos saturated_color_error (mkCostFunctor im kf K invK n1) r t)
         (rhos saturated_color_error (mkCostFunctor im kf K invK n2) r t)
    /\ cv_sum (col_pow2 out2) <= cv_sum (col_pow2 out1).
Proof.
  intros HT Hwf Hn.
  destruct (supported_type T HT) as [d Hd].
  set (cf1 := mkCostFunctor im kf K invK n1).
  set (cf2 := mkCostFunctor im kf K invK n2).
  destruct (CostFunctor_operator_entries cf1 T d junk1 junkRight1 r t N Hd Hwf)
    as (out1 & Hrun1 & Hlen1 & Hout1).
  destruct (CostFunctor_operator_entries cf2 T d junk2 junkRight2 r t N Hd Hwf)
    as (out2 & Hrun2 & Hlen2 & Hout2).
  change (valid_of cf2 r t) with (valid_of cf1 r t) in Hout2.
  pose proof (length_valid_of cf1 r t N Hwf) as Hv.
  assert (Hrho : Forall2 (fun x y => 0 <= y <= x)
                   (rhos saturated_color_error cf1 r t)
                   (rhos saturated_color_error cf2 r t)).
  { unfold rhos.
    change (proj2d_of cf2 r t) with (proj2d_of cf1 r t).
    change (proj2dRight_of cf2 r t) with (proj2dRight_of cf1 r t).
    change (mHighGradPtPixels (pReferenceKF cf2))
      with (mHighGradPtPixels (pReferenceKF cf1)).
    apply Forall2_zip_with_same. intros c pq. unfold rho.
    apply normalized_antitone; [apply saturated_color_error_nonneg|exact Hn]. }
  assert (Hout : Forall2 (fun x y => 0 <= y <= x) out1 out2).
  { apply Forall2_same_length_lookup_2; [lia|].
    intros i x y Hx Hy.
    destruct (lookup_lt_is_Some_2 (valid_of cf1 r t) i) as [m Hm].
    { apply lookup_lt_Some in Hx. lia. }
    rewrite (Hout1 i m Hm) in Hx. rewrite (Hout2 i m Hm) in Hy.
    destruct (m =? 0)%Z.
    - injection Hx as <-. injection Hy as <-.
      apply cv_mean_antitone. exact Hrho.
    - exact (Forall2_lookup_lr _ _ _ _ _ _ Hrho Hx Hy). }
  assert (Habs : forall l1 l2, Forall2 (fun x y => 0 <= y <= x) l1 l2 ->
                   Forall2 (fun x y => Rabs y <= Rabs x) l1 l2).
  { intros l1 l2 Hl. eapply Forall2_impl; [exact Hl|]. intros x y Hxy.
    rewrite !Rabs_pos_eq; lra. }
  exists out1, out2. repeat split; auto.
  apply cv_sum_squares_antitone. exact Hout.
Qed.

End NoiseVariance.

(** ** Concrete runs *)

Section Runs.

Local Open Scope Q_scope.

(** C1: at the identity pose, with every point reprojected inside the
    image, the functor's mask is set for every point and the fraction of
    points inside the image is 1, yet [EstimateCameraPose] writes a
    [validRatio] of 0.  First on an image wider than tall, where only the
    bounds are at stake ([K] is the identity): the column is compared with
    the number of rows.  Then on a square image with the camera [ex_K]:
    the points are projected with [K] in place of its transpose. *)
Theorem validRatio_is_not_the_fraction_in_image :
  let cf_wide := mkCostFunctor ex_im_wide ex_kf_wide ex_I33 ex_I33 1 in
  let cf_left := mkCostFunctor ex_im ex_kf_left ex_K ex_invK 1 in
  (proj2d_of cf_wide ex_zero ex_zero = [(3, 0)%Z]
   /\ valid_of cf_wide ex_zero ex_zero = [255%Z]
   /\ fraction_in_image (F := Q) ex_im_wide (proj2d_of cf_wide ex_zero ex_zero)
      = 1
   /\ mem_validRatio
        (snd (EstimateCameraPose 1%Z 1 ex_Solve ex_mem_wide 1 0
                false false true ex_junk ex_junk)) = 0)
  /\ (proj2d_of cf_left ex_zero ex_zero = [(0, 1)%Z]
      /\ valid_of cf_left ex_zero ex_zero = [255%Z]
      /\ fraction_in_image (F := Q) ex_im (proj2d_of cf_left ex_zero ex_zero)
         = 1
      /\ mem_validRatio
           (snd (EstimateCameraPose 1%Z 1 ex_Solve ex_mem_left 1 0
                   false false true ex_junk ex_junk)) = 0).
Proof. vm_compute. repeat split. Qed.

(** C3: where the image is brighter than the reference colour in every
    channel, the functor emits the residual 0 for a valid point, while the
    normalized residual of the L2 colour errors is 5/2: the 8-bit difference
    is saturated at 0 before it is squared. *)
Theorem brighter_pixel_has_zero_residual :
  valid_of ex_cf_dark ex_zero ex_zero = [255%Z]
  /\ sample ex_im (1, 1)%Z = (3, 4, 0)%Z
  /\ CostFunctor_operator ex_cf_dark T_float ex_junk ex_junk ex_zero ex_zero
     = ReturnTrue [0]
  /\ rhos L2_color_error ex_cf_dark ex_zero ex_zero = [5 # 2].
Proof. vm_compute. repeat split. Qed.

Lemma valid_iff_both_pixels_in_image_witness :
  proj2d_of ex_cf_two ex_zero ex_zero !! 0%nat = Some (1, 1)%Z
  /\ proj2dRight_of ex_cf_two ex_zero ex_zero !! 0%nat = Some (1, 1)%Z
  /\ exists m, valid_of ex_cf_two ex_zero ex_zero !! 0%nat = Some m
       /\ (m <> 0%Z <->
           in_image (imColor ex_cf_two) (1, 1)%Z
           /\ in_image (imColor ex_cf_two) (1, 1)%Z).
Proof.
  assert (Hp : proj2d_of ex_cf_two ex_zero ex_zero !! 0%nat = Some (1, 1)%Z)
    by (vm_compute; reflexivity).
  assert (Hq : proj2dRight_of ex_cf_two ex_zero ex_zero !! 0%nat
               = Some (1, 1)%Z)
    by (vm_compute; reflexivity).
  split; [exact Hp|]. split; [exact Hq|].
  exact (valid_iff_both_pixels_in_image ex_cf_two ex_zero ex_zero 0%nat
           (1, 1)%Z (1, 1)%Z Hp Hq).
Defined.

Lemma wf_ex_kf_two : wf_keyframe ex_kf_two 2.
Proof. repeat split. Qed.

Lemma invalid_points_hold_mean_of_valid_witness :
  valid_of ex_cf_two ex_zero ex_zero = [255%Z; 0%Z]
  /\ exists out,
       CostFunctor_operator ex_cf_two T_float ex_junk ex_junk ex_zero ex_zero
         = ReturnTrue out
       /\ length out = 2%nat
       /\ under_mask out (valid_of ex_cf_two ex_zero ex_zero) =
          under_mask (rhos saturated_color_error ex_cf_two ex_zero ex_zero)
            (valid_of ex_cf_two ex_zero ex_zero)
       /\ forall i, valid_of ex_cf_two ex_zero ex_zero !! i = Some 0%Z ->
            out !! i =
            Some (arithmetic_mean
                    (under_mask out (valid_of ex_cf_two ex_zero ex_zero))).
Proof.
  split; [vm_compute; reflexivity|].
  apply (invalid_points_hold_mean_of_valid ex_cf_two T_float ex_junk ex_junk
           ex_zero ex_zero 2).
  - discriminate.
  - exact wf_ex_kf_two.
  - vm_compute. apply Exists_cons_hd. discriminate.
Defined.

Lemma all_invalid_returns_zero_vector_witness :
  valid_of ex_cf_two ex_zero (100, 0, 0) = [0%Z; 0%Z]
  /\ CostFunctor_operator ex_cf_two T_double ex_junk ex_junk ex_zero
       (100, 0, 0) = ReturnTrue (replicate 2 f_zero).
Proof.
  split; [vm_compute; reflexivity|].
  apply (all_invalid_returns_zero_vector ex_cf_two T_double ex_junk ex_junk
           ex_zero (100, 0, 0) 2).
  - discriminate.
  - exact wf_ex_kf_two.
  - vm_compute. repeat constructor.
Defined.

End Runs.

Lemma larger_noise_variance_never_raises_cost_witness :
  exists out1 out2,
    CostFunctor_operator
      (mkCostFunctor ex_im ex_kf_real (mInvK ex_kf_real) (mInvK ex_kf_real)
         1%R) T_double ex_junk ex_junk (0, 0, 0)%R (0, 0, 0)%R
      = ReturnTrue out1
    /\ CostFunctor_operator
         (mkCostFunctor ex_im ex_kf_real (mInvK ex_kf_real) (mInvK ex_kf_real)
            2%R) T_double ex_junk ex_junk (0, 0, 0)%R (0, 0, 0)%R
       = ReturnTrue out2
    /\ Forall2 (fun x y => (Rabs y <= Rabs x)%R) out1 out2
    /\ Forall2 (fun x y => (Rabs y <= Rabs x)%R)
         (rhos saturated_color_error
            (mkCostFunctor ex_im ex_kf_real (mInvK ex_kf_real)
               (mInvK ex_kf_real) 1%R) (0, 0, 0)%R (0, 0, 0)%R)
         (rhos saturated_color_error
            (mkCostFunctor ex_im ex_kf_real (mInvK ex_kf_real)
               (mInvK ex_kf_real) 2%R) (0, 0, 0)%R (0, 0, 0)%R)
    /\ (cv_sum (col_pow2 out2) <= cv_sum (col_pow2 out1))%R.
Proof.
  apply (larger_noise_variance_never_raises_cost ex_im ex_kf_real
           (mInvK ex_kf_real) (mInvK ex_kf_real) 1%R 2%R T_double
           ex_junk ex_junk ex_junk ex_junk (0, 0, 0)%R (0, 0, 0)%R 1).
  - discriminate.
  - repeat split.
  - lra.
Defined.

(** * Further properties of the residual model *)

Section MoreOnTheFunctor.

Context {F : Type} `{Numeric F}.

Local Open Scope num_scope.

(** The vector the functor emits does not depend on what the fresh pixel
    buffers hold before the sampling loop fills them. *)
Theorem residual_ignores_uninitialised_buffers (cf : CostFunctor F)
    (T : scalar_type) (junk1 junkRight1 junk2 junkRight2 : nat -> Vec3b)
    (r t : Vec3 F) (N : nat) :
  wf_keyframe (pReferenceKF cf) N ->
  CostFunctor_operator cf T junk1 junkRight1 r t =
  CostFunctor_operator cf T junk2 junkRight2 r t.
Proof.
  intros Hwf. destruct (cv_type_of T) as [d|] eqn:Hd.
  - destruct (CostFunctor_operator_entries cf T d junk1 junkRight1 r t N Hd Hwf)
      as (out1 & -> & Hlen1 & Hout1).
    destruct (CostFunctor_operator_entries cf T d junk2 junkRight2 r t N Hd Hwf)
      as (out2 & -> & Hlen2 & Hout2).
    pose proof (length_valid_of cf r t N Hwf) as Hv.
    f_equal. apply list_eq. intros i.
    destruct (valid_of cf r t !! i) as [m|] eqn:Hm.
    + rewrite (Hout1 i m Hm), (Hout2 i m Hm). reflexivity.
    + apply lookup_ge_None in Hm.
      rewrite (proj2 (lookup_ge_None out1 i)) by lia.
      rewrite (proj2 (lookup_ge_None out2 i)) by lia. reflexivity.
  - unfold CostFunctor_operator. rewrite Hd. reflexivity.
Qed.

(** The entry of a valid point, as the functor computes it: the colour
    error at the primary pixel over the root of the squared difference of the
    two colour errors plus twice the noise variance, where a colour error is
    the norm of the channel differences saturated to [[0, 255]]. *)
Theorem valid_point_residual_as_computed (cf : CostFunctor F)
    (T : scalar_type) (junk junkRight : nat -> Vec3b) (r t : Vec3 F)
    (N i : nat) (c : Vec3b) (p q : Z * Z) :
  T <> T_other ->
  wf_keyframe (pReferenceKF cf) N ->
  mHighGradPtPixels (pReferenceKF cf) !! i = Some c ->
  proj2d_of cf r t !! i = Some p ->
  proj2dRight_of cf r t !! i = Some q ->
  in_image (imColor cf) p -> in_image (imColor cf) q ->
  exists out,
    CostFunctor_operator cf T junk junkRight r t = ReturnTrue out
    /\ out !! i =
       Some (normalized (saturated_color_error c (sample (imColor cf) p))
               (saturated_color_error c (sample (imColor cf) q))
               (cameraPixelNoise2 cf)).
Proof.
  intros HT Hwf Hc Hp Hq Hip Hiq.
  destruct (supported_type T HT) as [d Hd].
  destruct (CostFunctor_operator_entries cf T d junk junkRight r t N Hd Hwf)
    as (out & Hrun & Hlen & Hout).
  exists out. split; [exact Hrun|].
  assert (Hm : valid_of cf r t !! i = Some (both_in_image (imColor cf) p q)).
  { unfold valid_of. rewrite valid_mask_zip, lookup_zip_with, Hp, Hq.
    reflexivity. }
  rewrite (Hout _ _ Hm).
  destruct (Z.eqb_spec (both_in_image (imColor cf) p q) 0) as [Hz|_].
  - exfalso. apply (both_in_image_nonzero (imColor cf) p q); auto.
  - rewrite (rhos_lookup _ _ _ _ _ _ _ Hp Hq), Hc. reflexivity.
Qed.

Lemma saturated_color_error_covers (c s : Vec3b) :
  covers c s -> saturated_color_error c s = L2_color_error (F := F) c s.
Proof.
  destruct c as [[c0 c1] c2], s as [[s0 s1] s2].
  intros (H0 & H1 & H2).
  unfold saturated_color_error, L2_color_error, vec3b_sub,
    saturate_cast_uchar.
  rewrite !Z.min_r, !Z.max_r by lia. reflexivity.
Qed.

(** Where neither sampled colour is brighter than the reference colour in
    any channel, the entry of a valid point is the normalized residual of
    the L2 colour errors. *)
Theorem valid_point_residual_is_L2_when_reference_covers
    (cf : CostFunctor F) (T : scalar_type) (junk junkRight : nat -> Vec3b)
    (r t : Vec3 F) (N i : nat) (c : Vec3b) (p q : Z * Z) :
  T <> T_other ->
  wf_keyframe (pReferenceKF cf) N ->
  mHighGradPtPixels (pReferenceKF cf) !! i = Some c ->
  proj2d_of cf r t !! i = Some p ->
  proj2dRight_of cf r t !! i = Some q ->
  in_image (imColor cf) p -> in_image (imColor cf) q ->
  covers c (sample (imColor cf) p) -> covers c (sample (imColor cf) q) ->
  exists out,
    CostFunctor_operator cf T junk junkRight r t = ReturnTrue out
    /\ out !! i = Some (rho L2_color_error cf c p q).
Proof.
  intros HT Hwf Hc Hp Hq Hip Hiq Hcp Hcq.
  destruct (supported_type T HT) as [d Hd].
  destruct (CostFunctor_operator_entries cf T d junk junkRight r t N Hd Hwf)
    as (out & Hrun & Hlen & Hout).
  exists out. split; [exact Hrun|].
  assert (Hm : valid_of cf r t !! i = Some (both_in_image (imColor cf) p q)).
  { unfold valid_of. rewrite valid_mask_zip, lookup_zip_with, Hp, Hq.
    reflexivity. }
  rewrite (Hout _ _ Hm).
  destruct (Z.eqb_spec (both_in_image (imColor cf) p q) 0) as [Hz|_].
  - exfalso. apply (both_in_image_nonzero (imColor cf) p q); auto.
  - rewrite (rhos_lookup _ _ _ _ _ _ _ Hp Hq), Hc. cbn [fmap option_fmap option_map].
    unfold rho.
    rewrite (saturated_color_error_covers _ _ Hcp),
      (saturated_color_error_covers _ _ Hcq). reflexivity.
Qed.

End MoreOnTheFunctor.

(** * Further properties of the driver *)

Lemma ratio_mask_map (im : Image) (P : list (Z * Z)) :
  band (band (band (cmp_ge (col_0 P) 0) (cmp_lt (col_0 P) (rows im)))
          (cmp_ge (col_1 P) 0)) (cmp_lt (col_1 P) (cols im)) =
  map (ratio_test im) P.
Proof.
  induction P as [|p P IH]; [reflexivity|].
  change (col_0 (p :: P)) with (fst p :: col_0 P).
  change (col_1 (p :: P)) with (snd p :: col_1 P).
  rewrite !cmp_ge_cons, !cmp_lt_cons, !band_cons, IH.
  cbn [map]. f_equal. unfold ratio_test.
  destruct (0 <=? fst p), (fst p <? rows im), (0 <=? snd p),
    (snd p <? cols im); reflexivity.
Qed.

Lemma cv_sum_8U_bounds (g : Z * Z -> Z) (P : list (Z * Z)) :
  (forall p, g p = 0 \/ g p = 255) ->
  0 <= cv_sum_8U (map g P) <= 255 * Z.of_nat (length P).
Proof.
  intros Hg. unfold cv_sum_8U.
  assert (Hgen : forall a, a <= foldl Z.add a (map g P)
                           <= a + 255 * Z.of_nat (length P)).
  { induction P as [|p P IH]; intros a; cbn [map foldl length]; [lia|].
    specialize (IH (a + g p)). destruct (Hg p) as [Hp|Hp]; rewrite Hp in *; lia. }
  specialize (Hgen 0). lia.
Qed.

Section MoreOnTheDriver.

Context {F : Type} `{Numeric F}.
Context (TRACKING_NUM_PT : Z) (TRACKING_HUBER_DELTA : F).
Context (Solve : (Vec3 F -> Vec3 F -> eval_result F) -> F -> F ->
                 Vec3 F -> Vec3 F -> Vec3 F * Vec3 F * F).

Local Open Scope num_scope.

(** The relative transform the driver assembles entry by entry is the one
    [TFromRt] of [Landmark.h] builds, whenever the scalar type converts the
    integer 1 to its unit: [Tcw] is [TFromRt] of the solved rotation and
    translation, times the pose of the keyframe. *)
Theorem Tcw_is_TFromRt_times_keyframe_pose (m : Memory F)
    (cameraPixelNoise2 max_seconds : F) (rotAngle transDist validRatio : bool)
    (junk junkRight : nat -> Vec3b) :
  f_of_Z 1 = f_one ->
  let cost_function :=
    CostFunctor_operator
      (mkCostFunctor (mem_imColor m) (mem_pRefKF m) (mem_K m) (mem_invK m)
         cameraPixelNoise2) T_double junk junkRight in
  let solved :=
    Solve cost_function TRACKING_HUBER_DELTA max_seconds
      (f_of_Z 0, f_of_Z 0, f_of_Z 0) (f_of_Z 0, f_of_Z 0, f_of_Z 0) in
  mem_Tcw
    (snd (EstimateCameraPose TRACKING_NUM_PT TRACKING_HUBER_DELTA Solve m
            cameraPixelNoise2 max_seconds rotAngle transDist validRatio
            junk junkRight)) =
  mat44_mul (TFromRt (Rodrigues (fst (fst solved))) (snd (fst solved)))
    (GetPose (mem_pRefKF m)).
Proof.
  intros Hone. cbv zeta. unfold EstimateCameraPose.
  destruct (Solve _ _ _ _ _) as [[rel_r [[tx ty] tz]] final_cost].
  cbn [fst snd]. unfold TFromRt.
  destruct (Rodrigues rel_r) as [[[[a b] c] [[d e] f]] [[g h] i]].
  destruct rotAngle, transDist, validRatio; cbn; rewrite Hone; reflexivity.
Qed.

End MoreOnTheDriver.

(** Equal tuples of real polynomials, entry by entry. *)
Ltac tuple_ring :=
  repeat match goal with |- (_, _) = (_, _) => f_equal end; ring.

Section OverTheReals.

Context (TRACKING_NUM_PT : Z) (TRACKING_HUBER_DELTA : R).
Context (Solve : (Vec3 R -> Vec3 R -> eval_result R) -> R -> R ->
                 Vec3 R -> Vec3 R -> Vec3 R * Vec3 R * R).

Local Open Scope R_scope.

Lemma normalized_nonneg (res resShift noise : R) :
  0 <= res -> 0 < noise -> 0 <= normalized res resShift noise.
Proof.
  intros Hres Hn.
  destruct (normalized_antitone res resShift noise noise Hres) as [H0 _];
    [lra|exact H0].
Qed.

(** With a positive noise variance no entry of the emitted vector is
    negative: the residuals carry magnitudes only. *)
Theorem residuals_are_nonnegative (cf : CostFunctor R) (T : scalar_type)
    (junk junkRight : nat -> Vec3b) (r t : Vec3 R) (N : nat) :
  T <> T_other ->
  wf_keyframe (pReferenceKF cf) N ->
  0 < cameraPixelNoise2 cf ->
  exists out,
    CostFunctor_operator cf T junk junkRight r t = ReturnTrue out
    /\ Forall (fun x => 0 <= x) out.
Proof.
  intros HT Hwf Hn.
  destruct (supported_type T HT) as [d Hd].
  destruct (CostFunctor_operator_entries cf T d junk junkRight r t N Hd Hwf)
    as (out & Hrun & Hlen & Hout).
  pose proof (length_valid_of cf r t N Hwf) as Hv.
  assert (Hrho : Forall2 (fun x y => 0 <= y <= x)
                   (rhos saturated_color_error cf r t)
                   (rhos saturated_color_error cf r t)).
  { unfold rhos. apply Forall2_zip_with_same. intros c pq. unfold rho.
    split; [|lra].
    apply normalized_nonneg; [apply saturated_color_error_nonneg|exact Hn]. }
  exists out. split; [exact Hrun|].
  apply Forall_lookup. intros i x Hx.
  destruct (lookup_lt_is_Some_2 (valid_of cf r t) i) as [m Hm].
  { apply lookup_lt_Some in Hx. lia. }
  rewrite (Hout i m Hm) in Hx. destruct (m =? 0)%Z.
  - injection Hx as <-. apply (cv_mean_antitone _ _ _ Hrho).
  - destruct (Forall2_lookup_lr _ _ _ _ _ _ Hrho Hx Hx) as [H0 _]. exact H0.
Qed.

(** For a keyframe with at least one point, the [validRatio] written by the
    driver lies between 0 and 1. *)
Theorem validRatio_is_between_0_and_1 (m : Memory R)
    (cameraPixelNoise2 max_seconds : R) (rotAngle transDist : bool)
    (junk junkRight : nat -> Vec3b) (N : nat) :
  wf_keyframe (mem_pRefKF m) N ->
  (0 < N)%nat ->
  0 <= mem_validRatio
         (snd (EstimateCameraPose TRACKING_NUM_PT TRACKING_HUBER_DELTA Solve m
                 cameraPixelNoise2 max_seconds rotAngle transDist true
                 junk junkRight)) <= 1.
Proof.
  intros (_ & Hh & Hd & _) HN. unfold EstimateCameraPose.
  destruct (Solve _ _ _ _ _) as [[rel_r rel_t] final_cost].
  cbv zeta. cbn [snd mem_validRatio set_validRatio].
  set (P := convertTo_32S _).
  assert (HP : length P = N).
  { unfold P, convertTo_32S, mat_ediv2, colRange_0_2, repeat_cols2, col_2,
      mat_mul, mat_add, mat_emul, repeat_cols3, repeat_rows.
    repeat (rewrite ?length_map, ?length_zip_with, ?length_replicate).
    rewrite Hh, Hd. lia. }
  change (bitwise_and
            (bitwise_and
               (bitwise_and (cmp_ge (col_0 P) 0)
                  (cmp_lt (col_0 P) (rows (mem_imColor m)))
                  (cmp_ge (col_0 P) 0) (cmp_ge (col_0 P) 0))
               (cmp_ge (col_1 P) 0) _ _)
            (cmp_lt (col_1 P) (cols (mem_imColor m))) _ _)
    with (band (band (band (cmp_ge (col_0 P) 0)
                        (cmp_lt (col_0 P) (rows (mem_imColor m))))
                  (cmp_ge (col_1 P) 0))
            (cmp_lt (col_1 P) (cols (mem_imColor m)))).
  rewrite ratio_mask_map, length_map, HP.
  destruct (cv_sum_8U_bounds (ratio_test (mem_imColor m)) P) as [Hlo Hhi].
  { intros p. unfold ratio_test. destruct (_ && _); auto. }
  rewrite HP in Hhi. cbn [f_div f_of_Z R_Numeric].
  set (s := cv_sum_8U _) in *.
  assert (HNpos : 0 < IZR (Z.of_nat N)) by (apply IZR_lt; lia).
  assert (Hs0 : 0 <= IZR s) by (apply IZR_le; exact Hlo).
  assert (Hs1 : IZR s <= 255 * IZR (Z.of_nat N)).
  { rewrite <- mult_IZR. apply IZR_le. exact Hhi. }
  assert (Hinv : 0 < / IZR (Z.of_nat N)) by (apply Rinv_0_lt_compat; exact HNpos).
  unfold Rdiv. split.
  - apply Rmult_le_pos; [|lra]. apply Rmult_le_pos; lra.
  - apply (Rmult_le_reg_r (IZR (Z.of_nat N))); [exact HNpos|].
    rewrite Rmult_assoc, Rinv_l by lra. lra.
Qed.

(** The last row of [Tcw] is the last row of the keyframe's pose: composing
    with the relative transform keeps a homogeneous pose homogeneous. *)
Theorem Tcw_keeps_the_bottom_row (m : Memory R)
    (cameraPixelNoise2 max_seconds : R) (rotAngle transDist validRatio : bool)
    (junk junkRight : nat -> Vec3b) :
  bottom_row
    (mem_Tcw
       (snd (EstimateCameraPose TRACKING_NUM_PT TRACKING_HUBER_DELTA Solve m
               cameraPixelNoise2 max_seconds rotAngle transDist validRatio
               junk junkRight))) =
  bottom_row (GetPose (mem_pRefKF m)).
Proof.
  unfold EstimateCameraPose.
  destruct (Solve _ _ _ _ _) as [[rel_r [[tx ty] tz]] final_cost].
  destruct (Rodrigues rel_r) as [[[[a b] c] [[d e] f]] [[g h] i]].
  destruct (GetPose (mem_pRefKF m))
    as [[[[[[p00 p01] p02] p03] [[[p10 p11] p12] p13]]
         [[[p20 p21] p22] p23]] [[[p30 p31] p32] p33]].
  destruct rotAngle, transDist, validRatio; cbn; tuple_ring.
Qed.

Lemma R_Rodrigues_zero :
  R_Rodrigues (0, 0, 0) = ((1, 0, 0), (0, 1, 0), (0, 0, 1)).
Proof.
  unfold R_Rodrigues.
  replace (0 * 0 + 0 * 0 + 0 * 0) with 0 by ring. rewrite sqrt_0.
  destruct (Req_EM_T 0 0); [reflexivity|congruence].
Qed.

(** When the optimizer ends at the zero rotation vector and the zero
    translation, the pose written is the pose of the keyframe, and the
    rotation angle and the translation distance are 0. *)
Theorem no_motion_returns_keyframe_pose (m : Memory R)
    (cameraPixelNoise2 max_seconds final_cost : R) (validRatio : bool)
    (junk junkRight : nat -> Vec3b) :
  Solve
    (CostFunctor_operator
       (mkCostFunctor (mem_imColor m) (mem_pRefKF m) (mem_K m) (mem_invK m)
          cameraPixelNoise2) T_double junk junkRight)
    TRACKING_HUBER_DELTA max_seconds (0, 0, 0) (0, 0, 0)
  = ((0, 0, 0), (0, 0, 0), final_cost) ->
  let m' :=
    snd (EstimateCameraPose TRACKING_NUM_PT TRACKING_HUBER_DELTA Solve m
           cameraPixelNoise2 max_seconds true true validRatio junk junkRight) in
  mem_Tcw m' = GetPose (mem_pRefKF m)
  /\ mem_rotAngle m' = 0
  /\ mem_transDist m' = 0.
Proof.
  intros Hsolve. cbv zeta. unfold EstimateCameraPose.
  cbn [f_of_Z R_Numeric]. rewrite Hsolve.
  cbn [Rodrigues R_Numeric]. rewrite R_Rodrigues_zero.
  destruct (GetPose (mem_pRefKF m))
    as [[[[[[p00 p01] p02] p03] [[[p10 p11] p12] p13]]
         [[[p20 p21] p22] p23]] [[[p30 p31] p32] p33]].
  assert (Hangle : RotationAngle (F := R) ((1, 0, 0), (0, 1, 0), (0, 0, 1)) = 0).
  { unfold RotationAngle, trace. cbn.
    replace ((1 + 1 + 1 - 1) / 2) with 1 by lra. apply acos_1. }
  assert (Hdist : TranslationDist (F := R) (0, 0, 0) = 0).
  { unfold TranslationDist. cbn.
    replace (0 * 0 + 0 * 0 + 0 * 0) with 0 by ring. apply sqrt_0. }
  destruct validRatio; cbn [snd fst mem_Tcw mem_rotAngle mem_transDist
    set_Tcw set_rotAngle set_transDist set_validRatio zeros44 copyTo_block33
    mat44_set vec4_set col3_rowRange_0_3 f_zero R_Numeric];
    (split; [|split; [exact Hangle|exact Hdist]]);
    cbn; tuple_ring.
Qed.

Lemma RotationAngle_of_Rodrigues (r : Vec3 R) :
  norm3 r <= PI -> RotationAngle (R_Rodrigues r) = norm3 r.
Proof.
  destruct r as [[x y] z]. unfold norm3, R_Rodrigues, RotationAngle.
  set (theta := sqrt (x * x + y * y + z * z)). intros Hpi.
  assert (Hpos : 0 <= theta) by apply sqrt_pos.
  destruct (Req_EM_T theta 0) as [H0|Hne].
  - unfold trace. cbn. rewrite H0.
    replace ((1 + 1 + 1 - 1) / 2) with 1 by lra. apply acos_1.
  - assert (Hsq : theta * theta = x * x + y * y + z * z).
    { apply sqrt_sqrt.
      pose proof (Rle_0_sqr x). pose proof (Rle_0_sqr y).
      pose proof (Rle_0_sqr z). unfold Rsqr in *. lra. }
    assert (Hk : x / theta * (x / theta) + y / theta * (y / theta)
                 + z / theta * (z / theta) = 1).
    { replace (x / theta * (x / theta) + y / theta * (y / theta)
               + z / theta * (z / theta))
        with ((x * x + y * y + z * z) / (theta * theta))
        by (field; exact Hne).
      rewrite <- Hsq. field. exact Hne. }
    unfold trace. cbn.
    replace ((cos theta + (1 - cos theta) * (x / theta) * (x / theta)
              + (cos theta + (1 - cos theta) * (y / theta) * (y / theta))
              + (cos theta + (1 - cos theta) * (z / theta) * (z / theta))
              - 1) / 2)
      with ((3 * cos theta
             + (1 - cos theta)
               * (x / theta * (x / theta) + y / theta * (y / theta)
                  + z / theta * (z / theta)) - 1) / 2) by (field; exact Hne).
    rewrite Hk. replace ((3 * cos theta + (1 - cos theta) * 1 - 1) / 2)
      with (cos theta) by field.
    apply acos_cos. lra.
Qed.

(** The diagnostics are norms of the solved parameters: the translation
    distance is the norm of the translation, and the rotation angle, for a
    rotation vector of norm at most pi, is the norm of the rotation
    vector. *)
Theorem rotation_angle_is_norm_of_rotation_vector (m : Memory R)
    (cameraPixelNoise2 max_seconds : R) (validRatio : bool)
    (junk junkRight : nat -> Vec3b) :
  let solved :=
    Solve
      (CostFunctor_operator
         (mkCostFunctor (mem_imColor m) (mem_pRefKF m) (mem_K m) (mem_invK m)
            cameraPixelNoise2) T_double junk junkRight)
      TRACKING_HUBER_DELTA max_seconds (0, 0, 0) (0, 0, 0) in
  norm3 (fst (fst solved)) <= PI ->
  let m' :=
    snd (EstimateCameraPose TRACKING_NUM_PT TRACKING_HUBER_DELTA Solve m
           cameraPixelNoise2 max_seconds true true validRatio junk junkRight) in
  mem_rotAngle m' = norm3 (fst (fst solved))
  /\ mem_transDist m' = norm3 (snd (fst solved)).
Proof.
  cbv zeta. unfold EstimateCameraPose. cbn [f_of_Z R_Numeric].
  destruct (Solve _ _ _ _ _) as [[rel_r [[tx ty] tz]] final_cost].
  cbn [fst snd]. intros Hpi.
  pose proof (RotationAngle_of_Rodrigues rel_r Hpi) as Hangle.
  cbn [Rodrigues R_Numeric].
  destruct (R_Rodrigues rel_r) as [[[[a b] c] [[d e] f]] [[g h] i]].
  destruct validRatio; cbn [snd fst mem_rotAngle mem_transDist
    set_Tcw set_rotAngle set_transDist set_validRatio zeros44 copyTo_block33
    mat44_set vec4_set col3_rowRange_0_3]; (split; [exact Hangle|reflexivity]).
Qed.

(** Rigid transforms compose: the product of two [TFromRt] matrices is the
    [TFromRt] of the product of the rotations and of the second translation
    rotated by the first rotation plus the first translation. *)
Theorem TFromRt_composes (R1 R2 : Mat33 R) (t1 t2 : Vec3 R) :
  mat44_mul (TFromRt R1 t1) (TFromRt R2 t2) =
  TFromRt (mat33_mul R1 R2) (vec3_zip Rplus (mat33_apply R1 t2) t1).
Proof.
  destruct R1 as [[[[a b] c] [[d e] f]] [[g h] i]].
  destruct R2 as [[[[a' b'] c'] [[d' e'] f']] [[g' h'] i']].
  destruct t1 as [[x y] z], t2 as [[x' y'] z'].
  cbn. tuple_ring.
Qed.

End OverTheReals.

(** * The helpers of [Landmark.h] and [Cuboid.h], over the real numbers *)

Section GeometryOverTheReals.

Local Open Scope R_scope.

Lemma DistanceSquare_nonneg (p q : R * R) : 0 <= DistanceSquare p q.
Proof.
  unfold DistanceSquare, pow2. cbn.
  pose proof (Rle_0_sqr (fst p - fst q)) as Hx.
  pose proof (Rle_0_sqr (snd p - snd q)) as Hy.
  unfold Rsqr in *. lra.
Qed.

(** The square of [Distance] is [DistanceSquare], which is never
    negative. *)
Theorem Distance_squared_is_DistanceSquare (p q : R * R) :
  Distance p q * Distance p q = DistanceSquare p q
  /\ 0 <= DistanceSquare p q.
Proof.
  split; [|apply DistanceSquare_nonneg].
  unfold Distance. cbn [f_sqrt R_Numeric].
  apply sqrt_sqrt, DistanceSquare_nonneg.
Qed.

Lemma Distance_triangle (p q s : R * R) :
  Distance p s <= Distance p q + Distance q s.
Proof.
  unfold Distance, DistanceSquare, pow2. cbn.
  set (a1 := fst p - fst q). set (a2 := snd p - snd q).
  set (b1 := fst q - fst s). set (b2 := snd q - snd s).
  replace (fst p - fst s) with (a1 + b1) by (unfold a1, b1; ring).
  replace (snd p - snd s) with (a2 + b2) by (unfold a2, b2; ring).
  pose proof (Rle_0_sqr a1) as Ha1. pose proof (Rle_0_sqr a2) as Ha2.
  pose proof (Rle_0_sqr b1) as Hb1. pose proof (Rle_0_sqr b2) as Hb2.
  pose proof (Rle_0_sqr (a1 + b1)) as Hc1.
  pose proof (Rle_0_sqr (a2 + b2)) as Hc2.
  pose proof (sqrt_cauchy a1 a2 b1 b2) as Hcs.
  unfold Rsqr in *.
  pose proof (sqrt_pos (a1 * a1 + a2 * a2)) as Hu.
  pose proof (sqrt_pos (b1 * b1 + b2 * b2)) as Hv.
  pose proof (sqrt_sqrt (a1 * a1 + a2 * a2)) as Huu.
  pose proof (sqrt_sqrt (b1 * b1 + b2 * b2)) as Hvv.
  pose proof (sqrt_sqrt ((a1 + b1) * (a1 + b1) + (a2 + b2) * (a2 + b2)))
    as Hww.
  set (u := sqrt (a1 * a1 + a2 * a2)) in *.
  set (v := sqrt (b1 * b1 + b2 * b2)) in *.
  set (w := sqrt ((a1 + b1) * (a1 + b1) + (a2 + b2) * (a2 + b2))) in *.
  apply Rsqr_incr_0_var; [|lra]. unfold Rsqr.
  replace ((u + v) * (u + v)) with (u * u + v * v + 2 * (u * v)) by ring.
  rewrite Hww, Huu, Hvv by lra.
  replace ((a1 + b1) * (a1 + b1) + (a2 + b2) * (a2 + b2))
    with (a1 * a1 + a2 * a2 + (b1 * b1 + b2 * b2)
          + 2 * (a1 * b1 + a2 * b2)) by ring.
  lra.
Qed.

(** [Distance] is a metric: symmetric, zero exactly between equal points,
    and subject to the triangle inequality. *)
Theorem Distance_is_a_metric (p q s : R * R) :
  Distance p q = Distance q p
  /\ (Distance p q = 0 <-> p = q)
  /\ Distance p s <= Distance p q + Distance q s.
Proof.
  split; [|split; [|apply Distance_triangle]].
  - unfold Distance, DistanceSquare, pow2. cbn. f_equal. ring.
  - split.
    + intros H0. apply sqrt_eq_0 in H0; [|apply DistanceSquare_nonneg].
      unfold DistanceSquare, pow2 in H0. cbn in H0.
      pose proof (Rle_0_sqr (fst p - fst q)) as Hx.
      pose proof (Rle_0_sqr (snd p - snd q)) as Hy.
      unfold Rsqr in *.
      assert (Hx0 : (fst p - fst q) * (fst p - fst q) = 0) by lra.
      assert (Hy0 : (snd p - snd q) * (snd p - snd q) = 0) by lra.
      apply Rsqr_0_uniq in Hx0. apply Rsqr_0_uniq in Hy0.
      destruct p, q. cbn in *. f_equal; lra.
    + intros <-. unfold Distance, DistanceSquare, pow2. cbn.
      replace ((fst p - fst p) * (fst p - fst p)
               + (snd p - snd p) * (snd p - snd p)) with 0 by ring.
      apply sqrt_0.
Qed.

(** [IsParallel] has no absolute value: of the two orientations of the
    second line at least one is reported parallel, whatever the lines. *)
Theorem IsParallel_holds_in_one_orientation (A B C D : R * R) :
  IsParallel A B C D = true \/ IsParallel A B D C = true.
Proof.
  unfold IsParallel. cbn.
  destruct (Rlt_dec _ _) as [|Hn1]; [left; reflexivity|].
  destruct (Rlt_dec _ _) as [|Hn2]; [right; reflexivity|].
  exfalso. apply Rnot_lt_le in Hn1. apply Rnot_lt_le in Hn2.
  assert (0 < 1 / 1000000) by lra. lra.
Qed.

(** When the direction vectors of the two lines are not parallel,
    [LineIntersection] returns a point that lies on both lines, and it is
    the only such point. *)
Theorem LineIntersection_is_the_common_point (A B C D : R * R) :
  (snd B - snd A) * (fst C - fst D) - (snd D - snd C) * (fst A - fst B) <> 0 ->
  on_line A B (LineIntersection A B C D)
  /\ on_line C D (LineIntersection A B C D)
  /\ forall Q, on_line A B Q -> on_line C D Q -> Q = LineIntersection A B C D.
Proof.
  intros Hdet. unfold LineIntersection. cbv zeta. cbn.
  destruct (Req_EM_T _ 0) as [H0|_]; [contradiction|].
  unfold on_line. cbn [fst snd]. split; [field; exact Hdet|].
  split; [field; exact Hdet|].
  intros [qx qy] HQ1 HQ2. cbn [fst snd] in HQ1, HQ2.
  set (a1 := snd B - snd A) in *. set (b1 := fst A - fst B) in *.
  set (a2 := snd D - snd C) in *. set (b2 := fst C - fst D) in *.
  set (c1 := a1 * fst A + b1 * snd A). set (c2 := a2 * fst C + b2 * snd C).
  assert (H1 : a1 * qx + b1 * qy = c1).
  { unfold c1, b1 in *. replace (fst B - fst A) with (- (fst A - fst B)) in HQ1
      by ring. lra. }
  assert (H2 : a2 * qx + b2 * qy = c2).
  { unfold c2, b2 in *. replace (fst D - fst C) with (- (fst C - fst D)) in HQ2
      by ring. lra. }
  f_equal.
  - apply (Rmult_eq_reg_l (a1 * b2 - a2 * b1)); [|exact Hdet].
    replace ((a1 * b2 - a2 * b1) * qx)
      with (b2 * (a1 * qx + b1 * qy) - b1 * (a2 * qx + b2 * qy)) by ring.
    rewrite H1, H2. field. exact Hdet.
  - apply (Rmult_eq_reg_l (a1 * b2 - a2 * b1)); [|exact Hdet].
    replace ((a1 * b2 - a2 * b1) * qy)
      with (a1 * (a2 * qx + b2 * qy) - a2 * (a1 * qx + b1 * qy)) by ring.
    rewrite H1, H2. field. exact Hdet.
Qed.

(** When the direction vectors of the two lines have a zero cross product
    (parallel or coincident lines, or a line given by twice the same point),
    [LineIntersection] divides by nothing and returns the pair of [FLT_MAX],
    and [IsParallel] agrees that the lines are parallel. *)
Theorem LineIntersection_of_parallel_lines (A B C D : R * R) :
  (fst B - fst A) * (snd D - snd C) = (snd B - snd A) * (fst D - fst C) ->
  LineIntersection A B C D = (FLT_MAX, FLT_MAX)
  /\ IsParallel A B C D = true.
Proof.
  intros Hcross. split.
  - unfold LineIntersection. cbv zeta. cbn.
    destruct (Req_EM_T _ 0) as [_|Hn]; [reflexivity|]. exfalso. apply Hn. lra.
  - unfold IsParallel. cbn.
    destruct (Rlt_dec _ _) as [_|Hn]; [reflexivity|]. exfalso. apply Hn. lra.
Qed.

(** For a line that is not vertical, [LineIntersectionX] returns the point
    of the line at the abscissa asked for; at the abscissas of [A] and of [B]
    these are [A] and [B]. *)
Theorem LineIntersectionX_is_on_the_line (A B : R * R) (x : R) :
  fst A <> fst B ->
  on_line A B (LineIntersectionX A B x)
  /\ fst (LineIntersectionX A B x) = x
  /\ LineIntersectionX A B (fst A) = A
  /\ LineIntersectionX A B (fst B) = B.
Proof.
  intros Hx. assert (Hd : fst B - fst A <> 0) by lra.
  destruct A as [ax ay], B as [bx b_y]. unfold LineIntersectionX, on_line.
  cbn in *. repeat split; try (f_equal; field; exact Hd). field. exact Hd.
Qed.

(** For a line that is not horizontal, [LineIntersectionY] returns the
    point of the line at the ordinate asked for; at the ordinates of [A] and
    of [B] these are [A] and [B]. *)
Theorem LineIntersectionY_is_on_the_line (A B : R * R) (y : R) :
  snd A <> snd B ->
  on_line A B (LineIntersectionY A B y)
  /\ snd (LineIntersectionY A B y) = y
  /\ LineIntersectionY A B (snd A) = A
  /\ LineIntersectionY A B (snd B) = B.
Proof.
  intros Hy. assert (Hd : snd B - snd A <> 0) by lra.
  destruct A as [ax ay], B as [bx b_y]. unfold LineIntersectionY, on_line.
  cbn in *. repeat split; try (f_equal; field; exact Hd). field. exact Hd.
Qed.

End GeometryOverTheReals.

Section PointFrom2DHomoOverTheReals.

Local Open Scope R_scope.

Lemma f_max_bounds (a b : R) : a <= f_max a b /\ b <= f_max a b.
Proof. unfold f_max. cbn. destruct (Rlt_dec a b); lra. Qed.

(** The branches of [PointFrom2DHomo], with what each one knows. *)
Lemma PointFrom2DHomo_cases (X Y Z : R) :
  ~ (X = 0 /\ Y = 0 /\ Z = 0) ->
  (1 <= Rabs Z /\ Z <> 0
   /\ PointFrom2DHomo (X, Y, Z) = (X / Z, Y / Z))
  \/ (Rabs Z < 1 /\ Z <> 0 /\ Rabs X < 1000000 * Rabs Z
      /\ Rabs Y < 1000000 * Rabs Z
      /\ PointFrom2DHomo (X, Y, Z) = (X / Z, Y / Z))
  \/ (Rabs Z < 1 /\ Rabs Y < Rabs X /\ X <> 0
      /\ exists x, (x = 1000000 \/ x = -1000000)
           /\ PointFrom2DHomo (X, Y, Z) = (x, x * (Y / X)))
  \/ (Rabs Z < 1 /\ Rabs X <= Rabs Y /\ Y <> 0
      /\ exists y, (y = 1000000 \/ y = -1000000)
           /\ PointFrom2DHomo (X, Y, Z) = (y * (X / Y), y)).
Proof.
  intros Hnz. unfold PointFrom2DHomo. cbn.
  pose proof (Rabs_pos X) as HX. pose proof (Rabs_pos Y) as HY.
  pose proof (Rabs_pos Z) as HZ.
  destruct (f_max_bounds (Rabs X) (Rabs Y)) as [HmX HmY].
  assert (Habs0 : forall a, Rabs a = 0 -> a = 0).
  { intros a Ha. destruct (Req_dec a 0) as [|Hne]; [assumption|].
    apply Rabs_no_R0 in Hne. contradiction. }
  destruct (Rle_dec 1 (Rabs Z)) as [H1|H1].
  { left. split; [exact H1|]. split; [|reflexivity].
    intros ->. rewrite Rabs_R0 in H1. lra. }
  apply Rnot_le_lt in H1. right.
  destruct (Rlt_dec (f_max (Rabs X) (Rabs Y)) (1000000 * Rabs Z)) as [H2|H2].
  { left. split; [exact H1|]. split; [|split; [lra|split; [lra|reflexivity]]].
    intros ->. rewrite Rabs_R0 in H2. lra. }
  apply Rnot_lt_le in H2. right.
  destruct (Rlt_dec (Rabs Y) (Rabs X)) as [H3|H3].
  { left. split; [exact H1|]. split; [exact H3|]. split.
    - intros ->. rewrite Rabs_R0 in H3. lra.
    - destruct (Rlt_dec 0 X); eexists; (split; [|reflexivity]); auto. }
  apply Rnot_lt_le in H3. right.
  split; [exact H1|]. split; [exact H3|]. split.
  - intros ->. rewrite Rabs_R0 in H3.
    assert (HX0 : X = 0) by (apply Habs0; lra).
    assert (HZ0 : Z = 0).
    { apply Habs0. rewrite Rabs_R0 in HmY. subst X. rewrite Rabs_R0 in *.
      assert (f_max 0 0 = 0) as Hm by (unfold f_max; cbn; destruct (Rlt_dec _ _); reflexivity).
      rewrite Hm in H2. lra. }
    apply Hnz. auto.
  - destruct (Rlt_dec 0 Y); eexists; (split; [|reflexivity]); auto.
Qed.

(** The point [PointFrom2DHomo] returns has the direction of [(X, Y)],
    clamped or not, for every homogeneous vector but the null one. *)
Theorem PointFrom2DHomo_keeps_the_direction (X Y Z : R) :
  ~ (X = 0 /\ Y = 0 /\ Z = 0) ->
  fst (PointFrom2DHomo (X, Y, Z)) * Y = snd (PointFrom2DHomo (X, Y, Z)) * X.
Proof.
  intros Hnz.
  destruct (PointFrom2DHomo_cases X Y Z Hnz)
    as [(_ & HZ & ->)|[(_ & HZ & _ & _ & ->)|[(_ & _ & HX & x & _ & ->)
       |(_ & _ & HY & y & _ & ->)]]]; cbn [fst snd]; field; assumption.
Qed.

Lemma Rabs_clamped_ratio (x a b : R) :
  (x = 1000000 \/ x = -1000000) -> Rabs a <= Rabs b -> b <> 0 ->
  Rabs x <= 1000000 /\ Rabs (x * (a / b)) <= 1000000.
Proof.
  intros Hx Hab Hb.
  assert (Hax : Rabs x = 1000000).
  { destruct Hx as [->| ->]; unfold Rabs; destruct (Rcase_abs _); lra. }
  split; [lra|].
  unfold Rdiv. rewrite !Rabs_mult, Rabs_inv, Hax.
  pose proof (Rabs_pos_lt b Hb) as Hbpos. pose proof (Rabs_pos a) as Hapos.
  assert (Hinv : 0 < / Rabs b) by (apply Rinv_0_lt_compat; exact Hbpos).
  assert (Hr : Rabs a * / Rabs b <= 1).
  { apply (Rmult_le_reg_r (Rabs b)); [exact Hbpos|].
    rewrite Rmult_assoc, Rinv_l by lra. lra. }
  assert (0 <= Rabs a * / Rabs b) by (apply Rmult_le_pos; lra).
  replace 1000000 with (1000000 * 1) at 2 by ring.
  apply Rmult_le_compat_l; lra.
Qed.

(** For a homogeneous vector with [|Z| < 1], not null, both coordinates of
    the point returned lie within [RANGE] = 1e6 of zero. *)
Theorem PointFrom2DHomo_is_clamped (X Y Z : R) :
  ~ (X = 0 /\ Y = 0 /\ Z = 0) ->
  Rabs Z < 1 ->
  Rabs (fst (PointFrom2DHomo (X, Y, Z))) <= 1000000
  /\ Rabs (snd (PointFrom2DHomo (X, Y, Z))) <= 1000000.
Proof.
  intros Hnz HZ1.
  destruct (PointFrom2DHomo_cases X Y Z Hnz)
    as [(H1 & _)|[(_ & HZ & HX & HY & ->)|[(_ & HYX & HX & x & Hx & ->)
       |(_ & HXY & HY & y & Hy & ->)]]]; cbn [fst snd].
  - lra.
  - pose proof (Rabs_pos_lt Z HZ) as HZpos.
    assert (Hinv : 0 < / Rabs Z) by (apply Rinv_0_lt_compat; exact HZpos).
    unfold Rdiv. rewrite !Rabs_mult, !Rabs_inv. split.
    + apply (Rmult_le_reg_r (Rabs Z)); [exact HZpos|].
      rewrite Rmult_assoc, Rinv_l by lra. lra.
    + apply (Rmult_le_reg_r (Rabs Z)); [exact HZpos|].
      rewrite Rmult_assoc, Rinv_l by lra. lra.
  - apply Rabs_clamped_ratio; auto. lra.
  - destruct (Rabs_clamped_ratio y X Y Hy HXY HY) as [H1 H2]. split; assumption.
Qed.

End PointFrom2DHomoOverTheReals.

(** * [Inside] on integer pixels *)

Section InsideOnPixels.

Local Open Scope Z_scope.

Lemma Inside_int_spec (pt : Z * Z) (bbox : Rect_ Z) :
  Inside_int pt bbox = true <->
  rect_x bbox <= fst pt <= rect_x bbox + rect_width bbox
  /\ rect_y bbox <= snd pt <= rect_y bbox + rect_height bbox.
Proof.
  unfold Inside_int, Inside.
  rewrite !andb_true_iff, !Z.leb_le. lia.
Qed.

Lemma wrap_int32_cases (z : Z) :
  - 4294967296 <= z < 4294967296 ->
  (z < - 2147483648 /\ wrap_int32 z = z + 4294967296)
  \/ (- 2147483648 <= z < 2147483648 /\ wrap_int32 z = z)
  \/ (2147483648 <= z /\ wrap_int32 z = z - 4294967296).
Proof. unfold wrap_int32. intros Hz. Z.div_mod_to_equations. lia. Qed.

Lemma Inside_int32_spec (pt : Z * Z) (bbox : Rect_ Z) :
  Inside_int32 pt bbox = true <->
  rect_x bbox <= fst pt <= wrap_int32 (rect_x bbox + rect_width bbox)
  /\ rect_y bbox <= snd pt <= wrap_int32 (rect_y bbox + rect_height bbox).
Proof.
  unfold Inside_int32, Inside, int32_add.
  rewrite !andb_true_iff, !Z.leb_le. lia.
Qed.

(** Where neither sum overflows, the machine's [Inside] is the one over the
    integers. *)
Lemma Inside_int32_without_overflow (pt : Z * Z) (bbox : Rect_ Z) :
  is_int32 (rect_x bbox + rect_width bbox) ->
  is_int32 (rect_y bbox + rect_height bbox) ->
  Inside_int32 pt bbox = Inside_int pt bbox.
Proof.
  unfold is_int32. intros Hx Hy.
  destruct (wrap_int32_cases (rect_x bbox + rect_width bbox)) as [[? ?]|[[_ Hwx]|[? ?]]];
    [lia|lia| |lia].
  destruct (wrap_int32_cases (rect_y bbox + rect_height bbox)) as [[? ?]|[[_ Hwy]|[? ?]]];
    [lia|lia| |lia].
  unfold Inside_int32, Inside_int, Inside, int32_add. rewrite Hwx, Hwy.
  reflexivity.
Qed.

(** On 32-bit coordinates the test is closed on every side and wraps: a
    rectangle has a point [Inside] exactly when, on each axis, the size is
    not negative and the far edge stays within [int], or the size is
    negative and the far edge wraps round below; without overflow the four
    corners are inside, the far ones included; and a rectangle whose far
    edge [x + width] overflows has no point inside. *)
Theorem Inside_int32_is_closed_and_wraps (bbox : Rect_ Z) :
  is_int32 (rect_x bbox) -> is_int32 (rect_y bbox) ->
  is_int32 (rect_width bbox) -> is_int32 (rect_height bbox) ->
  ((exists pt, Inside_int32 pt bbox = true) <->
   (0 <= rect_width bbox /\ rect_x bbox + rect_width bbox < 2147483648
    \/ rect_width bbox < 0 /\ rect_x bbox + rect_width bbox < - 2147483648)
   /\ (0 <= rect_height bbox /\ rect_y bbox + rect_height bbox < 2147483648
       \/ rect_height bbox < 0
          /\ rect_y bbox + rect_height bbox < - 2147483648))
  /\ (0 <= rect_width bbox -> 0 <= rect_height bbox ->
      rect_x bbox + rect_width bbox < 2147483648 ->
      rect_y bbox + rect_height bbox < 2147483648 ->
      Inside_int32 (rect_x bbox, rect_y bbox) bbox = true
      /\ Inside_int32 (rect_x bbox + rect_width bbox, rect_y bbox) bbox = true
      /\ Inside_int32 (rect_x bbox, rect_y bbox + rect_height bbox) bbox = true
      /\ Inside_int32 (rect_x bbox + rect_width bbox,
                       rect_y bbox + rect_height bbox) bbox = true)
  /\ (2147483648 <= rect_x bbox + rect_width bbox ->
      forall pt, Inside_int32 pt bbox = false).
Proof.
  unfold is_int32. intros Hx Hy Hw Hh.
  pose proof (wrap_int32_cases (rect_x bbox + rect_width bbox)) as Hwx.
  pose proof (wrap_int32_cases (rect_y bbox + rect_height bbox)) as Hwy.
  split; [|split].
  - split.
    + intros [pt Hpt]. apply Inside_int32_spec in Hpt. lia.
    + intros Hwh. exists (rect_x bbox, rect_y bbox).
      apply Inside_int32_spec. cbn [fst snd]. lia.
  - intros Hw0 Hh0 Hxw Hyh. rewrite !Inside_int32_spec. cbn [fst snd]. lia.
  - intros Hover pt. destruct (Inside_int32 pt bbox) eqn:Hpt; [|reflexivity].
    apply Inside_int32_spec in Hpt. lia.
Qed.

(** Against the rectangle of an image, [(0, 0, cols, rows)], [Inside]
    accepts every pixel of the image, and also the pixels of column [cols]
    and of row [rows], which the image does not have. *)
Theorem Inside_is_wider_than_the_image (im : Image) (u v : Z) :
  let bbox := {| rect_x := 0; rect_y := 0; rect_width := cols im;
                 rect_height := rows im |} in
  (in_image im (u, v) -> Inside_int (u, v) bbox = true)
  /\ (0 <= rows im -> 0 <= cols im ->
      Inside_int (cols im, rows im) bbox = true
      /\ Image_at im (rows im) (cols im) = None).
Proof.
  cbv zeta. split.
  - unfold in_image. cbn. intros Hin. apply Inside_int_spec. cbn. lia.
  - intros Hr Hc. split; [apply Inside_int_spec; cbn; lia|].
    unfold Image_at. rewrite (Z.ltb_irrefl (rows im)).
    rewrite andb_false_r. reflexivity.
Qed.

End InsideOnPixels.

(** * The further properties at concrete inputs *)

Lemma residual_ignores_uninitialised_buffers_witness :
  CostFunctor_operator ex_cf_two T_float ex_junk ex_junk ex_zero ex_zero =
  CostFunctor_operator ex_cf_two T_float (fun _ => (0, 0, 0)) (fun i => (Z.of_nat i, 255, 1))
    ex_zero ex_zero.
Proof.
  exact (residual_ignores_uninitialised_buffers ex_cf_two T_float ex_junk
           ex_junk (fun _ => (0, 0, 0)) (fun i => (Z.of_nat i, 255, 1))
           ex_zero ex_zero 2 wf_ex_kf_two).
Defined.

Lemma in_image_ex_im_1_1 : in_image ex_im (1, 1).
Proof. unfold in_image. cbn. lia. Qed.

Lemma valid_point_residual_as_computed_witness :
  exists out,
    CostFunctor_operator ex_cf_two T_float ex_junk ex_junk ex_zero ex_zero
      = ReturnTrue out
    /\ out !! 0%nat =
       Some (normalized
               (saturated_color_error (6, 8, 0) (sample ex_im (1, 1)))
               (saturated_color_error (6, 8, 0) (sample ex_im (1, 1)))
               2%Q).
Proof.
  apply (valid_point_residual_as_computed ex_cf_two T_float ex_junk ex_junk
           ex_zero ex_zero 2 0 (6, 8, 0) (1, 1) (1, 1)).
  - discriminate.
  - exact wf_ex_kf_two.
  - reflexivity.
  - vm_compute. reflexivity.
  - vm_compute. reflexivity.
  - exact in_image_ex_im_1_1.
  - exact in_image_ex_im_1_1.
Defined.

Lemma covers_ex : covers (6, 8, 0) (sample ex_im (1, 1)).
Proof.
  change (sample ex_im (1, 1)) with ((3, 4, 0) : Vec3b). unfold covers. lia.
Qed.

Lemma valid_point_residual_is_L2_when_reference_covers_witness :
  exists out,
    CostFunctor_operator ex_cf_two T_float ex_junk ex_junk ex_zero ex_zero
      = ReturnTrue out
    /\ out !! 0%nat = Some (rho L2_color_error ex_cf_two (6, 8, 0) (1, 1) (1, 1)).
Proof.
  apply (valid_point_residual_is_L2_when_reference_covers ex_cf_two T_float
           ex_junk ex_junk ex_zero ex_zero 2 0 (6, 8, 0) (1, 1) (1, 1)).
  - discriminate.
  - exact wf_ex_kf_two.
  - reflexivity.
  - vm_compute. reflexivity.
  - vm_compute. reflexivity.
  - exact in_image_ex_im_1_1.
  - exact in_image_ex_im_1_1.
  - exact covers_ex.
  - exact covers_ex.
Defined.

Lemma Tcw_is_TFromRt_times_keyframe_pose_witness :
  mem_Tcw
    (snd (EstimateCameraPose 1 1%Q ex_Solve ex_mem_wide 1%Q 0%Q true true true
            ex_junk ex_junk)) =
  mat44_mul (TFromRt (Rodrigues ex_zero) ex_zero) (GetPose ex_kf_wide).
Proof.
  exact (Tcw_is_TFromRt_times_keyframe_pose 1 1%Q ex_Solve ex_mem_wide 1%Q 0%Q
           true true true ex_junk ex_junk eq_refl).
Defined.

Lemma wf_ex_kf_real : wf_keyframe ex_kf_real 1.
Proof. repeat split. Qed.

Lemma residuals_are_nonnegative_witness :
  exists out,
    CostFunctor_operator
      (mkCostFunctor ex_im ex_kf_real (mInvK ex_kf_real) (mInvK ex_kf_real)
         1%R) T_double ex_junk ex_junk (0, 0, 0)%R (0, 0, 0)%R
      = ReturnTrue out
    /\ Forall (fun x => (0 <= x)%R) out.
Proof.
  apply (residuals_are_nonnegative
           (mkCostFunctor ex_im ex_kf_real (mInvK ex_kf_real)
              (mInvK ex_kf_real) 1%R)
           T_double ex_junk ex_junk (0, 0, 0)%R (0, 0, 0)%R 1).
  - discriminate.
  - exact wf_ex_kf_real.
  - cbn. lra.
Defined.

Lemma validRatio_is_between_0_and_1_witness :
  (0 <= mem_validRatio
          (snd (EstimateCameraPose 1 1%R
                  (Solve_returning (0, 0, 0)%R (0, 0, 0)%R 0%R) ex_mem_real
                  1%R 0%R true true true ex_junk ex_junk)) <= 1)%R.
Proof.
  apply (validRatio_is_between_0_and_1 1 1%R
           (Solve_returning (0, 0, 0)%R (0, 0, 0)%R 0%R) ex_mem_real 1%R 0%R
           true true ex_junk ex_junk 1).
  - exact wf_ex_kf_real.
  - lia.
Defined.

Lemma no_motion_returns_keyframe_pose_witness :
  let m' :=
    snd (EstimateCameraPose 1 1%R
           (Solve_returning (0, 0, 0)%R (0, 0, 0)%R 3%R) ex_mem_real 1%R 0%R
           true true true ex_junk ex_junk) in
  mem_Tcw m' = GetPose ex_kf_real
  /\ mem_rotAngle m' = 0%R
  /\ mem_transDist m' = 0%R.
Proof.
  exact (no_motion_returns_keyframe_pose 1 1%R
           (Solve_returning (0, 0, 0)%R (0, 0, 0)%R 3%R) ex_mem_real 1%R 0%R
           3%R true ex_junk ex_junk eq_refl).
Defined.

Lemma LineIntersection_is_the_common_point_witness :
  on_line (0, 0)%R (1, 0)%R (LineIntersection (0, 0) (1, 0) (2, 1) (2, 3))%R
  /\ on_line (2, 1)%R (2, 3)%R
       (LineIntersection (0, 0) (1, 0) (2, 1) (2, 3))%R
  /\ forall Q, on_line (0, 0)%R (1, 0)%R Q -> on_line (2, 1)%R (2, 3)%R Q ->
       Q = LineIntersection (0, 0)%R (1, 0)%R (2, 1)%R (2, 3)%R.
Proof.
  apply (LineIntersection_is_the_common_point (0, 0)%R (1, 0)%R (2, 1)%R
           (2, 3)%R).
  cbn. lra.
Defined.

Lemma LineIntersection_of_parallel_lines_witness :
  LineIntersection (1, 1)%R (1, 1)%R (0, 0)%R (2, 3)%R = (FLT_MAX, FLT_MAX)
  /\ IsParallel (1, 1)%R (1, 1)%R (0, 0)%R (2, 3)%R = true.
Proof.
  apply (LineIntersection_of_parallel_lines (1, 1)%R (1, 1)%R (0, 0)%R
           (2, 3)%R).
  cbn. lra.
Defined.

Lemma rotation_angle_is_norm_of_rotation_vector_witness :
  let m' :=
    snd (EstimateCameraPose 1 1%R
           (Solve_returning (1, 0, 0)%R (0, 3, 4)%R 3%R) ex_mem_real 1%R 0%R
           true true true ex_junk ex_junk) in
  mem_rotAngle m' = norm3 (1, 0, 0)%R
  /\ mem_transDist m' = norm3 (0, 3, 4)%R.
Proof.
  apply (rotation_angle_is_norm_of_rotation_vector 1 1%R
           (Solve_returning (1, 0, 0)%R (0, 3, 4)%R 3%R) ex_mem_real 1%R 0%R
           true ex_junk ex_junk).
  unfold Solve_returning, norm3. cbn [fst snd].
  replace (1 * 1 + 0 * 0 + 0 * 0)%R with 1%R by ring. rewrite sqrt_1.
  pose proof PI2_1. lra.
Defined.

Lemma LineIntersectionX_is_on_the_line_witness :
  on_line (0, 0)%R (2, 4)%R (LineIntersectionX (0, 0)%R (2, 4)%R 1%R)
  /\ fst (LineIntersectionX (0, 0)%R (2, 4)%R 1%R) = 1%R
  /\ LineIntersectionX (0, 0)%R (2, 4)%R (fst (0, 0)%R) = (0, 0)%R
  /\ LineIntersectionX (0, 0)%R (2, 4)%R (fst (2, 4)%R) = (2, 4)%R.
Proof.
  apply (LineIntersectionX_is_on_the_line (0, 0)%R (2, 4)%R 1%R).
  cbn. lra.
Defined.

Lemma LineIntersectionY_is_on_the_line_witness :
  on_line (0, 0)%R (2, 4)%R (LineIntersectionY (0, 0)%R (2, 4)%R 1%R)
  /\ snd (LineIntersectionY (0, 0)%R (2, 4)%R 1%R) = 1%R
  /\ LineIntersectionY (0, 0)%R (2, 4)%R (snd (0, 0)%R) = (0, 0)%R
  /\ LineIntersectionY (0, 0)%R (2, 4)%R (snd (2, 4)%R) = (2, 4)%R.
Proof.
  apply (LineIntersectionY_is_on_the_line (0, 0)%R (2, 4)%R 1%R).
  cbn. lra.
Defined.

Lemma PointFrom2DHomo_keeps_the_direction_witness :
  (fst (PointFrom2DHomo (1, 2, 0)) * 2 = snd (PointFrom2DHomo (1, 2, 0)) * 1)%R.
Proof.
  apply (PointFrom2DHomo_keeps_the_direction 1 2 0)%R.
  intros [H1 _]. lra.
Defined.

Lemma PointFrom2DHomo_is_clamped_witness :
  (Rabs (fst (PointFrom2DHomo (1, 2, 0))) <= 1000000
   /\ Rabs (snd (PointFrom2DHomo (1, 2, 0))) <= 1000000)%R.
Proof.
  apply (PointFrom2DHomo_is_clamped 1 2 0)%R.
  - intros [H1 _]. lra.
  - rewrite Rabs_R0. lra.
Defined.

(** * The projection of the functor is the pinhole projection *)

Section Projection.

Context {F : Type} `{Numeric F}.

(** The projection row by row, for any arithmetic. *)
Lemma project_rows (cf : CostFunctor F) (Rt : Mat33 F) (t : Vec3 F)
    (depth : list F) (n : nat) :
  (length depth <= n)%nat ->
  project cf Rt (repeat_rows t n) depth =
  zip_with
    (fun d h =>
       pixel_of_homogeneous
         (vec_mul_mat
            (vec3_zip f_add
               (vec_mul_mat
                  (vec_mul_mat (vec3_zip f_mul (d, d, d) h) (invKt cf)) Rt)
               t)
            (Kt cf)))
    depth (mHighGradPtHomo2dCoord (pReferenceKF cf)).
Proof.
  unfold project, convertTo_32S, mat_ediv2, colRange_0_2, repeat_cols2, col_2,
    mat_mul, mat_add, mat_emul, repeat_cols3, repeat_rows.
  generalize (mHighGradPtHomo2dCoord (pReferenceKF cf)) as homo.
  revert n. induction depth as [|d depth IH]; intros n homo Hn;
    [reflexivity|].
  destruct homo as [|h homo]; [reflexivity|].
  destruct n as [|n]; [cbn in Hn; lia|].
  cbn [map zip_with replicate]. rewrite IH by (cbn in Hn; lia).
  f_equal. unfold pixel_of_homogeneous.
  destruct (vec_mul_mat _ (Kt cf)) as [[x y] w]. reflexivity.
Qed.

End Projection.

Section ProjectionOverTheReals.

Local Open Scope R_scope.

Lemma projection_row (K invK Rm : Mat33 R) (t : Vec3 R) (d : R) (h : Vec3 R) :
  vec_mul_mat
    (vec3_zip f_add
       (vec_mul_mat
          (vec_mul_mat (vec3_zip f_mul (d, d, d) h) (mat_t invK)) (mat_t Rm))
       t)
    (mat_t K) =
  pinhole_point K invK Rm t d h.
Proof.
  destruct K as [[[[k00 k01] k02] [[k10 k11] k12]] [[k20 k21] k22]].
  destruct invK as [[[[i00 i01] i02] [[i10 i11] i12]] [[i20 i21] i22]].
  destruct Rm as [[[[r00 r01] r02] [[r10 r11] r12]] [[r20 r21] r22]].
  destruct t as [[tx ty] tz], h as [[hx hy] hz].
  cbn. tuple_ring.
Qed.

(** Over the real numbers the pixels the functor computes, with its
    transposed matrices and row vectors, are the pinhole projections
    [K (R (depth invK h) + t)] of the reference points, for the depths and
    for the depths shifted by the uncertainty. *)
Theorem functor_projects_as_pinhole_camera (im : Image) (kf : KeyFrame R)
    (K invK : Mat33 R) (noise : R) (r t : Vec3 R) :
  proj2d_of (mkCostFunctor im kf K invK noise) r t =
    zip_with (pinhole_pixel K invK (Rodrigues r) t)
      (mHighGradPtDepth kf) (mHighGradPtHomo2dCoord kf)
  /\ proj2dRight_of (mkCostFunctor im kf K invK noise) r t =
     zip_with (pinhole_pixel K invK (Rodrigues r) t)
       (zip_with Rplus (mHighGradPtDepth kf) (mHighGradPtSqrtUncertainty kf))
       (mHighGradPtHomo2dCoord kf).
Proof.
  unfold proj2d_of, proj2dRight_of. split.
  - rewrite project_rows by reflexivity. cbn [pReferenceKF mkCostFunctor
      invKt Kt]. apply zip_with_ext; auto. intros d h.
    unfold pinhole_pixel. rewrite projection_row. reflexivity.
  - rewrite project_rows.
    + cbn [pReferenceKF mkCostFunctor invKt Kt]. unfold col_add.
      apply zip_with_ext; auto. intros d h.
      unfold pinhole_pixel. rewrite projection_row. reflexivity.
    + cbn [pReferenceKF mkCostFunctor]. unfold col_add.
      rewrite length_zip_with. lia.
Qed.

End ProjectionOverTheReals.

Lemma Inside_int32_is_closed_and_wraps_witness :
  let bbox := {| rect_x := 2147483647; rect_y := 0; rect_width := 1;
                 rect_height := 1 |} in
  ((exists pt, Inside_int32 pt bbox = true) <->
   (0 <= rect_width bbox /\ rect_x bbox + rect_width bbox < 2147483648
    \/ rect_width bbox < 0 /\ rect_x bbox + rect_width bbox < - 2147483648)
   /\ (0 <= rect_height bbox /\ rect_y bbox + rect_height bbox < 2147483648
       \/ rect_height bbox < 0
          /\ rect_y bbox + rect_height bbox < - 2147483648))
  /\ (0 <= rect_width bbox -> 0 <= rect_height bbox ->
      rect_x bbox + rect_width bbox < 2147483648 ->
      rect_y bbox + rect_height bbox < 2147483648 ->
      Inside_int32 (rect_x bbox, rect_y bbox) bbox = true
      /\ Inside_int32 (rect_x bbox + rect_width bbox, rect_y bbox) bbox = true
      /\ Inside_int32 (rect_x bbox, rect_y bbox + rect_height bbox) bbox = true
      /\ Inside_int32 (rect_x bbox + rect_width bbox,
                       rect_y bbox + rect_height bbox) bbox = true)
  /\ (2147483648 <= rect_x bbox + rect_width bbox ->
      forall pt, Inside_int32 pt bbox = false).
Proof.
  apply (Inside_int32_is_closed_and_wraps
           {| rect_x := 2147483647; rect_y := 0; rect_width := 1;
              rect_height := 1 |}); unfold is_int32; cbn; lia.
Defined.

(** C8, as the claim has it, fails at the noise variance 0: the normalizer
    of a point whose two colour errors agree is then 0, the element-wise
    division gives 0, and every residual is 0; at the variance 2 the
    residuals are 5/2 and the sum of their squares has grown. *)
Lemma zero_noise_variance_gives_smaller_cost :
  let cf0 := mkCostFunctor ex_im ex_kf_two ex_K ex_invK 0%Q in
  valid_of cf0 ex_zero ex_zero = [255; 0]
  /\ rhos saturated_color_error cf0 ex_zero ex_zero !! 0%nat = Some 0%Q
  /\ rhos saturated_color_error ex_cf_two ex_zero ex_zero !! 0%nat
     = Some (5 # 2)%Q
  /\ CostFunctor_operator cf0 T_float ex_junk ex_junk ex_zero ex_zero
     = ReturnTrue [0%Q; 0%Q]
  /\ CostFunctor_operator ex_cf_two T_float ex_junk ex_junk ex_zero ex_zero
     = ReturnTrue [(5 # 2)%Q; (5 # 2)%Q]
  /\ cv_sum (col_pow2 [0%Q; 0%Q]) = 0%Q
  /\ cv_sum (col_pow2 [(5 # 2)%Q; (5 # 2)%Q]) = (25 # 2)%Q.
Proof. vm_compute. repeat split. Qed.
